(** * douyin-downloader: link resolution, retry, batch, pagination and
    download engines, embedded from the TypeScript sources.

    Strings are byte strings ([string] of [ascii]); a JavaScript [number]
    that the code only uses as an integer is a [Z]; delays, which the code
    multiplies by a random factor, are rationals ([Q], the exact arithmetic
    that the floating-point code approximates).  Asynchronous functions are
    state transformers on a world [W] that return an [Outcome]: a value or
    a thrown [JsError]. *)

From Stdlib Require Import ZArith QArith Qminmax Qpower List String Ascii Bool Lia DecimalString.
From Equations Require Import Equations.
From Equations.Prop Require Import Logic.
From stdpp Require Import base option list strings gmap.
Import ListNotations.

Set Default Proof Using "Type".
Local Open Scope string_scope.

(** String concatenation computes on literals, as in the sources. *)
#[global] Arguments String.append !s1 s2 / : simpl nomatch.

(* ===================================================================== *)
(** * Part I. Definitions                                                 *)
(* ===================================================================== *)

(** ** JavaScript values shared by all modules *)
Module Js.

(** [Error] objects.  [statusCode] is the own property that
    [enhancedFetch] attaches to HTTP errors; [response] is the
    axios-style [error.response] that the catch blocks probe;
    [download] is present exactly when the object is an instance of
    [DownloadError]. *)
Record ErrResponse := mkErrResponse {
  status : option Z;
  json_statusCode : option Z;
  json_statusMsg : option string
}.

Record DownloadInfo := mkDownloadInfo {
  code : string;
  retryable : bool;
  durl : string
}.

Record JsError := mkJsError {
  name : string;
  message : string;
  statusCode : option Z;
  response : option ErrResponse;
  download : option DownloadInfo
}.

(** [new Error(msg)] *)
Definition newError (msg : string) : JsError :=
  mkJsError "Error" msg None None None.

(** [new DownloadError(message, url, code, retryable)] *)
Definition newDownloadError (msg url c : string) (r : bool) : JsError :=
  mkJsError "DownloadError" msg None None (Some (mkDownloadInfo c r url)).

Inductive Outcome (A : Type) : Type :=
| Ok (a : A)
| Throw (e : JsError).
Arguments Ok {A} a.
Arguments Throw {A} e.

(** An asynchronous computation: it runs on the world and settles. *)
Definition Async (W A : Type) : Type := W -> Outcome A * W.

(** [String.prototype.includes] *)
Fixpoint includes (s sub : string) : bool :=
  if String.prefix sub s then true
  else match s with
       | EmptyString => false
       | String _ s' => includes s' sub
       end.

(** [String.prototype.startsWith] *)
Definition startsWith (s pre : string) : bool := String.prefix pre s.

Definition lower_ascii (c : ascii) : ascii :=
  let n := nat_of_ascii c in
  if (65 <=? n)%nat && (n <=? 90)%nat then ascii_of_nat (n + 32) else c.

(** [String.prototype.toLowerCase], on the ASCII letters. *)
Fixpoint toLowerCase (s : string) : string :=
  match s with
  | EmptyString => EmptyString
  | String c s' => String (lower_ascii c) (toLowerCase s')
  end.

(** Template-literal rendering of an integer. *)
Definition string_of_Z (z : Z) : string := NilZero.string_of_int (Z.to_int z).

End Js.
Import Js.

(** ** The runtime that asynchronous code runs on *)
Module Runtime.

(** [Math.random()] and [await delay(ms)] (a [setTimeout] promise) act on
    the world; nothing else is assumed about them. *)
Class Runtime (W : Type) := mkRuntime {
  math_random : W -> Q * W;
  delay : Q -> W -> W
}.

End Runtime.
Import Runtime.

(** ** src/info/error-handler.ts (classification, delay) *)
Module InfoErrorHandler.

Definition RETRYABLE_ERROR_TYPES : list string :=
  ["TimeoutError"; "NetworkError"; "ConnectionError"; "NavigationError"; "AbortError"].

Record RetryConfig := mkRetryConfig {
  maxRetries : Z;
  baseDelay : Q;
  maxDelay : Q;
  factor : Q
}.

Definition DEFAULT_RETRY_CONFIG : RetryConfig :=
  mkRetryConfig 3 (1000 # 1) (15000 # 1) (2 # 1).

Definition retryableMessages : list string :=
  ["timeout"; "network"; "connection"; "temporarily unavailable";
   "rate limit"; "too many requests"; "server error"; "internal error";
   "socket hang up"; "econnreset"; "econnrefused"; "etimedout"].

Definition isRetryableError (error : JsError) : bool :=
  if existsb (fun type => includes (name error) type) RETRYABLE_ERROR_TYPES then true
  else
    let errorMessage := toLowerCase (message error) in
    if existsb (fun msg => includes errorMessage msg) retryableMessages then true
    else match statusCode error with
         | Some sc => (sc >=? 500)%Z || (sc =? 429)%Z || (sc =? 408)%Z
         | None => false
         end.

(** [0.8 + Math.random() * 0.4], for the random draw [r]. *)
Definition jitter (r : Q) : Q := ((8 # 10) + r * (4 # 10))%Q.

(** [calculateRetryDelay(attempt, config)] with the value [r] that
    [Math.random()] returned. *)
Definition calculateRetryDelay (attempt : Z) (config : RetryConfig) (r : Q) : Q :=
  let delay := (baseDelay config * Qpower (factor config) (attempt - 1))%Q in
  let delay := (delay * jitter r)%Q in
  Qmin delay (maxDelay config).

(** One pass through the [while (attempt <= maxRetries)] loop of
    [fetchWithRetry]: a value, a throw, or another round. *)
Inductive Pass (T : Type) : Type :=
| PassReturn (v : T)
| PassThrow (e : JsError)
| PassAgain (attempt : Z) (lastError : JsError).
Arguments PassReturn {T} v.
Arguments PassThrow {T} e.
Arguments PassAgain {T} attempt lastError.

Definition fetchWithRetry_pass {W T : Type} `{Runtime W}
    (fetcher : Async W T) (retryConfig : RetryConfig)
    (attempt : Z) (w : W) : Pass T * W :=
  match fetcher w with
  | (Ok v, w1) => (PassReturn v, w1)
  | (Throw err, w1) =>
    let attempt := (attempt + 1)%Z in
    if (attempt >? maxRetries retryConfig)%Z || negb (isRetryableError err)
    then (PassThrow err, w1)
    else
      let '(r, w2) := math_random w1 in
      let delay := calculateRetryDelay attempt retryConfig r in
      (PassAgain attempt err, Runtime.delay delay w2)
  end.

Equations? fetchWithRetry_loop {W T : Type} `{Runtime W}
    (fetcher : Async W T) (retryConfig : RetryConfig)
    (attempt : Z) (lastError : option JsError) (w : W) : Outcome T * W
    by wf (Z.to_nat (maxRetries retryConfig + 1 - attempt)) lt :=
fetchWithRetry_loop fetcher retryConfig attempt lastError w
    with inspect (attempt <=? maxRetries retryConfig)%Z := {
  | exist _ false _ => (Throw (default (newError "重試失敗") lastError), w)
  | exist _ true Hle
      with inspect (fetchWithRetry_pass fetcher retryConfig attempt w) := {
    | exist _ (PassReturn v, w') _ => (Ok v, w')
    | exist _ (PassThrow e, w') _ => (Throw e, w')
    | exist _ (PassAgain attempt' err, w') Hp =>
        fetchWithRetry_loop fetcher retryConfig attempt' (Some err) w' } }.
Proof.
  unfold fetchWithRetry_pass in Hp.
  destruct (fetcher w) as [[v|err0] w1]; [discriminate|].
  destruct ((attempt + 1 >? maxRetries retryConfig)%Z || negb (isRetryableError err0));
    [discriminate|].
  destruct (math_random w1) as [rq w2]. inversion Hp; subst.
  apply Z.leb_le in Hle. lia.
Qed.

(** [fetchWithRetry(fetcher)] with the default configuration. *)
Definition fetchWithRetry {W T : Type} `{Runtime W} (fetcher : Async W T) : Async W T :=
  fun w => fetchWithRetry_loop fetcher DEFAULT_RETRY_CONFIG 0 None w.

(** [handleDouyinApiError(error)] *)
Definition handleDouyinApiError (error : JsError) : JsError :=
  let originalError := error in
  let api_code :=
    match response error with
    | Some resp =>
      match json_statusCode resp with
      | Some c => if (c =? 0)%Z then None else Some (c, json_statusMsg resp)
      | None => None
      end
    | None => None
    end in
  match api_code with
  | Some (8%Z, _) => newError "抖音 API 請求頻率超過限制，請稍後再試"
  | Some (2101%Z, _) => newError "抖音 Cookie 已失效，請重新登入"
  | Some (2154%Z, _) => newError "該影片需要登入後才能查看"
  | Some (2190%Z, _) => newError "該影片不存在或已被刪除"
  | Some (c, statusMsg) =>
    newError ("抖音 API 錯誤: " ++ string_of_Z c ++ " - " ++
              match statusMsg with
              | Some m => if String.eqb m "" then "未知錯誤" else m
              | None => "未知錯誤"
              end)
  | None =>
    let errorMessage := toLowerCase (message originalError) in
    if includes errorMessage "cookie" &&
       (includes errorMessage "invalid" || includes errorMessage "expired")
    then newError "抖音 Cookie 已失效，請重新登入"
    else if includes errorMessage "captcha" || includes errorMessage "人機驗證"
    then newError "遇到抖音人機驗證，請稍後再試或更新 Cookie"
    else if includes errorMessage "rate limit" || includes errorMessage "too many requests"
    then newError "請求頻率過高，已被抖音限制，請稍後再試"
    else if includes errorMessage "not found" || includes errorMessage "404"
    then newError "影片不存在或已被刪除"
    else originalError
  end.

End InfoErrorHandler.

(** ** src/download/error-handler.ts *)
Module DownloadErrorHandler.

Definition isRetryableError (error : JsError) : bool :=
  let message := toLowerCase (message error) in
  let name := toLowerCase (name error) in
  if includes name "network" ||
     includes message "network" ||
     includes message "connection" ||
     includes message "timeout" ||
     includes message "timed out" ||
     includes message "429" ||
     includes message "503" ||
     includes message "504"
  then true
  else if includes message "404" ||
          includes message "403" ||
          includes message "401" ||
          includes message "400" ||
          includes message "not found" ||
          includes message "forbidden" ||
          includes message "unauthorized" ||
          includes message "bad request" ||
          includes message "permission denied"
  then false
  else true.

(** [getDownloadErrorMessage(error, url)] *)
Definition getDownloadErrorMessage (error : JsError) (url : string) : string :=
  match download error with
  | Some _ => message error
  | None =>
    let msg := toLowerCase (message error) in
    if includes msg "timeout" || includes msg "timed out"
    then "下載超時，請檢查網絡連接或稍後再試"
    else if includes msg "404" || includes msg "not found"
    then "影片資源不存在或已被移除"
    else if includes msg "403" || includes msg "forbidden"
    then "無權訪問此影片資源，可能需要登入或權限"
    else if includes msg "429" || includes msg "too many requests"
    then "下載請求過於頻繁，請稍後再試"
    else "下載影片時發生錯誤: " ++ message error
  end.

End DownloadErrorHandler.


(** ** src/utils/retry.ts *)
Module Retry.

(** [Required<RetryOptions>]: the options after the defaults are merged. *)
Record RetryOptions (W : Type) := mkRetryOptions {
  retries : Z;
  minDelay : Q;
  maxDelay : Q;
  factor : Q;
  onRetry : JsError -> Z -> W -> W;
  shouldRetry : JsError -> bool
}.
Arguments mkRetryOptions {W}.
Arguments retries {W}.
Arguments minDelay {W}.
Arguments maxDelay {W}.
Arguments factor {W}.
Arguments onRetry {W}.
Arguments shouldRetry {W}.

(** The default [onRetry] only writes a debug line. *)
Definition DEFAULT_RETRY_OPTIONS {W : Type} : RetryOptions W :=
  mkRetryOptions 3 (1000 # 1) (30000 # 1) (2 # 1)
    (fun _ _ w => w)
    (fun _ => true).

(** [{ ...DEFAULT_RETRY_OPTIONS, retries }]: what [withRetry] merges
    when the caller passes [retries] alone. *)
Definition default_with_retries {W : Type} (retries : Z) : RetryOptions W :=
  mkRetryOptions retries
    (minDelay (@DEFAULT_RETRY_OPTIONS W)) (maxDelay (@DEFAULT_RETRY_OPTIONS W))
    (factor (@DEFAULT_RETRY_OPTIONS W))
    (onRetry DEFAULT_RETRY_OPTIONS) (shouldRetry (@DEFAULT_RETRY_OPTIONS W)).

(** [calculateDelay(attempt, options)] with the value [r] that
    [Math.random()] returned. *)
Definition calculateDelay {W : Type} (attempt : Z) (options : RetryOptions W) (r : Q) : Q :=
  let delay := (minDelay options * Qpower (factor options) (attempt - 1))%Q in
  let delay := (delay * ((8 # 10) + r * (4 # 10)))%Q in
  Qmin delay (maxDelay options).

(** What one pass through the [while (attempt <= retries)] loop of
    [withRetry] does: return, throw, or go round again with the
    incremented attempt counter and the error just caught. *)
Inductive Iter (R : Type) : Type :=
| IterReturn (r : R)
| IterThrow (e : JsError)
| IterAgain (attempt : Z) (lastError : JsError).
Arguments IterReturn {R} r.
Arguments IterThrow {R} e.
Arguments IterAgain {R} attempt lastError.

Definition withRetry_iteration {W R : Type} `{Runtime W}
    (fn : Async W R) (o : RetryOptions W)
    (attempt : Z) (lastError : JsError) (w : W) : Iter R * W :=
  if (attempt <=? retries o)%Z then
    match fn w with
    | (Ok r, w1) => (IterReturn r, w1)
    | (Throw error, w1) =>
      let lastError := error in
      let attempt := (attempt + 1)%Z in
      if negb (shouldRetry o lastError) then (IterThrow lastError, w1)
      else if (attempt >? retries o)%Z then (IterThrow lastError, w1)
      else
        let w2 := onRetry o lastError attempt w1 in
        let '(r, w3) := math_random w2 in
        let delayTime := calculateDelay attempt o r in
        (IterAgain attempt lastError, delay delayTime w3)
    end
  else (IterThrow lastError, w).

Equations? withRetry_loop {W R : Type} `{Runtime W}
    (fn : Async W R) (o : RetryOptions W)
    (attempt : Z) (lastError : JsError) (w : W) : Outcome R * W
    by wf (Z.to_nat (retries o + 1 - attempt)) lt :=
withRetry_loop fn o attempt lastError w
    with inspect (withRetry_iteration fn o attempt lastError w) := {
  | exist _ (IterReturn r, w') _ => (Ok r, w')
  | exist _ (IterThrow e, w') _ => (Throw e, w')
  | exist _ (IterAgain attempt' e, w') Hit => withRetry_loop fn o attempt' e w' }.
Proof.
  unfold withRetry_iteration in Hit.
  destruct (attempt <=? retries o)%Z eqn:Hle; [|discriminate].
  destruct (fn w) as [[r|err] w1]; [discriminate|].
  destruct (negb (shouldRetry o err)); [discriminate|].
  destruct (attempt + 1 >? retries o)%Z eqn:Hgt; [discriminate|].
  destruct (math_random _) as [rq w3]. inversion Hit; subst.
  apply Z.leb_le in Hle. lia.
Qed.

(** [withRetry(fn, options)] *)
Definition withRetry {W R : Type} `{Runtime W}
    (fn : Async W R) (options : RetryOptions W) : Async W R :=
  fun w => withRetry_loop fn options 0 (newError "Unknown error during retry") w.

(** *** processBatch

    [PromisePool] is the third-party pool of @supercharge/promise-pool.
    What the model takes from its documentation: [process] rejects with a
    validation error when the concurrency is not a number of at least 1;
    it starts the items in order while fewer than [concurrency] handlers
    are running; the value of a handler that resolves is pushed onto
    [results] when it resolves; a handler that rejects is passed to the
    callback registered with [handleError], and with such a callback
    registered the pool's own [errors] stays empty.

    A running handler advances by one pass of its [withRetry] loop at a
    time; which running handler advances next is the scheduler's choice,
    so that results and errors are collected in completion order. *)

Record ProcessBatchOptions (T R W : Type) := mkProcessBatchOptions {
  concurrency : Z;
  retry : RetryOptions W;
  onProgress : option (nat -> nat -> list JsError -> Async W unit)
}.
Arguments mkProcessBatchOptions {T R W}.
Arguments concurrency {T R W}.
Arguments retry {T R W}.
Arguments onProgress {T R W}.

(** A handler in flight: the item, its index, and the loop variables of
    its [withRetry] call. *)
Record Task (T : Type) := mkTask {
  t_item : T;
  t_index : nat;
  t_attempt : Z;
  t_lastError : JsError
}.
Arguments mkTask {T}.
Arguments t_item {T}.
Arguments t_index {T}.
Arguments t_attempt {T}.
Arguments t_lastError {T}.

Record PoolState (T R W : Type) := mkPoolState {
  queue : list (T * nat);
  active : list (Task T);
  results : list R;
  allErrors : list JsError;
  completed : nat;
  world : W
}.
Arguments mkPoolState {T R W}.
Arguments queue {T R W}.
Arguments active {T R W}.
Arguments results {T R W}.
Arguments allErrors {T R W}.
Arguments completed {T R W}.
Arguments world {T R W}.

Record BatchOutcome (R : Type) := mkBatchOutcome {
  out_results : list R;
  out_errors : list JsError
}.
Arguments mkBatchOutcome {R}.
Arguments out_results {R}.
Arguments out_errors {R}.

Definition start_task {T : Type} (x : T * nat) : Task T :=
  mkTask (fst x) (snd x) 0 (newError "Unknown error during retry").

(** The pool starts queued items while a slot is free. *)
Fixpoint refill {T : Type} (c : nat) (q : list (T * nat)) (a : list (Task T))
    : list (T * nat) * list (Task T) :=
  match q with
  | [] => (q, a)
  | x :: q' => if (length a <? c)%nat then refill c q' (a ++ [start_task x]) else (q, a)
  end.

(** One scheduling step: start what can be started, then let the running
    handler number [choice] make one pass of its retry loop.  [None]: the
    pool is idle and nothing is queued. *)
Definition pool_step {T R W : Type} `{Runtime W}
    (fn : T -> nat -> Async W R) (options : ProcessBatchOptions T R W)
    (total : nat) (choice : nat) (s : PoolState T R W) : option (PoolState T R W) :=
  let '(q, a) := refill (Z.to_nat (concurrency options)) (queue s) (active s) in
  let k := (choice mod length a)%nat in
  match a !! k with
  | None => None
  | Some t =>
    match withRetry_iteration (fn (t_item t) (t_index t)) (retry options)
            (t_attempt t) (t_lastError t) (world s) with
    | (IterAgain attempt' e, w') =>
      Some (mkPoolState q (<[k := mkTask (t_item t) (t_index t) attempt' e]> a)
              (results s) (allErrors s) (completed s) w')
    | (IterReturn result, w') =>
      let completed' := S (completed s) in
      match onProgress options with
      | None =>
        Some (mkPoolState q (delete k a) (results s ++ [result]) (allErrors s) completed' w')
      | Some cb =>
        match cb completed' total (allErrors s) w' with
        | (Ok _, w'') =>
          Some (mkPoolState q (delete k a) (results s ++ [result]) (allErrors s) completed' w'')
        | (Throw err, w'') =>
          Some (mkPoolState q (delete k a) (results s) (allErrors s ++ [err]) completed' w'')
        end
      end
    | (IterThrow err, w') =>
      Some (mkPoolState q (delete k a) (results s) (allErrors s ++ [err]) (completed s) w')
    end
  end.

(** The passes a handler may still make, plus one. *)
Definition task_weight {T W : Type} (o : RetryOptions W) (t : Task T) : nat :=
  S (Z.to_nat (retries o + 1 - t_attempt t)).

Definition pool_measure {T R W : Type} (o : RetryOptions W) (s : PoolState T R W) : nat :=
  (sum_list_with (task_weight o) (active s)
   + length (queue s) * S (Z.to_nat (retries o + 1)))%nat.

Lemma withRetry_iteration_again {W R : Type} `{Runtime W}
    (fn : Async W R) (o : RetryOptions W) attempt lastError w attempt' e w' :
  withRetry_iteration fn o attempt lastError w = (IterAgain attempt' e, w') ->
  attempt' = (attempt + 1)%Z /\ (attempt + 1 <= retries o)%Z.
Proof.
  unfold withRetry_iteration. intros Hit.
  destruct (attempt <=? retries o)%Z eqn:Hle; [|discriminate].
  destruct (fn w) as [[r|err] w1]; [discriminate|].
  destruct (negb (shouldRetry o err)); [discriminate|].
  destruct (attempt + 1 >? retries o)%Z eqn:Hgt; [discriminate|].
  destruct (math_random _) as [rq w3]. inversion Hit; subst.
  apply Z.leb_le in Hle. split; [reflexivity|lia].
Qed.

Lemma refill_measure {T : Type} (K c : nat) (f : Task T -> nat)
    (q : list (T * nat)) (a : list (Task T)) q' a' :
  (forall x, f (start_task x) = K) ->
  refill c q a = (q', a') ->
  (sum_list_with f a' + length q' * K = sum_list_with f a + length q * K)%nat.
Proof.
  intros HK. revert a. induction q as [|x q IH]; intros a Hr; simpl in Hr.
  - inversion Hr; subst. reflexivity.
  - destruct (length a <? c)%nat.
    + apply IH in Hr. rewrite Hr, sum_list_with_app. simpl. rewrite HK. lia.
    + inversion Hr; subst. reflexivity.
Qed.

Lemma sum_list_delete {A : Type} (f : A -> nat) (a : list A) k t :
  a !! k = Some t ->
  (sum_list_with f (delete k a) + f t = sum_list_with f a)%nat.
Proof.
  revert k. induction a as [|x a IH]; intros [|k] Hk; simpl in *; try discriminate.
  - inversion Hk; subst. lia.
  - specialize (IH k Hk). lia.
Qed.

Lemma sum_list_insert {A : Type} (f : A -> nat) (a : list A) k t t' :
  a !! k = Some t ->
  (sum_list_with f (<[k := t']> a) + f t = sum_list_with f a + f t')%nat.
Proof.
  revert k. induction a as [|x a IH]; intros [|k] Hk; simpl in *; try discriminate.
  - inversion Hk; subst. lia.
  - specialize (IH k Hk). lia.
Qed.

Lemma pool_step_decreases {T R W : Type} `{Runtime W}
    (fn : T -> nat -> Async W R) (options : ProcessBatchOptions T R W)
    (total choice : nat) (s s' : PoolState T R W) :
  pool_step fn options total choice s = Some s' ->
  (pool_measure (retry options) s' < pool_measure (retry options) s)%nat.
Proof.
  unfold pool_step, pool_measure. intros Hs.
  destruct (refill _ (queue s) (active s)) as [q a] eqn:Hr.
  apply (refill_measure (S (Z.to_nat (retries (retry options) + 1))) _
           (task_weight (retry options))) in Hr;
    [|intros x; unfold task_weight, start_task; simpl; f_equal; f_equal; lia].
  rewrite <- Hr. clear Hr.
  destruct (a !! (choice mod length a)%nat) as [t|] eqn:Hk; [|discriminate].
  pose proof (sum_list_delete (task_weight (retry options)) _ _ _ Hk) as Hdel.
  assert (0 < task_weight (retry options) t)%nat as Hpos by (unfold task_weight; lia).
  destruct (withRetry_iteration _ _ _ _ _) as [[r|err|att e] w'] eqn:Hit.
  - destruct (onProgress options) as [cb|].
    + destruct (cb _ _ _ _) as [[u|err] w'']; inversion Hs; subst; simpl; lia.
    + inversion Hs; subst; simpl; lia.
  - inversion Hs; subst; simpl; lia.
  - apply withRetry_iteration_again in Hit as [-> Hle].
    inversion Hs; subst; simpl.
    pose proof (sum_list_insert (task_weight (retry options)) _ _ _
                  (mkTask (t_item t) (t_index t) (t_attempt t + 1) e) Hk) as Hins.
    unfold task_weight in *; simpl in *. lia.
Qed.

(** The pool runs until it is idle with nothing queued. *)
Equations? pool_run {T R W : Type} `{Runtime W}
    (fn : T -> nat -> Async W R) (options : ProcessBatchOptions T R W)
    (total : nat) (sched : nat -> nat) (step : nat) (s : PoolState T R W)
    : PoolState T R W
    by wf (pool_measure (retry options) s) lt :=
pool_run fn options total sched step s
    with inspect (pool_step fn options total (sched step) s) := {
  | exist _ None _ => s
  | exist _ (Some s') Hs => pool_run fn options total sched (S step) s' }.
Proof.
  eapply pool_step_decreases; eassumption.
Qed.

(** [items] with their indices, as [PromisePool.for(items)] hands them
    to the handler. *)
Definition indexed {T : Type} (items : list T) : list (T * nat) :=
  zip items (seq 0 (length items)).

(** [processBatch(items, fn, options)]; [sched] is the order in which
    the event loop resumes the running handlers. *)
Definition processBatch {T R W : Type} `{Runtime W}
    (items : list T) (fn : T -> nat -> Async W R)
    (options : ProcessBatchOptions T R W) (sched : nat -> nat)
    : Async W (BatchOutcome R) :=
  fun w =>
  let completed := 0%nat in
  let total := length items in
  let allErrors : list JsError := [] in
  if (concurrency options <? 1)%Z
  then (Throw (mkJsError "ValidationError"
                "concurrency must be a number, 1 or up" None None None), w)
  else
    let s := pool_run fn options total sched 0
               (mkPoolState (indexed items) [] [] allErrors completed w) in
    let errors : list JsError := [] in
    let finalErrors := (Retry.allErrors s ++ errors)%list in
    (Ok (mkBatchOutcome (results s) finalErrors), world s).

End Retry.

(** ** Regular expressions, as far as the link patterns use them *)
Module Regex.

(** The patterns of the sources are built from literal text, character
    classes, sequence, alternation, the greedy [?], greedy [*] and [+] on
    a single character class, and one capture group.  Matching is the
    backtracking search of JavaScript: leftmost start, first alternative
    first, longest repetition first. *)
Inductive re : Type :=
| Lit (s : string)
| Cls (p : ascii -> bool)
| Seq (a b : re)
| Alt (a b : re)
| Opt (a : re)
| Star (p : ascii -> bool)
| Plus (p : ascii -> bool)
| Group (a : re).

(** The text captured by group 1, if the group took part in the match. *)
Abbreviation Captures := (option string) (only parsing).

(** Strip the literal [l] from the front of [s]. *)
Fixpoint lit (l s : string) : option string :=
  match l with
  | EmptyString => Some s
  | String a l' =>
    match s with
    | EmptyString => None
    | String b s' => if Ascii.eqb a b then lit l' s' else None
    end
  end.

(** Greedy repetition of one character class, then the continuation. *)
Fixpoint star {A : Type} (p : ascii -> bool) (s : string)
    (k : string -> option A) : option A :=
  match s with
  | EmptyString => k s
  | String c s' =>
    if p c then
      match star p s' k with
      | Some r => Some r
      | None => k s
      end
    else k s
  end.

Fixpoint m (r : re) (s : string) (cap : Captures)
    (k : string -> Captures -> option Captures) : option Captures :=
  match r with
  | Lit l => match lit l s with Some s' => k s' cap | None => None end
  | Cls p =>
    match s with
    | EmptyString => None
    | String c s' => if p c then k s' cap else None
    end
  | Seq a b => m a s cap (fun s' cap' => m b s' cap' k)
  | Alt a b =>
    match m a s cap k with
    | Some res => Some res
    | None => m b s cap k
    end
  | Opt a =>
    match m a s cap k with
    | Some res => Some res
    | None => k s cap
    end
  | Star p => star p s (fun s' => k s' cap)
  | Plus p =>
    match s with
    | EmptyString => None
    | String c s' => if p c then star p s' (fun s'' => k s'' cap) else None
    end
  | Group a =>
    m a s cap (fun s' _ => k s' (Some (substring 0 (String.length s - String.length s') s)))
  end.

(** A match that starts at the first character of [s]. *)
Definition match_here (r : re) (s : string) : option Captures :=
  m r s None (fun _ cap => Some cap).

(** [s.match(r)] for a pattern without the [g] flag: the captures of the
    leftmost match. *)
Fixpoint search (r : re) (s : string) : option Captures :=
  match match_here r s with
  | Some cap => Some cap
  | None =>
    match s with
    | EmptyString => None
    | String _ s' => search r s'
    end
  end.

(** [r.test(s)] *)
Definition test (r : re) (s : string) : bool :=
  match search r s with Some _ => true | None => false end.

(** [match && match[1]] as a value: the non-empty text of group 1. *)
Definition group1 (r : re) (s : string) : option string :=
  match search r s with
  | Some (Some g) => if String.eqb g "" then None else Some g
  | _ => None
  end.

Fixpoint seqs (l : list re) : re :=
  match l with
  | [] => Lit ""
  | [r] => r
  | r :: l' => Seq r (seqs l')
  end.

Definition in_range (lo hi : nat) (c : ascii) : bool :=
  let n := nat_of_ascii c in (lo <=? n)%nat && (n <=? hi)%nat.

(** [\d] *)
Definition digit (c : ascii) : bool := in_range 48 57 c.

(** [.]: any character but a line terminator. *)
Definition dot (c : ascii) : bool :=
  negb (Nat.eqb (nat_of_ascii c) 10 || Nat.eqb (nat_of_ascii c) 13).

(** [[a-zA-Z0-9_-]] *)
Definition short_code (c : ascii) : bool :=
  in_range 97 122 c || in_range 65 90 c || in_range 48 57 c
  || Ascii.eqb c "_" || Ascii.eqb c "-".

(** [[^&]] *)
Definition not_amp (c : ascii) : bool := negb (Ascii.eqb c "&").

(** [[^?/]] *)
Definition not_query_or_slash (c : ascii) : bool :=
  negb (Ascii.eqb c "?" || Ascii.eqb c "/").

End Regex.

(** ** Built-ins of the platform that the code calls *)
Module Platform.

(** [new URL(url).searchParams.get(key)]: [None] when the constructor
    throws, [Some None] when the parameter is absent.
    [new URLSearchParams(params).toString()]. *)
Class Platform := mkPlatform {
  url_searchParams_get : string -> string -> option (option string);
  urlSearchParams_toString : list (string * string) -> string
}.

(** The network as the code sees it through [enhancedFetch] and
    [getJson]: the final [response.url] of a request that followed
    redirects. *)
Class Network (W : Type) := mkNetwork {
  enhancedFetch_url : string -> list (string * string) -> Async W string
}.

End Platform.
Import Platform.

(** ** src/parser/link-patterns.ts *)
Module LinkPatterns.
Import Regex.

Record LinkPattern := mkLinkPattern {
  pname : string;
  pattern : re;
  needsRedirect : bool
}.

(** [https?:\/\/(?:www\.)?] *)
Definition scheme_www : list re :=
  [Lit "http"; Opt (Lit "s"); Lit "://"; Opt (Lit "www.")].

Definition DOUYIN_LINK_PATTERNS : list LinkPattern :=
  [ mkLinkPattern "standard"
      (seqs (scheme_www ++ [Lit "douyin.com/video/"; Group (Plus digit)]))
      false;
    mkLinkPattern "short"
      (seqs [Lit "http"; Opt (Lit "s"); Lit "://v.douyin.com/";
             Group (Plus short_code); Opt (Lit "/")])
      true;
    mkLinkPattern "mobile"
      (seqs (scheme_www ++ [Lit "douyin.com/share/video/"; Group (Plus digit)]))
      true;
    mkLinkPattern "note"
      (seqs (scheme_www ++ [Lit "douyin.com/note/"; Group (Plus digit)]))
      true;
    mkLinkPattern "discover"
      (seqs (scheme_www ++ [Lit "douyin.com/discover?"; Star dot;
                            Lit "modal_id="; Group (Plus digit)]))
      true;
    mkLinkPattern "webapp"
      (seqs (scheme_www ++ [Lit "douyin.com/webapp/"; Group (Plus digit)]))
      true;
    mkLinkPattern "mobile-param"
      (seqs (scheme_www ++ [Alt (Lit "douyin") (Lit "iesdouyin"); Lit ".com/";
                            Star dot; Lit "/"; Star dot; Lit "?"; Star dot;
                            Alt (Lit "video_id") (Lit "vid"); Lit "=";
                            Group (Plus not_amp)]))
      true ].

(** [getLinkType(url)] *)
Definition getLinkType (url : string) : option LinkPattern :=
  find (fun pattern => test (pattern.(LinkPatterns.pattern)) url) DOUYIN_LINK_PATTERNS.

(** The [for] loop of [extractVideoId]. *)
Fixpoint first_group1 (patterns : list LinkPattern) (url : string) : option string :=
  match patterns with
  | [] => None
  | pattern :: rest =>
    match group1 (pattern.(LinkPatterns.pattern)) url with
    | Some videoId => Some videoId
    | None => first_group1 rest url
    end
  end.

(** [extractVideoId(url)] *)
Definition extractVideoId `{Platform} (url : string) : option string :=
  match first_group1 DOUYIN_LINK_PATTERNS url with
  | Some videoId => Some videoId
  | None =>
    match url_searchParams_get url "vid" with
    | Some (Some videoId) => if String.eqb videoId "" then None else Some videoId
    | _ => None
    end
  end.

End LinkPatterns.

(** ** src/parser/resolve-links.ts *)
Module ResolveLinks.
Import Retry LinkPatterns.

Inductive LinkKind : Type := video | user | unknown.

Record ParseResult := mkParseResult {
  id : string;
  standardUrl : string;
  originalUrl : string;
  type : LinkKind
}.

(** [Pick<ParseOptions, 'userAgent' | 'retries'>] *)
Record ParseOptions := mkParseOptions {
  userAgent : option string;
  opt_retries : option Z
}.

Definition createStandardUrl (videoId : string) : string :=
  "https://www.douyin.com/video/" ++ videoId.

Definition DEFAULT_USER_AGENT : string :=
  "Mozilla/5.0 (Windows NT 10.0; Win64; x64) AppleWebKit/537.36 (KHTML, like Gecko) Chrome/125.0.0.0 Safari/537.36".

(** [userAgent || DEFAULT]: an empty string is falsy. *)
Definition request_headers (options : ParseOptions) : list (string * string) :=
  [("User-Agent",
    match userAgent options with
    | Some ua => if String.eqb ua "" then DEFAULT_USER_AGENT else ua
    | None => DEFAULT_USER_AGENT
    end)].

(** [resolveShortUrl(shortUrl, options)] *)
Definition resolveShortUrl {W : Type} `{Runtime W} `{Network W} `{Platform}
    (shortUrl : string) (options : ParseOptions) : W -> option string * W :=
  fun w =>
  let retries := default 3%Z (opt_retries options) in
  match withRetry (enhancedFetch_url shortUrl (request_headers options))
          (default_with_retries retries) w with
  | (Throw _, w1) => (None, w1)
  | (Ok finalUrl, w1) =>
    match extractVideoId finalUrl with
    | Some videoId => (Some (createStandardUrl videoId), w1)
    | None =>
      if startsWith finalUrl "https://www.iesdouyin.com/share/video/" then
        match enhancedFetch_url shortUrl (request_headers options) w1 with
        | (Ok url, w2) => (Some url, w2)
        | (Throw _, w2) => (None, w2)
        end
      else (None, w1)
    end
  end.

(** The mapping of the pattern name to [ParseResult.type]. *)
Definition result_type (finalLinkType : option LinkPattern) : LinkKind :=
  match finalLinkType with
  | Some p => if String.eqb (pname p) "standard" then video else unknown
  | None => unknown
  end.

(** [resolveLink(url, options)] *)
Definition resolveLink {W : Type} `{Runtime W} `{Network W} `{Platform}
    (url : string) (options : ParseOptions) : W -> option ParseResult * W :=
  fun w =>
  match getLinkType url with
  | None => (None, w)
  | Some linkType =>
    if needsRedirect linkType then
      match resolveShortUrl url options w with
      | (None, w1) => (None, w1)
      | (Some standardUrl, w1) =>
        match extractVideoId standardUrl with
        | None => (None, w1)
        | Some videoId =>
          let finalLinkType := getLinkType standardUrl in
          (Some (mkParseResult videoId standardUrl url (result_type finalLinkType)), w1)
        end
      end
    else
      match extractVideoId url with
      | None => (None, w)
      | Some videoId =>
        let standardUrl := createStandardUrl videoId in
        let finalLinkType := getLinkType standardUrl in
        (Some (mkParseResult videoId standardUrl url (result_type finalLinkType)), w)
      end
  end.

End ResolveLinks.

(** ** src/info/user.ts *)
Module User.

(** The [for (const url of urlList)] loop of [getOfficialVideoUrl]. *)
Fixpoint first_official (urlList : list string) : option string :=
  match urlList with
  | [] => None
  | url :: rest =>
    if includes url "douyin.com/aweme/v1/play" then Some url
    else first_official rest
  end.

(** [getOfficialVideoUrl(urlList)]; [None] is [undefined]. *)
Definition getOfficialVideoUrl (urlList : option (list string)) : string :=
  match urlList with
  | None => ""
  | Some [] => ""
  | Some (url0 :: rest) =>
    match first_official (url0 :: rest) with
    | Some url => url
    | None => url0
    end
  end.

(** An item of [aweme_list]; an absent optional field is [None]. *)
Record AwemeItem := mkAwemeItem {
  aweme_id : string;
  desc : string;
  create_time : Z;
  url_list : option (list string);
  author_sec_uid : option string;
  author_uid : option string;
  author_nickname : option string;
  play_count : option Z;
  digg_count : option Z;
  comment_count : option Z;
  share_count : option Z
}.

Record UserVideoItem := mkUserVideoItem {
  vid : string;
  description : string;
  createTime : Z;
  videoPlayUrl : string;
  author_id : string;
  nickname : string;
  playCount : option Z;
  likeCount : option Z;
  commentCount : option Z;
  shareCount : option Z
}.

(** The JSON body of a listing response.  [aweme_list] is [None] when
    the field is missing or is not an array. *)
Record ApiResponse := mkApiResponse {
  aweme_list : option (list AwemeItem);
  status_code : option Z;
  status_msg : option string;
  max_cursor : Z;
  has_more : Z;
  total : option Z
}.

(** [getJson(fullUrl, { headers })] of src/utils/fetch.ts. *)
Class JsonApi (W : Type) := mkJsonApi {
  getJson : string -> list (string * string) -> Async W ApiResponse
}.

Record Page := mkPage {
  videos : list UserVideoItem;
  nextCursor : Z;
  hasMore : bool;
  page_total : option Z
}.

(** [a || b] on optional strings: the first that is present and not empty. *)
Definition truthy (s : option string) : option string :=
  match s with
  | Some v => if String.eqb v "" then None else Some v
  | None => None
  end.

Definition USER_POST_API : string := "https://www.douyin.com/aweme/v1/web/aweme/post/".
Definition USER_FAVORITE_API : string := "https://www.douyin.com/aweme/v1/web/aweme/favorite/".

(** [douyinApiGet(url, params, { headers })] *)
Definition douyinApiGet {W : Type} `{JsonApi W} `{Platform}
    (url : string) (params headers : list (string * string)) : Async W ApiResponse :=
  let queryString := urlSearchParams_toString params in
  let fullUrl := url ++ (if includes url "?" then "&" else "?") ++ queryString in
  getJson fullUrl headers.

(** The callback of [response.aweme_list.map]. *)
Definition to_video (item : AwemeItem) : UserVideoItem :=
  let urlList := url_list item in
  let videoPlayUrl := getOfficialVideoUrl urlList in
  mkUserVideoItem (aweme_id item) (desc item) (create_time item) videoPlayUrl
    (default "" (match truthy (author_sec_uid item) with
                 | Some v => Some v
                 | None => truthy (author_uid item)
                 end))
    (default "未知作者" (truthy (author_nickname item)))
    (play_count item) (digg_count item) (comment_count item) (share_count item).

(** The [catch] block of the fetcher in [fetchUserVideoPage]. *)
Definition page_catch {W : Type} (error : JsError) (w : W) : Outcome Page * W :=
  let statusCode :=
    match response error with
    | Some resp => status resp
    | None => None
    end in
  let message := message error in
  if match statusCode with Some c => (c =? 403)%Z | None => false end
     || includes message "403"
  then (Ok (mkPage [] 0 false None), w)
  else (Throw error, w).

Definition page_params (secUserId : string) (cursor : Z) : list (string * string) :=
  [("sec_user_id", secUserId); ("count", "20"); ("max_cursor", string_of_Z cursor);
   ("aid", "6383"); ("version_code", "170400"); ("device_platform", "webapp");
   ("cookie_enabled", "true")].

Definition page_headers (apiUrl secUserId cookie : string) : list (string * string) :=
  [("Cookie", cookie);
   ("Referer",
    if includes apiUrl "favorite"
    then "https://www.douyin.com/user/" ++ secUserId ++ "?showTab=like"
    else "https://www.douyin.com/user/" ++ secUserId)].

(** The fetcher that [fetchUserVideoPage] hands to [fetchWithRetry]. *)
Definition page_fetcher {W : Type} `{JsonApi W} `{Platform}
    (apiUrl secUserId : string) (cursor : Z) (cookie : string) : Async W Page :=
  fun w =>
  match douyinApiGet apiUrl (page_params secUserId cursor)
          (page_headers apiUrl secUserId cookie) w with
  | (Throw error, w1) => page_catch error w1
  | (Ok response, w1) =>
    match aweme_list response with
    | None => page_catch (newError "獲取用戶影片列表失敗，響應數據格式異常") w1
    | Some list =>
      match status_code response with
      | Some c =>
        if negb (c =? 0)%Z
        then page_catch
               (newError ("獲取用戶影片失敗，狀態碼: " ++ string_of_Z c ++ ", 信息: " ++
                          default "未知錯誤" (truthy (status_msg response)))) w1
        else (Ok (mkPage (map to_video list) (max_cursor response)
                    (has_more response =? 1)%Z (total response)), w1)
      | None =>
        (Ok (mkPage (map to_video list) (max_cursor response)
               (has_more response =? 1)%Z (total response)), w1)
      end
    end
  end.

(** [fetchUserVideoPage(apiUrl, secUserId, cursor, cookie)] *)
Definition fetchUserVideoPage {W : Type} `{Runtime W} `{JsonApi W} `{Platform}
    (apiUrl secUserId : string) (cursor : Z) (cookie : string) : Async W Page :=
  InfoErrorHandler.fetchWithRetry (page_fetcher apiUrl secUserId cursor cookie).

(** [extractSecUserId(userUrl)] *)
Definition extractSecUserId `{Platform} (userUrl : string) : option string :=
  match url_searchParams_get userUrl "sec_user_id" with
  | None => None
  | Some secUid =>
    match truthy secUid with
    | Some v => Some v
    | None =>
      Regex.group1 (Regex.Seq (Regex.Lit "/user/")
                      (Regex.Group (Regex.Plus Regex.not_query_or_slash))) userUrl
    end
  end.

Definition is_space (c : ascii) : bool :=
  let n := nat_of_ascii c in
  Nat.eqb n 32 || ((9 <=? n)%nat && (n <=? 13)%nat).

(** [s.trim() === ''] *)
Fixpoint trims_to_empty (s : string) : bool :=
  match s with
  | EmptyString => true
  | String c s' => is_space c && trims_to_empty s'
  end.

Record UserVideosOptions (W : Type) := mkUserVideosOptions {
  onProgress : option (nat -> option Z -> Async W unit)
}.
Arguments mkUserVideosOptions {W}.
Arguments onProgress {W}.

(** A loop that may go on for ever is run for a number of passes:
    [Running] is the world reached when the passes are used up and the
    loop has not left. *)
Inductive Run (A W : Type) : Type :=
| Running (w : W)
| Settled (o : Outcome A) (w : W).
Arguments Running {A W} w.
Arguments Settled {A W} o w.

(** The [while] loop of [fetchUserVideos], inside its [try]. *)
Fixpoint fetchUserVideos_loop {W : Type} `{Runtime W} `{JsonApi W} `{Platform}
    (passes : nat) (apiUrl secUserId cookie : string) (limit : Z)
    (options : UserVideosOptions W)
    (results : list UserVideoItem) (cursor : Z) (hasMore : bool)
    (totalEstimated : option Z) (w : W) : Run (list UserVideoItem) W :=
  if hasMore && ((limit =? 0)%Z || (Z.of_nat (length results) <? limit)%Z) then
    match passes with
    | O => Running w
    | S passes' =>
      match fetchUserVideoPage apiUrl secUserId cursor cookie w with
      | (Throw error, w1) => Settled (Throw error) w1
      | (Ok page, w1) =>
        let totalEstimated :=
          match page_total page with
          | Some t => Some t
          | None => totalEstimated
          end in
        let results := (results ++ videos page)%list in
        match match onProgress options with
              | Some cb => cb (length results) totalEstimated w1
              | None => (Ok tt, w1)
              end with
        | (Throw error, w2) => Settled (Throw error) w2
        | (Ok _, w2) =>
          let cursor := nextCursor page in
          let hasMore := User.hasMore page in
          if (limit >? 0)%Z && (Z.of_nat (length results) >=? limit)%Z
          then Settled (Ok (take (Z.to_nat limit) results)) w2
          else if negb hasMore then Settled (Ok results) w2
          else
            let w3 := delay (500 # 1) w2 in
            fetchUserVideos_loop passes' apiUrl secUserId cookie limit options
              results cursor hasMore totalEstimated w3
        end
      end
    end
  else Settled (Ok results) w.

(** [fetchUserVideos(userUrl, cookie, limit, options)] *)
Definition fetchUserVideos {W : Type} `{Runtime W} `{JsonApi W} `{Platform}
    (passes : nat) (userUrl cookie : string) (limit : Z)
    (options : UserVideosOptions W) (w : W) : Run (list UserVideoItem) W :=
  if String.eqb cookie "" || trims_to_empty cookie
  then Settled (Throw (newError "需要有效的抖音 Cookie 才能獲取用戶影片")) w
  else
    match extractSecUserId userUrl with
    | None => Settled (Throw (newError ("無法從 URL 提取用戶 ID: " ++ userUrl))) w
    | Some secUserId =>
      let isLikedVideos := includes userUrl "/user" && includes userUrl "showTab=like" in
      let apiUrl := if isLikedVideos then USER_FAVORITE_API else USER_POST_API in
      match fetchUserVideos_loop passes apiUrl secUserId cookie limit options
              [] 0 true None w with
      | Running w' => Running w'
      | Settled (Ok results) w' => Settled (Ok results) w'
      | Settled (Throw error) w' =>
        Settled (Throw (InfoErrorHandler.handleDouyinApiError error)) w'
      end
    end.

End User.

(** ** src/download/video-downloader.ts *)
Module VideoDownloader.
Import Retry DownloadErrorHandler.

Record VideoInfo := mkVideoInfo {
  vi_id : string;
  title : string;
  videoPlayUrl : string;
  userName : string;
  releaseDate : string
}.

Inductive StatKind : Type := IsDirectory | IsFile | IsOther.

(** What [downloadVideo] asks of its collaborators: [fs-extra], [path],
    [formatOutputPath] of path-formatter.ts (which reads the disk with
    [statSync]), and [ensureDirectoryExists] and [downloadFile] of
    src/utils/file.ts.  [fs_stat] is [fs.stat(p).catch(() => null)];
    [downloadFile] is given the url, the destination, the headers, the
    timeout and the progress callback. *)
Class FileSystem (W : Type) := mkFileSystem {
  fs_stat : string -> W -> option StatKind;
  pathExists : string -> W -> bool;
  unlink : string -> Async W unit;
  ensureDirectoryExists : string -> Async W unit;
  downloadFile : string -> string -> list (string * string) -> Z ->
                 (Z -> option Z -> Async W unit) -> Async W string;
  formatOutputPath : VideoInfo -> string -> bool -> string -> W -> string;
  path_dirname : string -> string;
  path_sep : string
}.

Record VideoDownloadOptions (W : Type) := mkVideoDownloadOptions {
  retries : option Z;
  timeout : option Z;
  headers : list (string * string);
  onProgress : option (Z -> Async W unit);
  onFileProgress : option (Z -> Async W unit);
  checkExisting : option bool;
  overwrite : option bool;
  useSubfolders : option bool;
  filenameTemplate : option string
}.
Arguments mkVideoDownloadOptions {W}.
Arguments retries {W}.
Arguments timeout {W}.
Arguments headers {W}.
Arguments onProgress {W}.
Arguments onFileProgress {W}.
Arguments checkExisting {W}.
Arguments overwrite {W}.
Arguments useSubfolders {W}.
Arguments filenameTemplate {W}.

(** [String.prototype.endsWith] *)
Definition endsWith (s suffix : string) : bool :=
  let n := String.length s in
  let k := String.length suffix in
  (k <=? n)%nat && String.eqb (substring (n - k) k s) suffix.

(** The block that settles [finalPath] from [destPath]. *)
Definition determine_finalPath {W : Type} `{FileSystem W}
    (videoInfo : VideoInfo) (destPath : string)
    (useSubfolders : bool) (filenameTemplate : string) (w : W) : string :=
  let destPathStats := fs_stat destPath w in
  match destPathStats with
  | Some IsDirectory =>
    formatOutputPath videoInfo destPath useSubfolders filenameTemplate w
  | Some IsFile => destPath
  | Some IsOther =>
    formatOutputPath videoInfo destPath useSubfolders filenameTemplate w
  | None =>
    if endsWith destPath path_sep || endsWith destPath "/"
    then formatOutputPath videoInfo destPath useSubfolders filenameTemplate w
    else
      let parentDir := path_dirname destPath in
      let parentDirExists :=
        if negb (String.eqb parentDir "") && negb (String.eqb parentDir destPath)
        then match fs_stat parentDir w with
             | Some IsDirectory => true
             | _ => false
             end
        else String.eqb parentDir (path_dirname parentDir) in
      if parentDirExists then destPath
      else formatOutputPath videoInfo destPath useSubfolders filenameTemplate w
  end.

(** [Math.round((downloaded / total) * 100)] for a positive total. *)
Definition percent (downloaded total : Z) : Z :=
  ((200 * downloaded + total) / (2 * total))%Z.

(** The [onProgress] callback handed to [downloadFile]. *)
Definition file_progress {W : Type} (options : VideoDownloadOptions W)
    (downloaded : Z) (total : option Z) : Async W unit :=
  fun w =>
  let progress :=
    match total with
    | Some t => if (t >? 0)%Z then percent downloaded t else 0%Z
    | None => 0%Z
    end in
  match onFileProgress options with
  | Some fileProgressCallback => fileProgressCallback progress w
  | None =>
    match onProgress options with
    | Some fileProgressCallback => fileProgressCallback progress w
    | None => (Ok tt, w)
    end
  end.

(** The options handed to [withRetry]. *)
Definition download_retry_options {W : Type} (retries : Z) : RetryOptions W :=
  mkRetryOptions retries
    (minDelay (@DEFAULT_RETRY_OPTIONS W)) (maxDelay (@DEFAULT_RETRY_OPTIONS W))
    (factor (@DEFAULT_RETRY_OPTIONS W))
    (fun _ _ w => w)
    (fun error =>
       match download error with
       | Some info => retryable info
       | None => true
       end).

(** The function that [downloadVideo] hands to [withRetry]: one call of
    [downloadFile], then [return true]. *)
Definition download_attempt {W : Type} `{FileSystem W}
    (url finalPath : string) (downloadHeaders : list (string * string))
    (timeout : Z) (options : VideoDownloadOptions W) : Async W bool :=
  fun w =>
  match downloadFile url finalPath downloadHeaders timeout (file_progress options) w with
  | (Ok _, w') => (Ok true, w')
  | (Throw error, w') => (Throw error, w')
  end.

(** The [try] block of [downloadVideo]: its outcome, with the value that
    [finalPath] holds when the block is left. *)
Definition downloadVideo_try {W : Type} `{Runtime W} `{FileSystem W}
    (videoInfo : VideoInfo) (destPath : string)
    (options : VideoDownloadOptions W) (w : W) : Outcome string * string * W :=
  let retries := default 3%Z (retries options) in
  let timeout := default 60000%Z (timeout options) in
  let checkExisting := default true (checkExisting options) in
  let overwrite := default false (overwrite options) in
  let useSubfolders := default true (useSubfolders options) in
  let filenameTemplate := default "{date}-{title}" (filenameTemplate options) in
  if String.eqb (videoPlayUrl videoInfo) "" then
    (Throw (newDownloadError ("影片 " ++ vi_id videoInfo ++ " 無有效的播放 URL")
              (vi_id videoInfo) "INVALID_URL" false), "", w)
  else
    let finalPath := determine_finalPath videoInfo destPath useSubfolders filenameTemplate w in
    match ensureDirectoryExists (path_dirname finalPath) w with
    | (Throw error, w1) => (Throw error, finalPath, w1)
    | (Ok _, w1) =>
      if checkExisting && pathExists finalPath w1 && negb overwrite
      then (Ok finalPath, finalPath, w1)
      else
        let downloadHeaders :=
          ("Referer", "https://www.douyin.com/video/" ++ vi_id videoInfo)
          :: headers options in
        match withRetry
                (download_attempt (videoPlayUrl videoInfo) finalPath
                   downloadHeaders timeout options)
                (download_retry_options retries) w1 with
        | (Ok _, w2) => (Ok finalPath, finalPath, w2)
        | (Throw error, w2) => (Throw error, finalPath, w2)
        end
    end.

(** The inner [try] of the [catch] block: delete what was written; a
    failure to delete is logged and otherwise ignored. *)
Definition remove_partial {W : Type} `{FileSystem W} (finalPath : string) (w : W) : W :=
  if pathExists finalPath w
  then match unlink finalPath w with
       | (Ok _, w') => w'
       | (Throw unlinkError, w') => w'
       end
  else w.

(** [videoInfo.videoPlayUrl || videoInfo.id] *)
Definition url_or_id (videoInfo : VideoInfo) : string :=
  if String.eqb (videoPlayUrl videoInfo) "" then vi_id videoInfo
  else videoPlayUrl videoInfo.

(** [{ ...videoInfo, videoPlayUrl: nextUrl }] *)
Definition with_url (videoInfo : VideoInfo) (nextUrl : string) : VideoInfo :=
  mkVideoInfo (vi_id videoInfo) (title videoInfo) nextUrl
    (userName videoInfo) (releaseDate videoInfo).

(** [downloadVideo(videoInfo, destPath, options, downloadUrls)]; an
    undefined [downloadUrls] is the empty list. *)
Fixpoint downloadVideo {W : Type} `{Runtime W} `{FileSystem W}
    (videoInfo : VideoInfo) (destPath : string)
    (options : VideoDownloadOptions W) (downloadUrls : list string)
    (w : W) : Outcome string * W :=
  match downloadVideo_try videoInfo destPath options w with
  | (Ok finalPath, _, w1) => (Ok finalPath, w1)
  | (Throw error, finalPath, w1) =>
    let errorMessage := getDownloadErrorMessage error (url_or_id videoInfo) in
    let w2 := remove_partial finalPath w1 in
    match downloadUrls with
    | nextUrl :: remainingUrls =>
      let newVideoInfo := with_url videoInfo nextUrl in
      downloadVideo newVideoInfo destPath options remainingUrls w2
    | [] =>
      (Throw (newDownloadError errorMessage (vi_id videoInfo) "DOWNLOAD_FAILED" false), w2)
    end
  end.

End VideoDownloader.

(** ** Concrete worlds on which the code is run in the examples *)
Module Scenario.
Import Retry.

(** A world that only counts the delays it has waited; [Math.random()]
    returns one half, so that the jitter factor is exactly one. *)
#[export] Instance counting_runtime : Runtime nat :=
  mkRuntime nat (fun w => ((1 # 2)%Q, w)) (fun _ w => S w).

(** A worker that fails on the item [bad] and returns any other item. *)
Definition picky_worker : string -> nat -> Async nat string :=
  fun x _ w => if String.eqb x "bad" then (Throw (newError "malformed URL"), w)
               else (Ok x, w).

Definition picky_outcome : string -> nat -> Outcome string :=
  fun x _ => if String.eqb x "bad" then Throw (newError "malformed URL") else Ok x.

Definition default_batch_options : ProcessBatchOptions string string nat :=
  mkProcessBatchOptions 3 DEFAULT_RETRY_OPTIONS None.

(** A worker that fails for good on the item [bad], fails on the item
    [flaky] until two delays have been waited, and returns any other
    item. *)
Definition flaky_worker : string -> nat -> Async nat string :=
  fun x _ w =>
  if String.eqb x "bad" then (Throw (newError "malformed URL"), w)
  else if String.eqb x "flaky" && (w <? 2)%nat then (Throw (newError "network timeout"), w)
  else (Ok x, w).

(** A world for network code: the requests made so far and the delays
    waited. *)
Record NetWorld := mkNetWorld {
  requests : nat;
  waited : nat
}.

#[export] Instance net_runtime : Runtime NetWorld :=
  mkRuntime NetWorld (fun w => ((1 # 2)%Q, w))
    (fun _ w => mkNetWorld (requests w) (S (waited w))).

(** A network that answers the n-th request with the n-th entry of a
    script, and fails once the script is exhausted. *)
Definition scripted_network (script : list (Outcome string)) : Network NetWorld :=
  mkNetwork NetWorld (fun _ _ w =>
    (nth (requests w) script (Throw (newError "network unreachable")),
     mkNetWorld (S (requests w)) (waited w))).

(** A plain reader of query strings: the text after the first [?], cut
    at [&], each piece cut at its first [=]. *)
Fixpoint split_at (sep : ascii) (s : string) : string * option string :=
  match s with
  | EmptyString => (EmptyString, None)
  | String c s' =>
    if Ascii.eqb c sep then (EmptyString, Some s')
    else let '(a, b) := split_at sep s' in (String c a, b)
  end.

Fixpoint query_get (fuel : nat) (query key : string) : option string :=
  match fuel with
  | O => None
  | S fuel' =>
    let '(piece, rest) := split_at "&" query in
    let '(k, v) := split_at "=" piece in
    if String.eqb k key then Some (default EmptyString v)
    else match rest with
         | Some q => query_get fuel' q key
         | None => None
         end
  end.

#[export] Instance plain_platform : Platform :=
  mkPlatform
    (fun url key =>
       match snd (split_at "?" url) with
       | Some q => Some (query_get (S (String.length q)) q key)
       | None => Some None
       end)
    (fun _ => EmptyString).

(** A listing API that answers the n-th request with [script n]. *)
Definition scripted_api (script : nat -> Outcome User.ApiResponse) : User.JsonApi NetWorld :=
  User.mkJsonApi NetWorld (fun _ _ w =>
    (script (requests w), mkNetWorld (S (requests w)) (waited w))).

Definition sample_item (aweme_id : string) : User.AwemeItem :=
  User.mkAwemeItem aweme_id "clip" 1700000000
    (Some ["https://www.douyin.com/aweme/v1/play/?video_id=" ++ aweme_id])
    (Some "MS4wLjABAAAA") None (Some "author") None None None None.

(** A page that reports more data and hands back the cursor 0 that the
    request was made with. *)
Definition stuck_page : User.ApiResponse :=
  User.mkApiResponse (Some [sample_item "7123456789"]) (Some 0%Z) None 0 1 None.

(** An upstream whose every page is [stuck_page]. *)
Definition stuck_api : User.JsonApi NetWorld := scripted_api (fun _ => Ok stuck_page).

Definition good_page : User.ApiResponse :=
  User.mkApiResponse (Some [sample_item "7000000001"; sample_item "7000000002"])
    (Some 0%Z) None 1700000000000 1 (Some 40%Z).

(** A response body without an [aweme_list]. *)
Definition malformed_page : User.ApiResponse :=
  User.mkApiResponse None None None 0 0 None.

(** A first page of two items, then a malformed body. *)
Definition good_then_malformed : User.JsonApi NetWorld :=
  scripted_api (fun n => match n with O => Ok good_page | _ => Ok malformed_page end).

(** A first page of two items, then HTTP 403 from [enhancedFetch]. *)
Definition good_then_forbidden : User.JsonApi NetWorld :=
  scripted_api (fun n =>
    match n with
    | O => Ok good_page
    | _ => Throw (mkJsError "Error" "HTTP 錯誤 403 (Forbidden) for https://www.douyin.com/aweme/v1/web/aweme/post/: "
                    (Some 403%Z) None None)
    end).

(** A first page of two items, then a body that carries [status_code]
    403 and no [aweme_list]. *)
Definition good_then_forbidden_body : User.JsonApi NetWorld :=
  scripted_api (fun n =>
    match n with
    | O => Ok good_page
    | _ => Ok (User.mkApiResponse None (Some 403%Z) None 0 0 None)
    end).

(** A progress callback that leaves its mark: it waits as long as the
    count it is told. *)
Definition noting_options : User.UserVideosOptions NetWorld :=
  User.mkUserVideosOptions
    (Some (fun n _ w => (Ok tt, mkNetWorld (requests w) (waited w + n)))).

Definition profile_url : string := "https://www.douyin.com/user/MS4wLjABAAAA".

(** A short link whose redirect ends on an iesdouyin share page without
    an id in it; a second request for the same short link ends on the
    video page with a tracking parameter. *)
Definition share_then_video : list (Outcome string) :=
  [Ok "https://www.iesdouyin.com/share/video/7123456789/";
   Ok "https://www.douyin.com/video/7123456789?previous_page=app_code_link"].

(** A disk and a download server.  [files] and [dirs] are the paths that
    exist; a path in [locked] cannot be unlinked; [fetched] lists the urls
    that [downloadFile] was called with, in order. *)
Record DiskWorld := mkDiskWorld {
  files : gset string;
  dirs : gset string;
  locked : gset string;
  fetched : list string;
  slept : nat
}.

#[export] Instance disk_runtime : Runtime DiskWorld :=
  mkRuntime DiskWorld (fun w => ((1 # 2)%Q, w))
    (fun _ w => mkDiskWorld (files w) (dirs w) (locked w) (fetched w) (S (slept w))).

(** The text before the last [/] of a path; [.] when there is none. *)
Fixpoint dirname_aux (s : string) : option string :=
  match s with
  | EmptyString => None
  | String c s' =>
    match dirname_aux s' with
    | Some d => Some (String c d)
    | None => if Ascii.eqb c "/" then Some EmptyString else None
    end
  end.

Definition dirname (s : string) : string := default "." (dirname_aux s).

Definition count_url (url : string) (l : list string) : nat :=
  length (filter (fun u => u = url) l).

(** [serves url n]: whether the server completes the download of [url]
    when it has been asked for it [n] times before.  A download that
    fails leaves what it wrote at the destination. *)
Definition disk (serves : string -> nat -> bool) : VideoDownloader.FileSystem DiskWorld :=
  VideoDownloader.mkFileSystem DiskWorld
    (fun p w =>
       if bool_decide (p ∈ dirs w) then Some VideoDownloader.IsDirectory
       else if bool_decide (p ∈ files w) then Some VideoDownloader.IsFile
       else None)
    (fun p w => bool_decide (p ∈ files w ∪ dirs w))
    (fun p w =>
       if bool_decide (p ∈ locked w ∪ dirs w)
       then (Throw (newError ("EPERM: operation not permitted, unlink " ++ p)), w)
       else (Ok tt, mkDiskWorld (files w ∖ {[p]}) (dirs w) (locked w) (fetched w) (slept w)))
    (fun d w => (Ok tt, mkDiskWorld (files w) (dirs w ∪ {[d]}) (locked w) (fetched w) (slept w)))
    (fun url dest _ _ _ w =>
       let w' := mkDiskWorld (files w ∪ {[dest]}) (dirs w) (locked w)
                   (fetched w ++ [url]) (slept w) in
       if serves url (count_url url (fetched w)) then (Ok dest, w')
       else (Throw (newError "下載檔案失敗: HTTP 錯誤 503 (Service Unavailable)"), w'))
    (fun vi base _ _ _ => base ++ "/" ++ VideoDownloader.vi_id vi ++ ".mp4")
    dirname
    "/".

Definition primary_url : string := "https://cdn-a.example.com/aweme/v1/play/?video_id=v0200f".
Definition fallback_url : string := "https://cdn-b.example.com/aweme/v1/play/?video_id=v0200f".

Definition sample_video : VideoDownloader.VideoInfo :=
  VideoDownloader.mkVideoInfo "7123456789" "clip" primary_url "author" "2024-01-01".

Definition default_download_options : VideoDownloader.VideoDownloadOptions DiskWorld :=
  VideoDownloader.mkVideoDownloadOptions None None [] None None None None None None.

(** Servers: one on which no download completes, one on which only the
    fallback url completes, one on which the fallback url completes at
    the third request. *)
Definition serves_nothing : string -> nat -> bool := fun _ _ => false.
Definition serves_fallback : string -> nat -> bool :=
  fun url _ => String.eqb url fallback_url.
Definition serves_fallback_third_time : string -> nat -> bool :=
  fun url n => String.eqb url fallback_url && (2 <=? n)%nat.

(** What [downloadFile] throws on this server. *)
Definition error_503 : JsError :=
  newError "下載檔案失敗: HTTP 錯誤 503 (Service Unavailable)".

Definition options_with_retries (n : Z) : VideoDownloader.VideoDownloadOptions DiskWorld :=
  VideoDownloader.mkVideoDownloadOptions (Some n) None [] None None None None None None.

(** A disk with the directory [out] and nothing else. *)
Definition empty_disk : DiskWorld := mkDiskWorld ∅ {["out"]} ∅ [] 0.

End Scenario.
Import Scenario.

(** ** Counting calls

    To say how often a loop calls the function it is given, the function
    is run on a world paired with a counter that each call increments. *)
Module Counting.

(** The runtime leaves what is kept aside of the world alone. *)
#[export] Instance aside_runtime {W C : Type} `{Runtime W} : Runtime (W * C) :=
  mkRuntime (W * C)
    (fun wc => let '(r, w') := math_random (fst wc) in (r, (w', snd wc)))
    (fun d wc => (delay d (fst wc), snd wc)).

(** [fn], counting its calls. *)
Definition tick {W R : Type} (fn : Async W R) : Async (W * nat) R :=
  fun wc => let '(o, w') := fn (fst wc) in (o, (w', S (snd wc))).

(** A computation that is not counted. *)
Definition untick {W C R : Type} (fn : Async W R) : Async (W * C) R :=
  fun wc => let '(o, w') := fn (fst wc) in (o, (w', snd wc)).

(** [fn], writing [label] to a log of the calls made. *)
Definition note {W R : Type} (label : string) (fn : Async W R)
    : Async (W * list string) R :=
  fun wl => let '(o, w') := fn (fst wl) in (o, (w', (snd wl ++ [label])%list)).

Definition lift_options {W C : Type} (o : Retry.RetryOptions W)
    : Retry.RetryOptions (W * C) :=
  Retry.mkRetryOptions (Retry.retries o) (Retry.minDelay o) (Retry.maxDelay o)
    (Retry.factor o)
    (fun e a wc => (Retry.onRetry o e a (fst wc), snd wc))
    (Retry.shouldRetry o).

End Counting.

(** ** src/download/error-handler.ts: downloadWithRetry *)
Module DownloadRetry.
Import DownloadErrorHandler.

(** The [RetryOptions] of this file; [retries] is required. *)
Record RetryOptions (W : Type) := mkRetryOptions {
  retries : Z;
  minDelay : option Q;
  maxDelay : option Q;
  factor : option Q;
  onRetry : option (JsError -> Z -> W -> W);
  onProgress : option (Z -> Async W unit)
}.
Arguments mkRetryOptions {W}.
Arguments retries {W}.
Arguments minDelay {W}.
Arguments maxDelay {W}.
Arguments factor {W}.
Arguments onRetry {W}.
Arguments onProgress {W}.

(** [calculateDelay(attempt, options)] of this file, for the draw [r]. *)
Definition calculateDelay {W : Type} (attempt : Z) (options : RetryOptions W) (r : Q) : Q :=
  let minDelay := default (1000 # 1)%Q (minDelay options) in
  let maxDelay := default (30000 # 1)%Q (maxDelay options) in
  let factor := default (2 # 1)%Q (factor options) in
  let delay := (minDelay * Qpower factor (attempt - 1))%Q in
  let delay := (delay * ((8 # 10) + r * (4 # 10)))%Q in
  Qmin delay maxDelay.

(** [error instanceof DownloadError ? error.isRetryable() : isRetryableError(lastError)] *)
Definition retryable_error (error : JsError) : bool :=
  match download error with
  | Some info => retryable info
  | None => isRetryableError error
  end.

Inductive Pass (T : Type) : Type :=
| PassReturn (v : T)
| PassThrow (e : JsError)
| PassAgain (attempt : Z) (lastError : JsError).
Arguments PassReturn {T} v.
Arguments PassThrow {T} e.
Arguments PassAgain {T} attempt lastError.

(** One pass of the [while (attempt <= retries)] loop; [attempt] is the
    counter at the loop head, before [attempt++]. *)
Definition downloadWithRetry_pass {W T : Type} `{Runtime W}
    (downloadFn : option (Z -> Async W unit) -> Async W T)
    (options : RetryOptions W) (attempt : Z) (w : W) : Pass T * W :=
  let attempt := (attempt + 1)%Z in
  match downloadFn (onProgress options) w with
  | (Ok v, w1) => (PassReturn v, w1)
  | (Throw error, w1) =>
    let lastError := error in
    let isRetryable := retryable_error error in
    if (attempt >? retries options)%Z || negb isRetryable
    then (PassThrow lastError, w1)
    else
      let w2 := match onRetry options with
                | Some cb => cb lastError attempt w1
                | None => w1
                end in
      let '(r, w3) := math_random w2 in
      let delay := calculateDelay attempt options r in
      (PassAgain attempt lastError, Runtime.delay delay w3)
  end.

(** What [throw lastError!] throws when the loop body never ran: the
    value [undefined]. *)
Definition thrown_undefined : JsError := mkJsError "undefined" "" None None None.

Equations? downloadWithRetry_loop {W T : Type} `{Runtime W}
    (downloadFn : option (Z -> Async W unit) -> Async W T)
    (options : RetryOptions W) (attempt : Z) (lastError : option JsError) (w : W)
    : Outcome T * W
    by wf (Z.to_nat (retries options + 1 - attempt)) lt :=
downloadWithRetry_loop downloadFn options attempt lastError w
    with inspect (attempt <=? retries options)%Z := {
  | exist _ false _ => (Throw (default thrown_undefined lastError), w)
  | exist _ true Hle
      with inspect (downloadWithRetry_pass downloadFn options attempt w) := {
    | exist _ (PassReturn v, w') _ => (Ok v, w')
    | exist _ (PassThrow e, w') _ => (Throw e, w')
    | exist _ (PassAgain attempt' err, w') Hp =>
        downloadWithRetry_loop downloadFn options attempt' (Some err) w' } }.
Proof.
  unfold downloadWithRetry_pass in Hp.
  destruct (downloadFn (onProgress options) w) as [[v|err0] w1]; [discriminate|].
  destruct ((attempt + 1 >? retries options)%Z || negb (retryable_error err0));
    [discriminate|].
  destruct (math_random _) as [rq w3]. inversion Hp; subst.
  apply Z.leb_le in Hle. lia.
Qed.

(** [downloadWithRetry(downloadFn, url, options)]; the url is only logged. *)
Definition downloadWithRetry {W T : Type} `{Runtime W}
    (downloadFn : option (Z -> Async W unit) -> Async W T)
    (url : string) (options : RetryOptions W) : Async W T :=
  fun w => downloadWithRetry_loop downloadFn options 0 None w.

(** The options and the download function on a world that counts the
    calls of [downloadFn]; the loop always passes [options.onProgress]. *)
Definition counted_options {W : Type} (o : RetryOptions W) : RetryOptions (W * nat) :=
  mkRetryOptions (retries o) (minDelay o) (maxDelay o) (factor o)
    (option_map (fun cb e a (wc : W * nat) => (cb e a (fst wc), snd wc)) (onRetry o))
    (option_map (fun cb z => Counting.untick (cb z)) (onProgress o)).

Definition counted_downloadFn {W T : Type}
    (downloadFn : option (Z -> Async W unit) -> Async W T) (o : RetryOptions W)
    : option (Z -> Async (W * nat) unit) -> Async (W * nat) T :=
  fun _ => Counting.tick (downloadFn (onProgress o)).

End DownloadRetry.

(** ** src/utils/fetch.ts: enhancedFetch *)
Module UtilsFetch.

(** What the code reads of a [Response]: [text] is what [response.text()]
    settles to. *)
Record Response := mkResponse {
  ok : bool;
  r_status : Z;
  statusText : string;
  r_url : string;
  text : Outcome string
}.

(** The platform's [fetch(url, init)], with the abort signal of the
    timeout: a request that times out rejects with an [AbortError]. *)
Class RawFetch (W : Type) := mkRawFetch {
  fetch : string -> list (string * string) -> Async W Response
}.

(** The merged options: [timeout], [retries], [retryDelay] and headers. *)
Record FetchOptions := mkFetchOptions {
  timeout : Z;
  retries : Z;
  retryDelay : Q;
  headers : list (string * string)
}.

(** The error thrown for a response that is not ok. *)
Definition httpError (url : string) (response : Response) : JsError :=
  let errorText := match text response with Ok t => t | Throw _ => "" end in
  mkJsError "Error"
    ("HTTP 錯誤 " ++ string_of_Z (r_status response) ++ " (" ++ statusText response
     ++ ") for " ++ url ++ ": " ++ substring 0 200 errorText)
    (Some (r_status response)) None None.

Inductive Pass : Type :=
| PassReturn (response : Response)
| PassThrow (e : JsError)
| PassAgain (attempt : Z).

(** One pass of the [while (attempt <= retries)] loop; [attempt] is the
    counter at the loop head, before [attempt++]. *)
Definition enhancedFetch_pass {W : Type} `{Runtime W} `{RawFetch W}
    (url : string) (options : FetchOptions) (attempt : Z) (w : W) : Pass * W :=
  let attempt := (attempt + 1)%Z in
  let '(caught, w1) :=
    match fetch url (headers options) w with
    | (Ok response, w1) =>
      if negb (ok response) then (inr (httpError url response), w1)
      else (inl response, w1)
    | (Throw error, w1) => (inr error, w1)
    end in
  match caught with
  | inl response => (PassReturn response, w1)
  | inr err =>
    if (attempt >? retries options)%Z then (PassThrow err, w1)
    else
      let delayTime := (retryDelay options * Qpower (2 # 1) (attempt - 1))%Q in
      (PassAgain attempt, delay delayTime w1)
  end.

Equations? enhancedFetch_loop {W : Type} `{Runtime W} `{RawFetch W}
    (url : string) (options : FetchOptions) (attempt : Z) (w : W)
    : Outcome Response * W
    by wf (Z.to_nat (retries options + 1 - attempt)) lt :=
enhancedFetch_loop url options attempt w
    with inspect (attempt <=? retries options)%Z := {
  | exist _ false _ => (Throw (newError "請求失敗，達到最大重試次數"), w)
  | exist _ true Hle
      with inspect (enhancedFetch_pass url options attempt w) := {
    | exist _ (PassReturn response, w') _ => (Ok response, w')
    | exist _ (PassThrow e, w') _ => (Throw e, w')
    | exist _ (PassAgain attempt', w') Hp =>
        enhancedFetch_loop url options attempt' w' } }.
Proof.
  unfold enhancedFetch_pass in Hp.
  destruct (fetch url (headers options) w) as [[response|error] w1].
  - destruct (negb (ok response)).
    + destruct (attempt + 1 >? retries options)%Z; [discriminate|].
      inversion Hp; subst. apply Z.leb_le in Hle. lia.
    + discriminate.
  - destruct (attempt + 1 >? retries options)%Z; [discriminate|].
    inversion Hp; subst. apply Z.leb_le in Hle. lia.
Qed.

(** [enhancedFetch(url, options)], the options already merged with the
    defaults. *)
Definition enhancedFetch {W : Type} `{Runtime W} `{RawFetch W}
    (url : string) (options : FetchOptions) : Async W Response :=
  fun w => enhancedFetch_loop url options 0 w.

(** A world with a clock beside it: [delay] adds to the time waited,
    and [fetch] takes none. *)
Definition clocked_runtime {W : Type} `{Runtime W} : Runtime (W * Q) :=
  mkRuntime (W * Q)
    (fun wt => let '(r, w') := math_random (fst wt) in (r, (w', snd wt)))
    (fun d wt => (delay d (fst wt), (snd wt + d)%Q)).

Definition clocked_fetch {W : Type} `{RawFetch W} : RawFetch (W * Q) :=
  mkRawFetch (W * Q) (fun url hdrs => Counting.untick (fetch url hdrs)).

(** A [fetch] that counts its calls. *)
Definition counted_fetch {W : Type} `{RawFetch W} : RawFetch (W * nat) :=
  mkRawFetch (W * nat) (fun url hdrs => Counting.tick (fetch url hdrs)).

(** The value of the key [k] in an object written as a list. *)
Fixpoint header_of (k : string) (o : list (string * string)) : option string :=
  match o with
  | [] => None
  | (k', v) :: o' =>
    match header_of k o' with
    | Some v' => Some v'
    | None => if String.eqb k' k then Some v else None
    end
  end.

(** [{ ...a, ...b }]: the keys of [a] in their order, each with the
    value that [b] gives it if [b] has the key, and then the keys that
    [b] alone has. *)
Definition spread (a b : list (string * string)) : list (string * string) :=
  (map (fun kv => (fst kv, default (snd kv) (header_of (fst kv) b))) a
   ++ List.filter (fun kv => match header_of (fst kv) a with
                             | Some _ => false
                             | None => true
                             end) b)%list.

Definition DEFAULT_FETCH_OPTIONS : FetchOptions :=
  mkFetchOptions 10000 3 (1000 # 1)
    [("User-Agent", "Mozilla/5.0 (Windows NT 10.0; Win64; x64) AppleWebKit/537.36 (KHTML, like Gecko) Chrome/125.0.0.0 Safari/537.36");
     ("Accept", "application/json, text/plain, */*");
     ("Accept-Language", "zh-CN,zh;q=0.9,en;q=0.8");
     ("Connection", "keep-alive");
     ("Pragma", "no-cache");
     ("Cache-Control", "no-cache")].

(** [mergedOptions] for a caller that passes headers, and neither
    [timeout] nor [retries] nor [retryDelay]. *)
Definition merged_with_headers (hdrs : list (string * string)) : FetchOptions :=
  mkFetchOptions (timeout DEFAULT_FETCH_OPTIONS) (retries DEFAULT_FETCH_OPTIONS)
    (retryDelay DEFAULT_FETCH_OPTIONS) (spread (headers DEFAULT_FETCH_OPTIONS) hdrs).

End UtilsFetch.

(** The network of the link resolver, made of [enhancedFetch]. *)
Module RequestCount.

(** The network as resolve-links.ts reaches it:
    [enhancedFetch(url, { redirect: 'follow', headers })], of which it
    reads [response.url]. *)
Definition fetched_network {W : Type} `{Runtime W} `{UtilsFetch.RawFetch W} : Network W :=
  mkNetwork W (fun url hdrs w =>
    match UtilsFetch.enhancedFetch url (UtilsFetch.merged_with_headers hdrs) w with
    | (Ok response, w') => (Ok (UtilsFetch.r_url response), w')
    | (Throw e, w') => (Throw e, w')
    end).

End RequestCount.

(** ** src/info/batch-processor.ts: the sequential processBatch *)
Module BatchProcessor.

(** What [processBatch] reads of [FetchVideoOptions]. *)
Record FetchVideoOptions (W : Type) := mkFetchVideoOptions {
  onProgress : option (nat -> nat -> Async W unit)
}.
Arguments mkFetchVideoOptions {W}.
Arguments onProgress {W}.

(** The [for] loop over [videoUrls]; [results] holds [None] for [null]. *)
Fixpoint processBatch_loop {W V : Type} `{Runtime W}
    (fetchVideoDetail : string -> Async W (option V))
    (options : FetchVideoOptions W) (total : nat)
    (videoUrls : list string) (index : nat) (results : list (option V)) (w : W)
    : Outcome (list (option V)) * W :=
  match videoUrls with
  | [] => (Ok results, w)
  | url :: rest =>
    let '(results, w1) :=
      match Retry.withRetry (fetchVideoDetail url) (Retry.default_with_retries 2) w with
      | (Ok result, w1) => ((results ++ [result])%list, w1)
      | (Throw error, w1) => ((results ++ [None])%list, w1)
      end in
    match onProgress options with
    | Some cb =>
      match cb (index + 1)%nat total w1 with
      | (Ok _, w2) =>
        processBatch_loop fetchVideoDetail options total rest (S index) results w2
      | (Throw error, w2) => (Throw error, w2)
      end
    | None => processBatch_loop fetchVideoDetail options total rest (S index) results w1
    end
  end.

(** [processBatch(videoUrls, page, options)]; the page is the one that
    [fetchVideoDetail] works on. *)
Definition processBatch {W V : Type} `{Runtime W}
    (fetchVideoDetail : string -> Async W (option V))
    (videoUrls : list string) (options : FetchVideoOptions W) : Async W (list V) :=
  fun w =>
  match videoUrls with
  | [] => (Ok [], w)
  | _ =>
    match processBatch_loop fetchVideoDetail options (length videoUrls)
            videoUrls 0 [] w with
    | (Ok results, w') =>
      let validResults := omap (fun result => result) results in
      (Ok validResults, w')
    | (Throw error, w') => (Throw error, w')
    end
  end.

End BatchProcessor.

(** ** src/parser/parse-batch.ts *)
Module ParseBatch.
Import ResolveLinks.

Record ParseOptions (W : Type) := mkParseOptions {
  concurrency : option Z;
  retries : option Z;
  userAgent : option string;
  onProgress : option (nat -> nat -> Async W unit)
}.
Arguments mkParseOptions {W}.
Arguments concurrency {W}.
Arguments retries {W}.
Arguments userAgent {W}.
Arguments onProgress {W}.

(** The worker handed to [processBatch]: [resolveLink] returns [null]
    where it fails. *)
Definition resolve_worker {W : Type} `{Runtime W} `{Network W} `{Platform}
    (resolveOptions : ResolveLinks.ParseOptions)
    : string -> nat -> Async W (option ParseResult) :=
  fun url index w =>
  let '(r, w') := resolveLink url resolveOptions w in (Ok r, w').

(** The options handed to [processBatch]. *)
Definition batch_options {W : Type} (concurrency retries : Z)
    (onProgress : option (nat -> nat -> Async W unit))
    : Retry.ProcessBatchOptions string (option ParseResult) W :=
  Retry.mkProcessBatchOptions concurrency (Retry.default_with_retries retries)
    (match onProgress with
     | Some onProgress => Some (fun completed total errors => onProgress completed total)
     | None => None
     end).

(** [parseBatch(urls, options)] *)
Definition parseBatch {W : Type} `{Runtime W} `{Network W} `{Platform}
    (urls : list string) (options : ParseOptions W) (sched : nat -> nat)
    : Async W (list ParseResult) :=
  fun w =>
  let concurrency := default 3%Z (concurrency options) in
  let retries := default 3%Z (retries options) in
  match urls with
  | [] => (Ok [], w)
  | _ =>
    let resolveOptions := ResolveLinks.mkParseOptions (userAgent options) (Some retries) in
    match Retry.processBatch urls (resolve_worker resolveOptions)
            (batch_options concurrency retries (onProgress options)) sched w with
    | (Throw error, w') => (Throw error, w')
    | (Ok batchOutcome, w') =>
      let successfulResults := omap (fun r => r) (Retry.out_results batchOutcome) in
      (Ok successfulResults, w')
    end
  end.

Record Stats := mkStats {
  total : Z;
  success : Z;
  failed : Z
}.

Record ResultsWithStats := mkResultsWithStats {
  results : list ParseResult;
  stats : Stats
}.

(** [parseBatchWithStats(urls, options)] *)
Definition parseBatchWithStats {W : Type} `{Runtime W} `{Network W} `{Platform}
    (urls : list string) (options : ParseOptions W) (sched : nat -> nat)
    : Async W ResultsWithStats :=
  fun w =>
  match parseBatch urls options sched w with
  | (Throw error, w') => (Throw error, w')
  | (Ok results, w') =>
    (Ok (mkResultsWithStats results
           (mkStats (Z.of_nat (length urls)) (Z.of_nat (length results))
              (Z.of_nat (length urls) - Z.of_nat (length results)))), w')
  end.

End ParseBatch.

(** ** Matching with the [g] flag *)
Module GlobalMatch.
Import Regex.

(** The matcher of [Regex.m] without the capture, for any result of the
    continuation: it hands on what is left of [s] after the match. *)
Fixpoint m_rest {A : Type} (r : re) (s : string) (k : string -> option A) : option A :=
  match r with
  | Lit l => match lit l s with Some s' => k s' | None => None end
  | Cls p =>
    match s with
    | EmptyString => None
    | String c s' => if p c then k s' else None
    end
  | Seq a b => m_rest a s (fun s' => m_rest b s' k)
  | Alt a b =>
    match m_rest a s k with
    | Some res => Some res
    | None => m_rest b s k
    end
  | Opt a =>
    match m_rest a s k with
    | Some res => Some res
    | None => k s
    end
  | Star p => star p s k
  | Plus p =>
    match s with
    | EmptyString => None
    | String c s' => if p c then star p s' k else None
    end
  | Group a => m_rest a s k
  end.

(** What is left of [s] after the match that starts at its first
    character. *)
Definition match_end (r : re) (s : string) : option string := m_rest r s Some.

(** [s.match(r)] for a pattern with the [g] flag, as the list of the
    texts matched ([null] is the empty list): the leftmost match, then
    the leftmost match after its end, and so on; after an empty match the
    search moves on by one character.  [skip] counts the characters of
    [s] that lie inside the match just found. *)
Fixpoint match_all (r : re) (s : string) (skip : nat) : list string :=
  match skip with
  | S skip' =>
    match s with
    | EmptyString => []
    | String _ s' => match_all r s' skip'
    end
  | O =>
    match match_end r s with
    | Some rest =>
      let len := (String.length s - String.length rest)%nat in
      substring 0 len s ::
        match s with
        | EmptyString => []
        | String _ s' => match_all r s' (len - 1)
        end
    | None =>
      match s with
      | EmptyString => []
      | String _ s' => match_all r s' 0
      end
    end
  end.

(** [results.includes(match)] guards the push; the same is the order in
    which [new Set(matches)] keeps its members. *)
Definition push_new (results : list string) (match_ : string) : list string :=
  if existsb (String.eqb match_) results then results else (results ++ [match_])%list.

End GlobalMatch.

(** ** src/parser/extractDouyinLinks.ts *)
Module TextLinks.
Import Regex LinkPatterns GlobalMatch.

(** [[a-zA-Z0-9-]] *)
Definition short_code_plain (c : ascii) : bool :=
  in_range 97 122 c || in_range 65 90 c || in_range 48 57 c || Ascii.eqb c "-".

Definition PATTERNS : list re :=
  [ seqs (scheme_www ++ [Lit "douyin.com/video/"; Group (Plus digit)]);
    seqs [Lit "http"; Opt (Lit "s"); Lit "://v.douyin.com/";
          Group (Plus short_code_plain); Opt (Lit "/")];
    seqs (scheme_www ++ [Lit "douyin.com/share/video/"; Group (Plus digit)]);
    seqs (scheme_www ++ [Lit "douyin.com/note/"; Group (Plus digit)]);
    seqs (scheme_www ++ [Lit "douyin.com/discover?"; Star dot;
                         Lit "modal_id="; Group (Plus digit)]);
    seqs (scheme_www ++ [Alt (Lit "douyin") (Lit "iesdouyin"); Lit ".com/";
                         Star dot; Lit "/"; Star dot; Lit "?"; Star dot;
                         Alt (Lit "video_id") (Lit "vid"); Lit "=";
                         Group (Plus not_amp)]) ].

(** [extractDouyinLinks(text)] *)
Definition extractDouyinLinks (text : string) : list string :=
  if String.eqb text "" then []
  else
    fold_left
      (fun results pattern =>
         let matches := match_all pattern text 0 in
         fold_left push_new matches results)
      PATTERNS [].

(** [containsDouyinLink(text)] of containsDouyinLink.ts *)
Definition containsDouyinLink (text : string) : bool :=
  let links := extractDouyinLinks text in
  (0 <? length links)%nat.

End TextLinks.

(** ** src/parser/extract-links.ts *)
Module CombinedLinks.
Import Regex LinkPatterns GlobalMatch.

(** [patternStrings.join('|')] as a pattern. *)
Fixpoint alts (l : list re) : re :=
  match l with
  | [] => Lit ""
  | [r] => r
  | r :: l' => Alt r (alts l')
  end.

(** [createCombinedPattern()]: no pattern of the table has an anchor to
    strip. *)
Definition createCombinedPattern : re :=
  alts (map LinkPatterns.pattern DOUYIN_LINK_PATTERNS).

(** [extractDouyinLinks(text)] *)
Definition extractDouyinLinks (text : string) : list string :=
  if String.eqb text "" then []
  else
    let combinedPattern := createCombinedPattern in
    let matches := match_all combinedPattern text 0 in
    match matches with
    | [] => []
    | _ =>
      let uniqueUrls := fold_left push_new matches [] in
      uniqueUrls
    end.

(** [extractDouyinLinksByType(text, typeName)] *)
Definition extractDouyinLinksByType (text typeName : string) : list string :=
  if String.eqb text "" then []
  else
    match find (fun p => String.eqb (pname p) typeName) DOUYIN_LINK_PATTERNS with
    | None => []
    | Some pattern =>
      let matches := match_all (LinkPatterns.pattern pattern) text 0 in
      match matches with
      | [] => []
      | _ => fold_left push_new matches []
      end
    end.

(** [containsDouyinLink(text)] *)
Definition containsDouyinLink (text : string) : bool :=
  if String.eqb text "" then false
  else test createCombinedPattern text.

End CombinedLinks.

(** ** src/utils/file.ts: getSafeFilename *)
Module UtilsFile.

(** A string is the list of its UTF-16 code units here: the function
    works on single characters, all of them in the basic plane. *)

(** [\s], and what [trim] strips: the white space and the line
    terminators of the language. *)
Definition is_whitespace (c : N) : bool :=
  ((9 <=? c) && (c <=? 13) || (c =? 32) || (c =? 160) || (c =? 5760)
   || (8192 <=? c) && (c <=? 8202) || (c =? 8232) || (c =? 8233) || (c =? 8239)
   || (c =? 8287) || (c =? 12288) || (c =? 65279))%N.

(** The class of the first [replace]: backslash, slash, colon, asterisk,
    question mark, double quote, less than, greater than, bar. *)
Definition illegal (c : N) : bool :=
  existsb (N.eqb c) [92; 47; 58; 42; 63; 34; 60; 62; 124]%N.

Definition underscore : N := 95.
Definition space : N := 32.

(** [.replace(/[...]/g, '_')] *)
Definition replace_illegal (s : list N) : list N :=
  map (fun c => if illegal c then underscore else c) s.

(** [.replace(/\s+/g, ' ')]: [inside] tells that the character before
    was white space, of a run already replaced. *)
Fixpoint collapse_whitespace (inside : bool) (s : list N) : list N :=
  match s with
  | [] => []
  | c :: s' =>
    if is_whitespace c
    then if inside then collapse_whitespace true s'
         else space :: collapse_whitespace true s'
    else c :: collapse_whitespace false s'
  end.

Fixpoint trimStart (s : list N) : list N :=
  match s with
  | [] => []
  | c :: s' => if is_whitespace c then trimStart s' else s
  end.

(** [.trim()] *)
Definition trim (s : list N) : list N := rev (trimStart (rev (trimStart s))).

(** The code units of [untitled]. *)
Definition untitled : list N := [117; 110; 116; 105; 116; 108; 101; 100]%N.

(** [getSafeFilename(filename)] *)
Definition getSafeFilename (filename : list N) : list N :=
  match filename with
  | [] => untitled
  | _ => firstn 200 (trim (collapse_whitespace false (replace_illegal filename)))
  end.

End UtilsFile.

(** ** Counting the calls of downloadFile that downloadVideo makes *)
Module DownloadCount.
Import VideoDownloader Counting.

(** The collaborators of [downloadVideo] on a world that counts the
    calls of [downloadFile]; [downloadVideo] always passes the progress
    callback [file_progress options]. *)
Definition counted_fs {W : Type} `{FileSystem W} (options : VideoDownloadOptions W)
    : FileSystem (W * nat) :=
  mkFileSystem (W * nat)
    (fun p wc => fs_stat p (fst wc))
    (fun p wc => pathExists p (fst wc))
    (fun p => untick (unlink p))
    (fun d => untick (ensureDirectoryExists d))
    (fun url dest hdrs tmo _ => tick (downloadFile url dest hdrs tmo (file_progress options)))
    (fun vi base sub tpl wc => formatOutputPath vi base sub tpl (fst wc))
    path_dirname
    path_sep.

Definition counted_options {W : Type} (options : VideoDownloadOptions W)
    : VideoDownloadOptions (W * nat) :=
  mkVideoDownloadOptions (retries options) (timeout options) (headers options)
    (option_map (fun cb z => untick (cb z)) (onProgress options))
    (option_map (fun cb z => untick (cb z)) (onFileProgress options))
    (checkExisting options) (overwrite options) (useSubfolders options)
    (filenameTemplate options).

End DownloadCount.

(** The downloads, listing the urls they were made from. *)
Module DownloadLog.
Import VideoDownloader Counting.

(** The collaborators of [downloadVideo] on a world that lists the urls
    that [downloadFile] was called with; [downloadVideo] always passes
    the progress callback [file_progress options]. *)
Definition logged_fs {W : Type} `{FileSystem W} (options : VideoDownloadOptions W)
    : FileSystem (W * list string) :=
  mkFileSystem (W * list string)
    (fun p wl => fs_stat p (fst wl))
    (fun p wl => pathExists p (fst wl))
    (fun p => untick (unlink p))
    (fun d => untick (ensureDirectoryExists d))
    (fun url dest hdrs tmo _ => note url (downloadFile url dest hdrs tmo (file_progress options)))
    (fun vi base sub tpl wl => formatOutputPath vi base sub tpl (fst wl))
    path_dirname
    path_sep.

Definition logged_options {W : Type} (options : VideoDownloadOptions W)
    : VideoDownloadOptions (W * list string) :=
  mkVideoDownloadOptions (retries options) (timeout options) (headers options)
    (option_map (fun cb z => untick (cb z)) (onProgress options))
    (option_map (fun cb z => untick (cb z)) (onFileProgress options))
    (checkExisting options) (overwrite options) (useSubfolders options)
    (filenameTemplate options).

End DownloadLog.

(** ** src/parser/parseDouyinLinks.ts: the batches of parseDouyinLinks *)
Module ParseDouyinLinks.
Import ResolveLinks User.

(** [Array.prototype.slice(start, end)] *)
Definition slice {A : Type} (l : list A) (start end_ : Z) : list A :=
  let len := Z.of_nat (length l) in
  let k := if (start <? 0)%Z then Z.max (len + start) 0 else Z.min start len in
  let final := if (end_ <? 0)%Z then Z.max (len + end_) 0 else Z.min end_ len in
  firstn (Z.to_nat (final - k)) (skipn (Z.to_nat k) l).

Record Options (W : Type) := mkOptions {
  concurrency : option Z;
  onProgress : option (nat -> nat -> Async W unit)
}.
Arguments mkOptions {W}.
Arguments concurrency {W}.
Arguments onProgress {W}.

(** [Promise.all(batch.map(async (link) => ...))]: the links of a batch
    are resolved side by side, each counted in [processed] and reported
    to [onProgress] when it is done; the value is the list of the
    results, [null] for a link that could not be resolved, and the call
    rejects if [onProgress] throws.  It is given the callback, the total
    and the value of [processed] before the batch. *)
Class BatchRunner (W : Type) := mkBatchRunner {
  promise_all : option (nat -> nat -> Async W unit) -> nat -> nat -> list string ->
                Async W (list (option ParseResult))
}.

(** The [for (let i = 0; i < links.length; i += concurrency)] loop, run
    for a number of passes. *)
Fixpoint parseDouyinLinks_loop {W : Type} `{BatchRunner W}
    (passes : nat) (links : list string) (concurrency : Z)
    (onProgress : option (nat -> nat -> Async W unit)) (total : nat)
    (i : Z) (processed : nat) (results : list ParseResult) (w : W)
    : Run (list ParseResult) W :=
  if (i <? Z.of_nat (length links))%Z then
    match passes with
    | O => Running w
    | S passes' =>
      let batch := slice links i (i + concurrency) in
      match promise_all onProgress total processed batch w with
      | (Throw error, w1) => Settled (Throw error) w1
      | (Ok batchResults, w1) =>
        let results := (results ++ omap (fun r => r) batchResults)%list in
        parseDouyinLinks_loop passes' links concurrency onProgress total
          (i + concurrency) (processed + length batch)%nat results w1
      end
    end
  else Settled (Ok results) w.

(** [parseDouyinLinks(text, options)] *)
Definition parseDouyinLinks {W : Type} `{BatchRunner W}
    (passes : nat) (text : string) (options : Options W) (w : W)
    : Run (list ParseResult) W :=
  let links := TextLinks.extractDouyinLinks text in
  match links with
  | [] => Settled (Ok []) w
  | _ =>
    let concurrency := default 3%Z (concurrency options) in
    let total := length links in
    parseDouyinLinks_loop passes links concurrency (onProgress options) total 0 0 [] w
  end.

End ParseDouyinLinks.

(** ** src/download/download-manager.ts: downloadBatch *)
Module DownloadManager.
Import VideoDownloader.

(** [progressMap], the [Map] from the index of a video to its progress
    that the callbacks of one call share, is a part of the world. *)
Class ProgressMap (W : Type) := mkProgressMap {
  progressMap : W -> gmap nat Z;
  progressMap_set : nat -> Z -> W -> W
}.

Record BatchDownloadOptions (W : Type) := mkBatchDownloadOptions {
  concurrency : option Z;
  onBatchProgress : option (nat -> nat -> Z -> Async W unit);
  videoOptions : VideoDownloadOptions W
}.
Arguments mkBatchDownloadOptions {W}.
Arguments concurrency {W}.
Arguments onBatchProgress {W}.
Arguments videoOptions {W}.

Record DownloadResult := mkDownloadResult {
  videoInfo : VideoInfo;
  success : bool;
  filePath : option string;
  error : option JsError
}.

(** [progressMap.size > 0 ? Math.round(totalProgress / progressMap.size) : 0] *)
Definition overall {W : Type} `{ProgressMap W} (w : W) : Z :=
  let totalProgress := map_fold (fun _ progress sum => (sum + progress)%Z) 0%Z (progressMap w) in
  let size := Z.of_nat (size (progressMap w)) in
  if (size >? 0)%Z then ((2 * totalProgress + size) / (2 * size))%Z else 0%Z.

(** [updateOverallProgress()] *)
Definition updateOverallProgress {W : Type} `{ProgressMap W}
    (options : BatchDownloadOptions W) (total : nat) : Async W unit :=
  fun w =>
  match onBatchProgress options with
  | None => (Ok tt, w)
  | Some onBatchProgress =>
    let overallProgress := overall w in
    onBatchProgress (size (progressMap w)) total overallProgress w
  end.

(** [{ ...videoOptions, onFileProgress: onProgress }] *)
Definition with_onFileProgress {W : Type} (o : VideoDownloadOptions W)
    (onProgress : Z -> Async W unit) : VideoDownloadOptions W :=
  mkVideoDownloadOptions (retries o) (timeout o) (headers o) (VideoDownloader.onProgress o)
    (Some onProgress) (checkExisting o) (overwrite o) (useSubfolders o)
    (filenameTemplate o).

(** The worker handed to [processBatch]. *)
Definition download_worker {W : Type} `{Runtime W} `{FileSystem W} `{ProgressMap W}
    (outputPath : string) (options : BatchDownloadOptions W) (total : nat)
    : VideoInfo -> nat -> Async W DownloadResult :=
  fun videoInfo index w =>
  let onProgress : Z -> Async W unit :=
    fun progress w0 =>
      updateOverallProgress options total (progressMap_set index progress w0) in
  match downloadVideo videoInfo outputPath
          (with_onFileProgress (videoOptions options) onProgress) [] w with
  | (Ok filePath, w1) =>
    match updateOverallProgress options total (progressMap_set index 100 w1) with
    | (Ok _, w2) => (Ok (mkDownloadResult videoInfo true (Some filePath) None), w2)
    | (Throw error, w2) => (Ok (mkDownloadResult videoInfo false None (Some error)), w2)
    end
  | (Throw error, w1) => (Ok (mkDownloadResult videoInfo false None (Some error)), w1)
  end.

(** The options handed to [processBatch]: no retry there. *)
Definition batch_options {W : Type} `{ProgressMap W} (options : BatchDownloadOptions W)
    : Retry.ProcessBatchOptions VideoInfo DownloadResult W :=
  Retry.mkProcessBatchOptions (default 3%Z (concurrency options))
    (Retry.default_with_retries 0)
    (Some (fun current total errors w =>
             match onBatchProgress options with
             | Some onBatchProgress =>
               let overallProgress := overall w in
               onBatchProgress current total overallProgress w
             | None => (Ok tt, w)
             end)).

(** [downloadBatch(videoInfoList, outputPath, options)] *)
Definition downloadBatch {W : Type} `{Runtime W} `{FileSystem W} `{ProgressMap W}
    (videoInfoList : list VideoInfo) (outputPath : string)
    (options : BatchDownloadOptions W) (sched : nat -> nat)
    : Async W (list DownloadResult) :=
  fun w =>
  let total := length videoInfoList in
  match Retry.processBatch videoInfoList (download_worker outputPath options total)
          (batch_options options) sched w with
  | (Throw e, w') => (Throw e, w')
  | (Ok batchOutcome, w') =>
    let successfulDownloads := Retry.out_results batchOutcome in
    (Ok successfulDownloads, w')
  end.

End DownloadManager.

(** ** Concrete inputs for the examples *)
Module Trials.

(** A function that fails with a retryable message twice, then returns;
    the world counts the delays waited, which tells the calls apart. *)
Definition third_time_lucky : Async nat string :=
  fun w => if (w <? 2)%nat then (Throw (newError "network timeout"), w) else (Ok "done", w).

(** A download rejected for good by the server. *)
Definition refused_download : option (Z -> Async nat unit) -> Async nat string :=
  fun _ w => (Throw (newDownloadError "network error" "https://v.example/1" "GONE" false), w).

Definition three_retries : DownloadRetry.RetryOptions nat :=
  DownloadRetry.mkRetryOptions 3 None None None None None.

(** A server that answers every request with 503. *)
#[export] Instance unavailable : UtilsFetch.RawFetch nat :=
  UtilsFetch.mkRawFetch nat (fun url _ w =>
    (Ok (UtilsFetch.mkResponse false 503 "Service Unavailable" url (Ok "busy")), w)).

Definition two_retries : UtilsFetch.FetchOptions :=
  UtilsFetch.mkFetchOptions 10000 2 (1000 # 1) [].

(** A detail fetcher that finds nothing at the URL [gone] and a title at
    any other. *)
Definition detail_or_null : string -> Async nat (option string) :=
  fun url w => if String.eqb url "gone" then (Ok None, w) else (Ok (Some url), w).

(** A batch runner that resolves nothing: every link comes back [null]. *)
#[export] Instance null_runner : ParseDouyinLinks.BatchRunner nat :=
  ParseDouyinLinks.mkBatchRunner nat (fun _ _ _ batch w => (Ok (map (fun _ => None) batch), w)).

(** The progress map beside the disk. *)
#[export] Instance progress_beside {W : Type} : DownloadManager.ProgressMap (W * gmap nat Z) :=
  DownloadManager.mkProgressMap (W * gmap nat Z)
    (fun w => snd w) (fun index progress w => (fst w, <[index := progress]> (snd w))).

(** The disk of the scenario beside a progress map; the progress
    callback of a download is not called there. *)
Definition disk_beside (serves : string -> nat -> bool)
    : VideoDownloader.FileSystem (Scenario.DiskWorld * gmap nat Z) :=
  let fs := Scenario.disk serves in
  VideoDownloader.mkFileSystem (Scenario.DiskWorld * gmap nat Z)
    (fun p w => @VideoDownloader.fs_stat _ fs p (fst w))
    (fun p w => @VideoDownloader.pathExists _ fs p (fst w))
    (fun p => Counting.untick (@VideoDownloader.unlink _ fs p))
    (fun d => Counting.untick (@VideoDownloader.ensureDirectoryExists _ fs d))
    (fun url dest hdrs tmo _ =>
       Counting.untick (@VideoDownloader.downloadFile _ fs url dest hdrs tmo
                          (fun _ _ w => (Ok tt, w))))
    (fun vi base sub tpl w => @VideoDownloader.formatOutputPath _ fs vi base sub tpl (fst w))
    (@VideoDownloader.path_dirname _ fs)
    (@VideoDownloader.path_sep _ fs).

End Trials.

(* ===================================================================== *)
(** * Part II. Properties                                                 *)
(* ===================================================================== *)

Local Open Scope list_scope.

(** ** Strings *)
Module JsFacts.

Lemma prefix_spec (p s : string) :
  String.prefix p s = true <-> exists b, s = (p ++ b)%string.
Proof.
  revert s. induction p as [|c p IH]; intros s.
  - split; [intros _; exists s; reflexivity|intros _; destruct s; reflexivity].
  - destruct s as [|d s]; simpl.
    + split; [discriminate|intros [b Hb]; discriminate].
    + destruct (Ascii.ascii_dec c d) as [->|Hne].
      * rewrite IH. split; intros [b Hb]; exists b; [subst; reflexivity|].
        simpl in Hb. inversion Hb. reflexivity.
      * split; [discriminate|]. intros [b Hb]. simpl in Hb. congruence.
Qed.

(** [includes] is substring containment. *)
Lemma includes_spec (s sub : string) :
  includes s sub = true <-> exists a b, s = (a ++ sub ++ b)%string.
Proof.
  induction s as [|c s IH]; cbn [includes].
  - destruct (String.prefix sub "") eqn:Hp.
    + split; [intros _|reflexivity]. apply prefix_spec in Hp as [b Hb].
      exists "", b. exact Hb.
    + split; [discriminate|]. intros (a & b & Hab).
      assert (String.prefix sub "" = true) as Hp'; [|congruence].
      apply prefix_spec. destruct a; [exists b; exact Hab|discriminate].
  - destruct (String.prefix sub (String c s)) eqn:Hp.
    + split; [intros _|reflexivity]. apply prefix_spec in Hp as [b Hb].
      exists "", b. exact Hb.
    + rewrite IH. split.
      * intros (a & b & ->). exists (String c a), b. reflexivity.
      * intros (a & b & Hab). destruct a as [|d a].
        -- assert (String.prefix sub (String c s) = true) as Hp'; [|congruence].
           apply prefix_spec. exists b. exact Hab.
        -- simpl in Hab. inversion Hab; subst. exists a, b. reflexivity.
Qed.

End JsFacts.

(** ** getOfficialVideoUrl *)
Module UserUrlFacts.
Import User JsFacts.

(** The url contains the official play path. *)
Definition official (url : string) : Prop :=
  exists a b, url = (a ++ "douyin.com/aweme/v1/play" ++ b)%string.

Lemma first_official_found (pre : list string) (url : string) (post : list string) :
  Forall (fun u => ~ official u) pre -> official url ->
  first_official (pre ++ url :: post) = Some url.
Proof.
  intros Hpre Hurl. induction Hpre as [|u pre Hu Hpre IH]; simpl.
  - apply includes_spec in Hurl. rewrite Hurl. reflexivity.
  - destruct (includes u "douyin.com/aweme/v1/play") eqn:Hinc.
    + apply includes_spec in Hinc. contradiction.
    + exact IH.
Qed.

Lemma first_official_none (l : list string) :
  Forall (fun u => ~ official u) l -> first_official l = None.
Proof.
  intros Hl. induction Hl as [|u l Hu Hl IH]; simpl; [reflexivity|].
  destruct (includes u "douyin.com/aweme/v1/play") eqn:Hinc; [|exact IH].
  apply includes_spec in Hinc. contradiction.
Qed.

(** C10. [getOfficialVideoUrl] returns the first url of the list that
    contains [douyin.com/aweme/v1/play] when there is one, otherwise the
    first element of the list, and the empty string for an undefined or
    empty list; it is total, so it never throws. *)
Theorem getOfficialVideoUrl_selects :
  getOfficialVideoUrl None = "" /\
  getOfficialVideoUrl (Some []) = "" /\
  (forall pre url post,
     Forall (fun u => ~ official u) pre -> official url ->
     getOfficialVideoUrl (Some (pre ++ url :: post)) = url) /\
  (forall url0 rest,
     Forall (fun u => ~ official u) (url0 :: rest) ->
     getOfficialVideoUrl (Some (url0 :: rest)) = url0).
Proof.
  split; [reflexivity|]. split; [reflexivity|]. split.
  - intros pre url post Hpre Hurl.
    pose proof (first_official_found pre url post Hpre Hurl) as Hf.
    unfold getOfficialVideoUrl.
    destruct (pre ++ url :: post) as [|u0 rest] eqn:Hl.
    + destruct pre; discriminate.
    + rewrite Hf. reflexivity.
  - intros url0 rest Hall. unfold getOfficialVideoUrl.
    rewrite (first_official_none _ Hall). reflexivity.
Qed.

Lemma not_official_by_test (u : string) :
  includes u "douyin.com/aweme/v1/play" = false -> ~ official u.
Proof.
  intros Hinc Hoff. apply includes_spec in Hoff. congruence.
Qed.

Lemma getOfficialVideoUrl_selects_witness :
  getOfficialVideoUrl
    (Some ["https://v26.example.com/video/a.mp4";
           "https://www.douyin.com/aweme/v1/play/?video_id=v1";
           "https://www.douyin.com/aweme/v1/play/?video_id=v2"])
  = "https://www.douyin.com/aweme/v1/play/?video_id=v1"
  /\
  getOfficialVideoUrl
    (Some ["https://v26.example.com/video/a.mp4"; "https://v3.example.com/b.mp4"])
  = "https://v26.example.com/video/a.mp4".
Proof.
  destruct getOfficialVideoUrl_selects as (_ & _ & Hfirst & Hnone). split.
  - apply (Hfirst ["https://v26.example.com/video/a.mp4"]
             "https://www.douyin.com/aweme/v1/play/?video_id=v1"
             ["https://www.douyin.com/aweme/v1/play/?video_id=v2"]).
    + constructor; [|constructor]. apply not_official_by_test. reflexivity.
    + exists "https://www.", "/?video_id=v1". reflexivity.
  - apply Hnone. repeat constructor; apply not_official_by_test; reflexivity.
Defined.

End UserUrlFacts.

(** ** processBatch: every item yields exactly one outcome *)
Module RetryFacts.
Import Retry.

Section Pool.
Context {T R W : Type} `{RT : Runtime W}.
Variable fn : T -> nat -> Async W R.
Variable options : ProcessBatchOptions T R W.

(** Items are conserved: each is queued, running, a result or an error. *)
Definition accounted (n : nat) (s : PoolState T R W) : Prop :=
  (length (results s) + length (allErrors s)
   + length (active s) + length (queue s) = n)%nat.

Lemma refill_length (c : nat) (q : list (T * nat)) (a : list (Task T)) q' a' :
  refill c q a = (q', a') ->
  (length a' + length q' = length a + length q)%nat /\ (length a <= length a')%nat.
Proof.
  revert a. induction q as [|x q IH]; intros a Hr; simpl in Hr.
  - inversion Hr; subst. lia.
  - destruct (length a <? c)%nat.
    + apply IH in Hr. rewrite length_app in Hr. simpl in *. lia.
    + inversion Hr; subst. simpl. lia.
Qed.

Lemma refill_idle (c : nat) (q : list (T * nat)) (a : list (Task T)) q' :
  (1 <= c)%nat -> refill c q a = (q', []) -> q' = [] /\ a = [] /\ q = [].
Proof.
  intros Hc Hr. destruct q as [|x q]; simpl in Hr.
  - inversion Hr; subst. auto.
  - destruct (length a <? c)%nat eqn:Hlt.
    + apply refill_length in Hr. rewrite length_app in Hr. simpl in Hr. lia.
    + inversion Hr; subst. apply Nat.ltb_ge in Hlt. simpl in Hlt. lia.
Qed.

Lemma pool_step_accounted total n choice s s' :
  accounted n s -> pool_step fn options total choice s = Some s' -> accounted n s'.
Proof.
  unfold accounted, pool_step. intros Hacc Hs.
  destruct (refill _ (queue s) (active s)) as [q a] eqn:Hr.
  apply refill_length in Hr as [Hlen _].
  destruct (a !! (choice mod length a)%nat) as [t|] eqn:Hk; [|discriminate].
  apply lookup_lt_Some in Hk.
  assert (S (length (delete (choice mod length a)%nat a)) = length a) as Hdel.
  { rewrite length_delete by (apply lookup_lt_is_Some_2; exact Hk). lia. }
  destruct (withRetry_iteration _ _ _ _ _) as [[r|err|att e] w'].
  - destruct (onProgress options) as [cb|].
    + destruct (cb _ _ _ _) as [[u|err] w'']; inversion Hs; subst; simpl;
        rewrite ?length_app; simpl; lia.
    + inversion Hs; subst; simpl; rewrite ?length_app; simpl; lia.
  - inversion Hs; subst; simpl; rewrite ?length_app; simpl; lia.
  - inversion Hs; subst; simpl. rewrite length_insert. lia.
Qed.

Lemma pool_step_idle total choice s :
  (1 <= concurrency options)%Z ->
  pool_step fn options total choice s = None ->
  queue s = [] /\ active s = [].
Proof.
  unfold pool_step. intros Hc Hs.
  destruct (refill _ (queue s) (active s)) as [q a] eqn:Hr.
  destruct a as [|t a].
  - apply refill_idle in Hr; [tauto|lia].
  - exfalso.
    assert (choice mod length (t :: a) < length (t :: a))%nat as Hlt
      by (apply Nat.mod_upper_bound; discriminate).
    apply lookup_lt_is_Some_2 in Hlt as [t' Ht']. rewrite Ht' in Hs.
    destruct (withRetry_iteration _ _ _ _ _) as [[r|err|att e] w'];
      try discriminate.
    destruct (onProgress options) as [cb|]; [|discriminate].
    destruct (cb _ _ _ _) as [[u|err] w'']; discriminate.
Qed.

(** The pool always comes to rest, and what held of each step holds then. *)
Lemma pool_run_rest total (P : PoolState T R W -> Prop) sched step s :
  (forall choice s1 s2, P s1 -> pool_step fn options total choice s1 = Some s2 -> P s2) ->
  P s ->
  P (pool_run fn options total sched step s) /\
  exists choice,
    pool_step fn options total choice (pool_run fn options total sched step s) = None.
Proof.
  intros Hstep. funelim (pool_run fn options total sched step s); intros HP.
  - apply H0; [exact Hstep|]. eapply Hstep; eassumption.
  - split; [exact HP|]. eexists. eassumption.
Qed.

Lemma processBatch_accounts (items : list T) (sched : nat -> nat) (w : W) :
  (1 <= concurrency options)%Z ->
  exists out w',
    processBatch items fn options sched w = (Ok out, w') /\
    (length (out_results out) + length (out_errors out) = length items)%nat.
Proof.
  intros Hc. unfold processBatch.
  destruct (concurrency options <? 1)%Z eqn:Hlt; [apply Z.ltb_lt in Hlt; lia|].
  eexists _, _. split; [reflexivity|]. simpl.
  match goal with |- context [pool_run _ _ ?t ?sc ?st ?s0] =>
    destruct (pool_run_rest t (accounted (length items)) sc st s0)
      as [Hacc [choice Hidle]] end.
  - intros c s1 s2. apply pool_step_accounted.
  - unfold accounted, indexed. simpl.
    rewrite length_zip_with, length_seq. lia.
  - apply pool_step_idle in Hidle as [Hq Ha]; [|exact Hc].
    unfold accounted in Hacc. rewrite Hq, Ha in Hacc. simpl in Hacc.
    rewrite length_app. simpl. lia.
Qed.

End Pool.

(** *** Isolation: workers whose outcome depends on the item alone *)
Section Isolation.
Context {T R W : Type} `{RT : Runtime W}.
Variable fn : T -> nat -> Async W R.
Variable options : ProcessBatchOptions T R W.
Variable f : T -> nat -> Outcome R.

Hypothesis fn_pure : forall x i w, fst (fn x i w) = f x i.
Hypothesis retries_nonneg : (0 <= retries (retry options))%Z.
Hypothesis onProgress_returns :
  forall cb, onProgress options = Some cb ->
  forall c t errs w, exists w', cb c t errs w = (Ok tt, w').

Definition succeeds (x : T * nat) : bool :=
  match f (fst x) (snd x) with Ok _ => true | Throw _ => false end.

Definition ok_weight (t : Task T) : nat :=
  if succeeds (t_item t, t_index t) then 1 else 0.

Definition ok_queue (q : list (T * nat)) : nat :=
  sum_list_with (fun x => ok_weight (start_task x)) q.

(** Results so far plus the successes still to come, and no running
    handler beyond its budget. *)
Definition settled (n : nat) (s : PoolState T R W) : Prop :=
  (length (results s) + sum_list_with ok_weight (active s) + ok_queue (queue s) = n)%nat
  /\ Forall (fun t => (t_attempt t <= retries (retry options))%Z) (active s).

Lemma refill_settled (c : nat) (q : list (T * nat)) (a : list (Task T)) q' a' :
  refill c q a = (q', a') ->
  Forall (fun t => (t_attempt t <= retries (retry options))%Z) a ->
  (sum_list_with ok_weight a' + ok_queue q' = sum_list_with ok_weight a + ok_queue q)%nat
  /\ Forall (fun t => (t_attempt t <= retries (retry options))%Z) a'.
Proof using retries_nonneg.
  revert a. induction q as [|x q IH]; intros a Hr Hall; simpl in Hr.
  - inversion Hr; subst. auto.
  - destruct (length a <? c)%nat.
    + apply IH in Hr as [Hsum Hall'].
      * split; [|exact Hall']. rewrite Hsum, sum_list_with_app.
        unfold ok_queue. simpl. lia.
      * apply Forall_app. split; [exact Hall|]. constructor; [|constructor].
        simpl. exact retries_nonneg.
    + inversion Hr; subst. auto.
Qed.

Lemma iteration_pure x i o attempt lastError w :
  (attempt <= retries o)%Z ->
  match withRetry_iteration (fn x i) o attempt lastError w with
  | (IterReturn _, _) => succeeds (x, i) = true
  | (IterThrow _, _) => succeeds (x, i) = false
  | (IterAgain attempt' _, _) => (attempt' <= retries o)%Z
  end.
Proof using fn_pure.
  intros Hle. unfold withRetry_iteration, succeeds. simpl.
  apply Z.leb_le in Hle. rewrite Hle.
  pose proof (fn_pure x i w) as Hp.
  destruct (fn x i w) as [[r|err] w1]; simpl in Hp; rewrite <- Hp; [reflexivity|].
  destruct (negb (shouldRetry o err)); [reflexivity|].
  destruct (attempt + 1 >? retries o)%Z eqn:Hgt; [reflexivity|].
  destruct (math_random _) as [rq w3]. lia.
Qed.

Lemma pool_step_settled total n choice s s' :
  settled n s -> pool_step fn options total choice s = Some s' -> settled n s'.
Proof using fn_pure retries_nonneg onProgress_returns.
  unfold settled, pool_step. intros [Hsum Hall] Hs.
  destruct (refill _ (queue s) (active s)) as [q a] eqn:Hr.
  apply refill_settled in Hr as [Hsum' Hall']; [|exact Hall].
  destruct (a !! (choice mod length a)%nat) as [t|] eqn:Hk; [|discriminate].
  pose proof (sum_list_delete ok_weight _ _ _ Hk) as Hdel.
  assert (Forall (fun t => (t_attempt t <= retries (retry options))%Z)
            (delete (choice mod length a)%nat a)) as Hall_del.
  { apply Forall_delete. exact Hall'. }
  assert (t_attempt t <= retries (retry options))%Z as Ht.
  { eapply Forall_forall in Hall'; [exact Hall'|]. eapply list_elem_of_lookup_2; eauto. }
  pose proof (iteration_pure (t_item t) (t_index t) (retry options)
                (t_attempt t) (t_lastError t) (world s) Ht) as Hpure.
  assert (ok_weight t = if succeeds (t_item t, t_index t) then 1 else 0)%nat as Hw
    by reflexivity.
  destruct (withRetry_iteration _ _ _ _ _) as [[r|err|att e] w'].
  - rewrite Hpure in Hw. destruct (onProgress options) as [cb|] eqn:Hcb.
    + destruct (onProgress_returns cb eq_refl (S (completed s)) total (allErrors s) w')
        as [w'' Hret].
      rewrite Hret in Hs. inversion Hs; subst; simpl.
      split; [rewrite length_app; simpl; lia|exact Hall_del].
    + inversion Hs; subst; simpl.
      split; [rewrite length_app; simpl; lia|exact Hall_del].
  - rewrite Hpure in Hw. inversion Hs; subst; simpl.
    split; [lia|exact Hall_del].
  - inversion Hs; subst; simpl. split.
    + pose proof (sum_list_insert ok_weight _ _ _
                    (mkTask (t_item t) (t_index t) att e) Hk) as Hins.
      assert (ok_weight (mkTask (t_item t) (t_index t) att e) = ok_weight t)
        by reflexivity.
      lia.
    + apply Forall_insert; [exact Hall'|exact Hpure].
Qed.

Lemma ok_queue_filter (l : list (T * nat)) :
  ok_queue l = length (filter (fun x => succeeds x) l).
Proof.
  unfold ok_queue. induction l as [|x l IH]; [reflexivity|].
  simpl. rewrite filter_cons. unfold ok_weight at 1. simpl.
  replace (fst x, snd x) with x by (destruct x; reflexivity).
  destruct (succeeds x); simpl; rewrite IH; reflexivity.
Qed.

Lemma filter_split_length (l : list (T * nat)) :
  (length (filter (fun x => succeeds x) l)
   + length (filter (fun x => negb (succeeds x)) l) = length l)%nat.
Proof.
  induction l as [|x l IH]; [reflexivity|].
  rewrite !filter_cons. destruct (succeeds x); simpl; lia.
Qed.

Lemma processBatch_isolates (items : list T) (sched : nat -> nat) (w : W) :
  (1 <= concurrency options)%Z ->
  exists out w',
    processBatch items fn options sched w = (Ok out, w') /\
    length (out_results out) = length (filter (fun x => succeeds x) (indexed items)) /\
    length (out_errors out) =
      length (filter (fun x => negb (succeeds x)) (indexed items)).
Proof using fn_pure retries_nonneg onProgress_returns.
  intros Hc.
  destruct (processBatch_accounts fn options items sched w Hc)
    as (out & w' & Hrun & Hcount).
  exists out, w'. split; [exact Hrun|].
  assert (length (out_results out)
          = length (filter (fun x => succeeds x) (indexed items))) as Hres.
  { revert Hrun. unfold processBatch.
    destruct (concurrency options <? 1)%Z; [discriminate|].
    intros Hrun. inversion Hrun; subst; clear Hrun. simpl.
    match goal with |- context [pool_run _ _ ?t ?sc ?st ?s0] =>
      destruct (pool_run_rest fn options t
                  (settled (length (filter (fun x => succeeds x) (indexed items))))
                  sc st s0) as [[Hsum _] [choice Hidle]] end.
    - intros c s1 s2. apply pool_step_settled.
    - split; [|constructor]. simpl. apply ok_queue_filter.
    - apply pool_step_idle in Hidle as [Hq Ha]; [|exact Hc].
      rewrite Hq, Ha in Hsum. simpl in Hsum. unfold ok_queue in Hsum.
      simpl in Hsum. lia. }
  split; [exact Hres|].
  assert (length (filter (fun x => succeeds x) (indexed items))
          + length (filter (fun x => negb (succeeds x)) (indexed items))
          = length items)%nat as Hsplit.
  { rewrite filter_split_length. unfold indexed.
    rewrite length_zip_with, length_seq. lia. }
  lia.
Qed.

End Isolation.

Lemma pool_run_unfold {T R W : Type} `{RT : Runtime W}
    (fn : T -> nat -> Async W R) (options : ProcessBatchOptions T R W)
    (total : nat) (sched : nat -> nat) (step : nat) (s : PoolState T R W) :
  pool_run fn options total sched step s =
  match pool_step fn options total (sched step) s with
  | None => s
  | Some s' => pool_run fn options total sched (S step) s'
  end.
Proof.
  funelim (pool_run fn options total sched step s);
    repeat match goal with
           | H : pool_step _ _ _ _ _ = _ |- _ => rewrite H
           end; reflexivity.
Qed.

Lemma omap_nothing {A B : Type} (l : list A) : omap (fun _ : A => @None B) l = [].
Proof. induction l as [|x l IH]; [reflexivity|exact IH]. Qed.

(** *** The calls of the worker, item by item

    To say what [processBatch] does with each item, the worker is run on
    a world with a log beside it: every call of the worker writes the
    index it was given and the outcome it had. *)
Section Log.
Import Counting.
Context {T R W : Type} `{RT : Runtime W}.
Variable fn : T -> nat -> Async W R.
Variable options : ProcessBatchOptions T R W.

Abbreviation Log := (list (nat * Outcome R)).

(** [fn], writing each call to the log. *)
Definition logged (x : T) (index : nat) : Async (W * Log) R :=
  fun wl =>
  let '(o, w') := fn x index (fst wl) in (o, (w', snd wl ++ [(index, o)])).

(** The options on the world with the log: the callbacks leave the log
    alone. *)
Definition logged_options : ProcessBatchOptions T R (W * Log) :=
  mkProcessBatchOptions (concurrency options)
    (lift_options (retry options))
    (option_map (fun cb c t errs => untick (cb c t errs)) (onProgress options)).

(** The outcomes of the calls made for the item at [index], in order. *)
Definition outcomes_of (index : nat) (l : Log) : list (Outcome R) :=
  map snd (filter (fun e => fst e = index) l).

(** A failure after which [withRetry] calls the worker again. *)
Definition retried (o : Outcome R) : Prop :=
  exists e, o = Throw e /\ shouldRetry (retry options) e = true.

(** The calls of an item that is done: failures that were retried, at
    most [retries] of them, and then a last call that either returned, or
    failed with an error that is not to be retried, or failed when the
    [retries] retries were used up. *)
Definition item_done (h : list (Outcome R)) : Prop :=
  exists pre final,
    h = pre ++ [final] /\ Forall retried pre /\
    (Z.of_nat (length pre) <= retries (retry options))%Z /\
    match final with
    | Ok _ => True
    | Throw e =>
      shouldRetry (retry options) e = false \/
      Z.of_nat (length pre) = retries (retry options)
    end.

(** What the item gave: the value of its last call, or its error. *)
Definition result_of (h : list (Outcome R)) : option R :=
  match last h with
  | Some (Ok r) => Some r
  | _ => None
  end.

Definition error_of (h : list (Outcome R)) : option JsError :=
  match last h with
  | Some (Throw e) => Some e
  | _ => None
  end.

(** The error of an item, once it is final. *)
Definition final_error (h : list (Outcome R)) : option JsError :=
  match last h with
  | Some (Throw e) =>
    if negb (shouldRetry (retry options) e)
       || (retries (retry options) + 1 <=? Z.of_nat (length h))%Z
    then Some e else None
  | _ => None
  end.

Definition lift_state (s : PoolState T R W) (l : Log) : PoolState T R (W * Log) :=
  mkPoolState (queue s) (active s) (results s) (allErrors s) (completed s) (world s, l).

Lemma outcomes_of_snoc (index i : nat) (o : Outcome R) (l : Log) :
  outcomes_of index (l ++ [(i, o)])
  = if decide (i = index) then outcomes_of index l ++ [o] else outcomes_of index l.
Proof.
  unfold outcomes_of. rewrite filter_app, map_app.
  rewrite filter_cons, filter_nil. cbn [fst].
  destruct (decide (i = index)); cbn [map snd]; [reflexivity|apply app_nil_r].
Qed.

Lemma last_retried (h : list (Outcome R)) :
  Forall retried h ->
  last h = None \/ exists e, last h = Some (Throw e) /\ shouldRetry (retry options) e = true.
Proof.
  intros Hall. destruct h as [|o h] using rev_ind; [left; reflexivity|].
  right. apply Forall_app in Hall as [_ Hlast].
  apply Forall_singleton in Hlast as (e & -> & He).
  exists e. rewrite last_snoc. auto.
Qed.

Lemma result_of_retried (h : list (Outcome R)) :
  Forall retried h -> result_of h = None.
Proof.
  intros Hall. unfold result_of.
  destruct (last_retried h Hall) as [->|(e & -> & _)]; reflexivity.
Qed.

Lemma final_error_retried (h : list (Outcome R)) :
  Forall retried h -> (Z.of_nat (length h) <= retries (retry options))%Z ->
  final_error h = None.
Proof.
  intros Hall Hlen. unfold final_error.
  destruct (last_retried h Hall) as [->|(e & -> & ->)]; [reflexivity|].
  cbn [negb orb].
  destruct (retries (retry options) + 1 <=? Z.of_nat (length h))%Z eqn:Hle;
    [apply Z.leb_le in Hle; lia|reflexivity].
Qed.

Lemma final_error_done (h : list (Outcome R)) :
  item_done h -> final_error h = error_of h.
Proof.
  intros (pre & final & -> & _ & Hlen & Hfinal).
  unfold final_error, error_of. rewrite last_snoc.
  destruct final as [r|e]; [reflexivity|].
  rewrite length_app. cbn [length].
  destruct Hfinal as [->|Hfull]; [reflexivity|].
  assert ((retries (retry options) + 1 <=? Z.of_nat (length pre + 1))%Z = true) as ->
    by (apply Z.leb_le; lia).
  rewrite orb_true_r. reflexivity.
Qed.

Lemma omap_ext_in {A B : Type} (f g : A -> option B) (l : list A) :
  (forall x, x ∈ l -> f x = g x) -> omap f l = omap g l.
Proof.
  induction l as [|x l IH]; intros Hfg; [reflexivity|].
  cbn [omap list_omap]. rewrite (Hfg x) by apply list_elem_of_here.
  rewrite IH; [reflexivity|]. intros y Hy. apply Hfg, list_elem_of_further, Hy.
Qed.

(** One more value at [i], where there was none. *)
Lemma omap_gains {A B : Type} `{EqDecision A} (f g : A -> option B) (l : list A) (i : A) (b : B) :
  NoDup l -> i ∈ l -> f i = None -> g i = Some b ->
  (forall j, j <> i -> g j = f j) ->
  omap g l ≡ₚ omap f l ++ [b].
Proof.
  intros Hnd Hin Hf Hg Hrest. induction l as [|x l IH]; [inversion Hin|].
  apply NoDup_cons in Hnd as [Hx Hnd]. cbn [omap list_omap].
  destruct (decide (x = i)) as [->|Hne].
  - rewrite Hf, Hg. rewrite (omap_ext_in g f l).
    + apply Permutation_cons_append.
    + intros y Hy. apply Hrest. intros ->. contradiction.
  - rewrite (Hrest x Hne). apply elem_of_cons in Hin as [Heq|Hin]; [congruence|].
    destruct (f x); [cbn; apply Permutation_skip|]; apply IH; assumption.
Qed.

Lemma indexed_lookup (items : list T) (i j : nat) (x : T) :
  indexed items !! i = Some (x, j) -> items !! i = Some x /\ j = i.
Proof.
  unfold indexed. intros Hl.
  apply lookup_zip_with_Some in Hl as (x' & j' & Heq & Hx & Hj).
  inversion Heq; subst. apply lookup_seq in Hj as [-> _]. auto.
Qed.

Lemma outcomes_of_other (j i : nat) (o : Outcome R) (l : Log) :
  j <> i -> outcomes_of j (l ++ [(i, o)]) = outcomes_of j l.
Proof.
  intros Hne. rewrite outcomes_of_snoc. destruct (decide (i = j)); [congruence|reflexivity].
Qed.

Lemma outcomes_of_self (i : nat) (o : Outcome R) (l : Log) :
  outcomes_of i (l ++ [(i, o)]) = outcomes_of i l ++ [o].
Proof.
  rewrite outcomes_of_snoc. destruct (decide (i = i)); [reflexivity|congruence].
Qed.

Lemma tally_keep {B : Type} (F : list (Outcome R) -> option B)
    (i : nat) (o : Outcome R) (l : Log) (L : list nat) :
  F (outcomes_of i l ++ [o]) = F (outcomes_of i l) ->
  omap (fun j => F (outcomes_of j (l ++ [(i, o)]))) L
  = omap (fun j => F (outcomes_of j l)) L.
Proof.
  intros Hsame. apply omap_ext_in. intros j _.
  destruct (decide (j = i)) as [->|Hne].
  - rewrite outcomes_of_self. exact Hsame.
  - rewrite outcomes_of_other by exact Hne. reflexivity.
Qed.

Lemma tally_gain {B : Type} (F : list (Outcome R) -> option B)
    (i : nat) (o : Outcome R) (l : Log) (L : list nat) (b : B) :
  NoDup L -> i ∈ L ->
  F (outcomes_of i l) = None -> F (outcomes_of i l ++ [o]) = Some b ->
  omap (fun j => F (outcomes_of j (l ++ [(i, o)]))) L
  ≡ₚ omap (fun j => F (outcomes_of j l)) L ++ [b].
Proof.
  intros Hnd Hin Hnone Hsome.
  apply (omap_gains (fun j => F (outcomes_of j l))
           (fun j => F (outcomes_of j (l ++ [(i, o)]))) L i b Hnd Hin Hnone).
  - rewrite outcomes_of_self. exact Hsome.
  - intros j Hne. rewrite outcomes_of_other by exact Hne. reflexivity.
Qed.

(** The other running handlers work on other items. *)
Lemma delete_other_index (a : list (Task T)) (k : nat) (t t' : Task T) :
  NoDup (t_index <$> a) -> a !! k = Some t -> t' ∈ delete k a ->
  t' ∈ a /\ t_index t' <> t_index t.
Proof.
  intros Hnd Hk Hin. pose proof (delete_Permutation a k t Hk) as Hperm.
  split.
  - rewrite Hperm. apply list_elem_of_further. exact Hin.
  - rewrite Hperm in Hnd. rewrite fmap_cons in Hnd.
    apply NoDup_cons in Hnd as [Hnot _]. intros Heq. apply Hnot.
    rewrite <- Heq. apply list_elem_of_fmap. exists t'. auto.
Qed.

Lemma delete_index_elem (a : list (Task T)) (k : nat) (t : Task T) (j : nat) :
  a !! k = Some t -> j ∈ t_index <$> a ->
  j = t_index t \/ j ∈ t_index <$> delete k a.
Proof.
  intros Hk Hin. rewrite (delete_Permutation a k t Hk), fmap_cons in Hin.
  apply elem_of_cons in Hin. exact Hin.
Qed.

Section Invariant.
Variable items : list T.
Hypothesis budget_nonneg : (0 <= retries (retry options))%Z.
Hypothesis progress_returns :
  forall cb, onProgress options = Some cb ->
  forall c t errs w, exists w', cb c t errs w = (Ok tt, w').

(** A handler in flight has only failed so far, once for each attempt
    it has made. *)
Definition task_ok (m : nat) (l : Log) (t : Task T) : Prop :=
  (t_index t < m)%nat /\ items !! t_index t = Some (t_item t) /\
  (0 <= t_attempt t <= retries (retry options))%Z /\
  Forall retried (outcomes_of (t_index t) l) /\
  length (outcomes_of (t_index t) l) = Z.to_nat (t_attempt t).

(** The first [m] items have been started; those no longer running are
    done. *)
Definition started (m : nat) (q : list (T * nat)) (a : list (Task T)) (l : Log) : Prop :=
  q = drop m (indexed items) /\
  NoDup (t_index <$> a) /\
  Forall (task_ok m l) a /\
  (forall i, (m <= i)%nat -> outcomes_of i l = []) /\
  (forall i, (i < m)%nat -> i ∉ t_index <$> a -> item_done (outcomes_of i l)).

(** Each log entry is a call of the worker on the item at its index. *)
Definition entry_ok (e : nat * Outcome R) : Prop :=
  exists x w0, items !! fst e = Some x /\ fst (fn x (fst e) w0) = snd e.

Definition pool_inv (s : PoolState T R W) (l : Log) : Prop :=
  (exists m, started m (queue s) (active s) l) /\
  results s ≡ₚ omap (fun i => result_of (outcomes_of i l)) (seq 0 (length items)) /\
  allErrors s ≡ₚ omap (fun i => final_error (outcomes_of i l)) (seq 0 (length items)) /\
  Forall entry_ok l.

Lemma task_ok_mono (m m' : nat) (l : Log) (t : Task T) :
  (m <= m')%nat -> task_ok m l t -> task_ok m' l t.
Proof. unfold task_ok. intros Hm (H1 & H2); split; [lia|exact H2]. Qed.

Lemma refill_started (c : nat) (q : list (T * nat)) (a : list (Task T)) (l : Log) q' a' :
  refill c q a = (q', a') ->
  forall m, started m q a l -> exists m', started m' q' a' l.
Proof using budget_nonneg.
  revert a. induction q as [|x q IH]; intros a Hr m Hs; cbn [refill] in Hr.
  - inversion Hr; subst. exists m. exact Hs.
  - destruct (length a <? c)%nat; [|inversion Hr; subst; exists m; exact Hs].
    apply (IH _ Hr (S m)). clear IH Hr.
    destruct Hs as (Hq & Hnd & Hall & Hfresh & Hdone).
    assert (indexed items !! m = Some x) as Hx.
    { rewrite <- (Nat.add_0_r m), <- lookup_drop, <- Hq. reflexivity. }
    destruct x as [x j]. apply indexed_lookup in Hx as Hx'. destruct Hx' as [Hitem ->].
    assert (forall t, t ∈ a -> (t_index t < m)%nat) as Hlt.
    { intros t Ht. eapply Forall_forall in Hall; [|exact Ht]. apply Hall. }
    split; [|split; [|split; [|split]]].
    + rewrite (drop_S _ _ _ Hx) in Hq. inversion Hq. reflexivity.
    + rewrite fmap_app. apply NoDup_app. split; [exact Hnd|]. split.
      * intros i Hi Hi'. apply list_elem_of_singleton in Hi'. cbn in Hi'. subst i.
        apply list_elem_of_fmap in Hi as (t & Heq & Ht). apply Hlt in Ht. lia.
      * apply NoDup_singleton.
    + apply Forall_app. split.
      * eapply Forall_impl; [exact Hall|]. intros t. apply task_ok_mono. lia.
      * apply Forall_singleton. unfold task_ok, start_task. cbn [t_index t_item t_attempt fst snd].
        rewrite (Hfresh m) by lia.
        split; [lia|]. split; [exact Hitem|]. split; [lia|]. split; [constructor|reflexivity].
    + intros i Hi. apply Hfresh. lia.
    + intros i Hi Hnot. rewrite fmap_app in Hnot.
      apply not_elem_of_app in Hnot as [Hnot Hnew].
      assert (i <> m) as Hne.
      { intros ->. apply Hnew. apply list_elem_of_singleton. reflexivity. }
      apply Hdone; [lia|exact Hnot].
Qed.

(** One pass of the retry loop on the world with the log. *)
Lemma iteration_logged (x : T) (i : nat) (attempt : Z) (le : JsError) (w : W) (l : Log) :
  (attempt <= retries (retry options))%Z ->
  withRetry_iteration (logged x i) (lift_options (retry options)) attempt le (w, l)
  = (fst (withRetry_iteration (fn x i) (retry options) attempt le w),
     (snd (withRetry_iteration (fn x i) (retry options) attempt le w),
      l ++ [(i, fst (fn x i w))])).
Proof.
  intros Hle. apply Z.leb_le in Hle. unfold withRetry_iteration, logged.
  cbn [lift_options retries shouldRetry onRetry fst snd]. rewrite Hle.
  destruct (fn x i w) as [[r|e] w1]; [reflexivity|]. cbn [fst snd].
  destruct (negb (shouldRetry (retry options) e)); [reflexivity|].
  destruct (attempt + 1 >? retries (retry options))%Z; [reflexivity|].
  cbn [math_random delay aside_runtime fst snd].
  destruct (math_random (onRetry (retry options) e (attempt + 1) w1)) as [rq w3].
  reflexivity.
Qed.

(** What a pass tells of the call it made. *)
Lemma iteration_outcome (x : T) (i : nat) (attempt : Z) (le : JsError) (w : W) :
  (attempt <= retries (retry options))%Z ->
  match fst (withRetry_iteration (fn x i) (retry options) attempt le w) with
  | IterReturn r => fst (fn x i w) = Ok r
  | IterThrow e =>
    fst (fn x i w) = Throw e /\
    (shouldRetry (retry options) e = false \/ attempt = retries (retry options))
  | IterAgain attempt' e =>
    fst (fn x i w) = Throw e /\ shouldRetry (retry options) e = true /\
    attempt' = (attempt + 1)%Z /\ (attempt + 1 <= retries (retry options))%Z
  end.
Proof.
  intros Hle. unfold withRetry_iteration.
  assert ((attempt <=? retries (retry options))%Z = true) as -> by (apply Z.leb_le; lia).
  destruct (fn x i w) as [[r|e] w1]; [reflexivity|]. cbn [fst snd].
  destruct (shouldRetry (retry options) e) eqn:Hsr; cbn [negb];
    [|cbn [fst]; auto].
  destruct (attempt + 1 >? retries (retry options))%Z eqn:Hgt.
  - cbn [fst]. split; [reflexivity|]. right. apply Z.gtb_lt in Hgt. lia.
  - destruct (math_random _) as [rq w3]. cbn [fst].
    rewrite Z.gtb_ltb in Hgt. apply Z.ltb_ge in Hgt. auto.
Qed.

Lemma pool_step_idle_logged (total choice : nat) (s : PoolState T R W) (l : Log) :
  pool_step fn options total choice s = None ->
  pool_step logged logged_options total choice (lift_state s l) = None.
Proof.
  clear budget_nonneg progress_returns.
  unfold pool_step. cbn [lift_state queue active concurrency logged_options].
  destruct (refill _ (queue s) (active s)) as [q a].
  destruct (a !! _) as [t|]; [|reflexivity].
  intros Hs. exfalso.
  destruct (withRetry_iteration _ _ _ _ _) as [[r|err|att e] w']; try discriminate.
  destruct (onProgress options) as [cb|]; [|discriminate].
  destruct (cb _ _ _ _) as [[u|err] w'']; discriminate.
Qed.

Lemma pool_step_logged (total choice : nat) (s s' : PoolState T R W) (l : Log) :
  pool_inv s l ->
  pool_step fn options total choice s = Some s' ->
  exists l',
    pool_step logged logged_options total choice (lift_state s l)
    = Some (lift_state s' l') /\
    pool_inv s' l'.
Proof using budget_nonneg progress_returns.
  intros ((m0 & Hst) & Hres & Herr & Hlog) Hs.
  unfold pool_step in *.
  cbn [lift_state queue active concurrency logged_options world results
       allErrors completed retry onProgress].
  destruct (refill _ (queue s) (active s)) as [q a] eqn:Hr.
  destruct (refill_started _ _ _ l _ _ Hr m0 Hst) as (m & Hq & Hnd & Hall & Hfresh & Hdone).
  clear Hr Hst m0.
  set (k := (choice mod length a)%nat) in *.
  destruct (a !! k) as [t|] eqn:Hk; [|discriminate].
  assert (task_ok m l t) as (Hlt & Hitem & Hatt & Hold & Hlen)
    by (eapply Forall_lookup_1; eauto).
  rewrite iteration_logged by lia.
  pose proof (iteration_outcome (t_item t) (t_index t) (t_attempt t) (t_lastError t)
                (world s) ltac:(lia)) as Hout.
  set (o := fst (fn (t_item t) (t_index t) (world s))) in *.
  set (l' := l ++ [(t_index t, o)]).
  assert (Forall entry_ok l') as Hlog'.
  { apply Forall_app. split; [exact Hlog|]. apply Forall_singleton.
    exists (t_item t), (world s). split; [exact Hitem|reflexivity]. }
  assert (t_index t ∈ seq 0 (length items)) as Hin.
  { apply elem_of_seq. apply lookup_lt_Some in Hitem. lia. }
  assert (t_index t ∈ t_index <$> a) as Hrunning.
  { apply list_elem_of_fmap. exists t. split; [reflexivity|].
    eapply list_elem_of_lookup_2. exact Hk. }
  assert (forall t', t' ∈ delete k a -> task_ok m l' t') as Hothers.
  { intros t' Ht'. destruct (delete_other_index a k t t' Hnd Hk Ht') as [Hin' Hne].
    eapply Forall_forall in Hall; [|exact Hin'].
    unfold task_ok, l'. rewrite outcomes_of_other by exact Hne. exact Hall. }
  assert (forall i, (m <= i)%nat -> outcomes_of i l' = []) as Hfresh'.
  { intros i Hi. unfold l'. rewrite outcomes_of_other by lia. apply Hfresh, Hi. }
  assert (item_done (outcomes_of (t_index t) l') ->
          started m q (delete k a) l') as Hleaves.
  { intros Hfinal. split; [exact Hq|]. split; [|split; [|split]].
    - rewrite list_fmap_delete. eapply sublist_NoDup; [exact Hnd|apply sublist_delete].
    - apply Forall_forall. exact Hothers.
    - exact Hfresh'.
    - intros i Hi Hnot. destruct (decide (i = t_index t)) as [->|Hne]; [exact Hfinal|].
      unfold l'. rewrite outcomes_of_other by exact Hne. apply Hdone; [exact Hi|].
      intros Hi'. destruct (delete_index_elem a k t i Hk Hi'); [congruence|contradiction]. }
  destruct (withRetry_iteration (fn (t_item t) (t_index t)) (retry options)
              (t_attempt t) (t_lastError t) (world s)) as [[r|e|att e] w'];
    cbn [fst snd] in *.
  - (* the handler returns *)
    assert (forall c w'',
              pool_inv (mkPoolState q (delete k a) (results s ++ [r]) (allErrors s) c w'') l')
      as Hinv.
    { intros c w''. split; [exists m; apply Hleaves|split; [|split]];
        cbn [queue active results allErrors].
      - unfold l'. rewrite outcomes_of_self, Hout.
        exists (outcomes_of (t_index t) l), (Ok r).
        split; [reflexivity|]. split; [exact Hold|]. split; [lia|exact I].
      - unfold l'. rewrite tally_gain with (b := r);
          [rewrite Hres; reflexivity|apply NoDup_seq|exact Hin| |].
        + apply result_of_retried. exact Hold.
        + rewrite Hout. unfold result_of. rewrite last_snoc. reflexivity.
      - unfold l'. rewrite tally_keep; [exact Herr|].
        rewrite Hout. rewrite (final_error_retried _ Hold) by lia.
        unfold final_error. rewrite last_snoc. reflexivity.
      - exact Hlog'. }
    destruct (onProgress options) as [cb|] eqn:Hcb; cbn [option_map].
    + destruct (progress_returns cb eq_refl (S (completed s)) total (allErrors s) w')
        as [w'' Hret].
      rewrite Hret in Hs. unfold untick. cbn [fst snd]. rewrite Hret.
      inversion Hs; subst s'. exists l'. split; [reflexivity|apply Hinv].
    + inversion Hs; subst s'. exists l'. split; [reflexivity|apply Hinv].
  - (* the handler throws *)
    destruct Hout as [Hout Hterminal].
    inversion Hs; subst s'. exists l'. split; [reflexivity|].
    split; [exists m; apply Hleaves|split; [|split]];
      cbn [queue active results allErrors].
    + unfold l'. rewrite outcomes_of_self, Hout.
      exists (outcomes_of (t_index t) l), (Throw e).
      split; [reflexivity|]. split; [exact Hold|]. split; [lia|].
      destruct Hterminal as [Hno|Hfull]; [left; exact Hno|right; lia].
    + unfold l'. rewrite tally_keep; [exact Hres|].
      rewrite Hout. rewrite (result_of_retried _ Hold).
      unfold result_of. rewrite last_snoc. reflexivity.
    + unfold l'. rewrite tally_gain with (b := e);
        [rewrite Herr; reflexivity|apply NoDup_seq|exact Hin| |].
      * apply final_error_retried; [exact Hold|lia].
      * rewrite Hout. unfold final_error. rewrite last_snoc, length_app. cbn [length].
        destruct Hterminal as [->|Hfull]; [reflexivity|].
        assert ((retries (retry options) + 1
                 <=? Z.of_nat (length (outcomes_of (t_index t) l) + 1))%Z = true) as ->
          by (apply Z.leb_le; lia).
        rewrite orb_true_r. reflexivity.
    + exact Hlog'.
  - (* the handler goes round again *)
    destruct Hout as (Hout & Hsr & -> & Hle).
    inversion Hs; subst s'. exists l'. split; [reflexivity|].
    assert (Forall retried (outcomes_of (t_index t) l ++ [o])) as Hold'.
    { apply Forall_app. split; [exact Hold|]. apply Forall_singleton.
      exists e. auto. }
    split; [exists m; split; [exact Hq|split; [|split; [|split]]]|split; [|split]];
      cbn [queue active results allErrors].
    + rewrite list_fmap_insert. cbn [t_index].
      rewrite list_insert_id; [exact Hnd|]. rewrite list_lookup_fmap, Hk. reflexivity.
    + apply Forall_lookup. intros k' t' Hk'.
      apply list_lookup_insert_Some in Hk' as [(<- & <- & _)|(Hne & Hk')].
      * unfold task_ok, l'. cbn [t_index t_item t_attempt].
        rewrite outcomes_of_self. split; [exact Hlt|]. split; [exact Hitem|].
        split; [lia|]. split; [exact Hold'|].
        rewrite length_app. cbn [length]. lia.
      * apply Hothers.
        assert (a ≡ₚ t :: delete k a) as Hperm by (apply delete_Permutation, Hk).
        assert (t' ∈ a) as Hin' by (eapply list_elem_of_lookup_2; exact Hk').
        rewrite Hperm in Hin'. apply elem_of_cons in Hin' as [->|Hin']; [|exact Hin'].
        exfalso. apply Hne. eapply NoDup_lookup; [exact Hnd| |];
          rewrite list_lookup_fmap; [rewrite Hk|rewrite Hk']; reflexivity.
    + exact Hfresh'.
    + intros i Hi Hnot. rewrite list_fmap_insert in Hnot. cbn [t_index] in Hnot.
      rewrite list_insert_id in Hnot by (rewrite list_lookup_fmap, Hk; reflexivity).
      assert (i <> t_index t) as Hne by (intros ->; contradiction).
      unfold l'. rewrite outcomes_of_other by exact Hne. apply Hdone; assumption.
    + unfold l'. rewrite tally_keep; [exact Hres|].
      rewrite (result_of_retried _ Hold'), (result_of_retried _ Hold). reflexivity.
    + unfold l'. rewrite tally_keep; [exact Herr|].
      rewrite (final_error_retried _ Hold) by lia.
      apply final_error_retried; [exact Hold'|].
      rewrite length_app. cbn [length]. lia.
    + exact Hlog'.
Qed.

Lemma pool_run_logged (total : nat) (sched : nat -> nat) (step : nat)
    (s : PoolState T R W) (l : Log) :
  pool_inv s l ->
  exists l',
    pool_run logged logged_options total sched step (lift_state s l)
    = lift_state (pool_run fn options total sched step s) l' /\
    pool_inv (pool_run fn options total sched step s) l'.
Proof using budget_nonneg progress_returns.
  revert l. funelim (pool_run fn options total sched step s); intros l Hinv.
  - destruct (pool_step_logged _ _ _ _ _ Hinv Hs) as (l1 & Hstep & Hinv1).
    destruct (H0 l1 Hinv1) as (l' & Hrun & Hinv').
    exists l'. split; [|exact Hinv'].
    rewrite pool_run_unfold, Hstep. exact Hrun.
  - exists l. split; [|exact Hinv].
    rewrite pool_run_unfold, pool_step_idle_logged; [reflexivity|eassumption].
Qed.

(** What [processBatch] did with each item, read off the log of the
    worker's calls. *)
Lemma processBatch_log (sched : nat -> nat) (w : W) :
  (1 <= concurrency options)%Z ->
  exists out w' log,
    processBatch items fn options sched w = (Ok out, w') /\
    processBatch items logged logged_options sched (w, []) = (Ok out, (w', log)) /\
    Forall entry_ok log /\
    (forall i, (i < length items)%nat -> item_done (outcomes_of i log)) /\
    out_results out
      ≡ₚ omap (fun i => result_of (outcomes_of i log)) (seq 0 (length items)) /\
    out_errors out
      ≡ₚ omap (fun i => error_of (outcomes_of i log)) (seq 0 (length items)).
Proof using budget_nonneg progress_returns.
  intros Hc. unfold processBatch. cbn [concurrency logged_options].
  destruct (concurrency options <? 1)%Z eqn:Hlt; [apply Z.ltb_lt in Hlt; lia|].
  set (s0 := mkPoolState (indexed items) [] [] [] 0 w).
  change (mkPoolState (indexed items) [] [] [] 0 (w, []))
    with (lift_state s0 ([] : Log)).
  assert (pool_inv s0 []) as Hinv0.
  { split; [exists 0%nat; split; [reflexivity|]|].
    - split; [constructor|]. split; [constructor|]. split; [reflexivity|]. lia.
    - cbn [results allErrors s0]. unfold outcomes_of, result_of, final_error.
      cbn. rewrite !omap_nothing. split; [reflexivity|]. split; [reflexivity|constructor]. }
  destruct (pool_run_logged (length items) sched 0 s0 [] Hinv0)
    as (log & Hrun & (m & Hq & _ & _ & _ & Hdone) & Hres & Herr & Hlog).
  destruct (pool_run_rest fn options (length items) (fun _ => True) sched 0%nat s0)
    as [_ [choice Hidle]]; [auto|exact I|].
  apply pool_step_idle in Hidle as [Hqueue Hactive]; [|exact Hc].
  set (s1 := pool_run fn options (length items) sched 0 s0) in *.
  assert (forall i, (i < length items)%nat -> item_done (outcomes_of i log)) as Hall.
  { intros i Hi. apply Hdone.
    - rewrite Hqueue in Hq. symmetry in Hq. apply drop_nil_inv in Hq.
      unfold indexed in Hq. rewrite length_zip_with, length_seq in Hq. lia.
    - rewrite Hactive. apply not_elem_of_nil. }
  exists (mkBatchOutcome (results s1) (allErrors s1 ++ [])), (world s1), log.
  split; [reflexivity|]. split; [rewrite Hrun; reflexivity|].
  split; [exact Hlog|]. split; [exact Hall|].
  cbn [out_results out_errors]. split; [exact Hres|].
  rewrite app_nil_r, Herr. erewrite omap_ext_in; [reflexivity|].
  intros i Hi. apply final_error_done, Hall. apply elem_of_seq in Hi. lia.
Qed.

End Invariant.
End Log.


(** C1. For every list of items and every worker, [processBatch] with a
    valid concurrency returns (it does not throw) an outcome in which the
    results and the errors together number the items.  With [retries]
    not negative and an [onProgress] that returns, the calls of the
    worker account for each item by itself: the worker is only called on
    the items of the list; for every item it is called again after each
    failure that [shouldRetry] accepts, at most [retries] times, until a
    call returns or fails for good; the results are the values of the
    items whose last call returned, and the errors are the errors of the
    items whose last call failed, which is either an error that is not to
    be retried or the failure of call number [retries + 1].  So a worker
    that fails and then succeeds within its budget yields a result, an
    error is recorded only after the budget is used (or for an error
    that is not retried), and a failing item takes no sibling with it:
    when the worker's outcome depends on the item alone, the results are
    exactly the items that succeed. *)
Theorem processBatch_one_outcome_per_item {T R W : Type} `{RT : Runtime W}
    (items : list T) (fn : T -> nat -> Async W R)
    (options : ProcessBatchOptions T R W) (sched : nat -> nat) (w : W) :
  (1 <= concurrency options)%Z ->
  (exists out w',
     processBatch items fn options sched w = (Ok out, w') /\
     (length (out_results out) + length (out_errors out) = length items)%nat)
  /\
  ((0 <= retries (retry options))%Z ->
   (forall cb, onProgress options = Some cb ->
      forall c t errs w0, exists w1, cb c t errs w0 = (Ok tt, w1)) ->
   (exists out w' log,
      processBatch items fn options sched w = (Ok out, w') /\
      @processBatch T R (W * list (nat * Outcome R)) Counting.aside_runtime
        items (logged fn) (logged_options options) sched (w, []) = (Ok out, (w', log)) /\
      Forall (entry_ok fn items) log /\
      (forall i, (i < length items)%nat -> item_done options (outcomes_of i log)) /\
      out_results out
        ≡ₚ omap (fun i => result_of (outcomes_of i log)) (seq 0 (length items)) /\
      out_errors out
        ≡ₚ omap (fun i => error_of (outcomes_of i log)) (seq 0 (length items)))
   /\
   (forall f : T -> nat -> Outcome R,
      (forall x i w0, fst (fn x i w0) = f x i) ->
      exists out w',
        processBatch items fn options sched w = (Ok out, w') /\
        length (out_results out)
          = length (filter (fun x => succeeds f x) (indexed items)) /\
        length (out_errors out)
          = length (filter (fun x => negb (succeeds f x)) (indexed items)))).
Proof.
  intros Hc. split.
  - apply processBatch_accounts. exact Hc.
  - intros Hret Hcb. split.
    + apply processBatch_log; assumption.
    + intros f Hpure. apply processBatch_isolates; assumption.
Qed.

Lemma processBatch_one_outcome_per_item_witness :
  (exists out w',
     processBatch ["a"; "flaky"; "bad"] Scenario.flaky_worker
       Scenario.default_batch_options (fun n => n) 0%nat = (Ok out, w') /\
     (length (out_results out) + length (out_errors out) = 3)%nat)
  /\
  (exists out w' log,
     processBatch ["a"; "flaky"; "bad"] Scenario.flaky_worker
       Scenario.default_batch_options (fun n => n) 0%nat = (Ok out, w') /\
     @processBatch string string (nat * list (nat * Outcome string)) Counting.aside_runtime
       ["a"; "flaky"; "bad"] (logged Scenario.flaky_worker)
       (logged_options Scenario.default_batch_options) (fun n => n) (0%nat, [])
     = (Ok out, (w', log)) /\
     (forall i, (i < 3)%nat ->
        item_done Scenario.default_batch_options (outcomes_of i log)) /\
     out_results out ≡ₚ omap (fun i => result_of (outcomes_of i log)) [0; 1; 2]%nat /\
     out_errors out ≡ₚ omap (fun i => error_of (outcomes_of i log)) [0; 1; 2]%nat).
Proof.
  pose proof (processBatch_one_outcome_per_item ["a"; "flaky"; "bad"]
                Scenario.flaky_worker Scenario.default_batch_options
                (fun n => n) 0%nat) as Hthm.
  destruct Hthm as [Hcount Hcalls]; [simpl; lia|].
  split; [exact Hcount|].
  destruct Hcalls as [(out & w' & log & Hrun & Hlogged & _ & Hdone & Hres & Herr) _];
    [simpl; lia|intros cb Hcb; discriminate Hcb|].
  exists out, w', log. split; [exact Hrun|]. split; [exact Hlogged|].
  split; [exact Hdone|]. split; [exact Hres|exact Herr].
Defined.

(** On that batch: [a] returns at its first call, [flaky] fails once
    and then returns, and [bad] is given up after its fourth call; the
    siblings of [bad] are results. *)
Lemma processBatch_flaky_example :
  exists w' log,
    @processBatch string string (nat * list (nat * Outcome string)) Counting.aside_runtime
      ["a"; "flaky"; "bad"] (logged Scenario.flaky_worker)
      (logged_options Scenario.default_batch_options) (fun n => n) (0%nat, [])
    = (Ok (mkBatchOutcome ["a"; "flaky"] [newError "malformed URL"]), (w', log)) /\
    outcomes_of 0 log = [Ok "a"] /\
    outcomes_of 1 log = [Throw (newError "network timeout"); Ok "flaky"] /\
    outcomes_of 2 log = replicate 4 (Throw (newError "malformed URL")).
Proof. eexists _, _. split; [vm_compute; reflexivity|]. repeat split. Qed.

End RetryFacts.

(** ** Retry delays *)
Module DelayFacts.
Import InfoErrorHandler.

Lemma jitter_range (r : Q) :
  (0 <= r)%Q -> (r < 1)%Q ->
  (1 - (4 # 10) / 2 <= jitter r)%Q /\ (jitter r <= 1 + (4 # 10) / 2)%Q.
Proof.
  intros H0 H1. destruct r as [a b].
  unfold jitter, Qle, Qlt, Qplus, Qmult, Qminus, Qdiv, Qopp, Qinv in *.
  simpl in *. lia.
Qed.

Lemma default_delays_monotone (i j : Z) :
  (1 <= i <= j)%Z -> (j <= 5)%Z ->
  (calculateRetryDelay i DEFAULT_RETRY_CONFIG (1 # 2)
   <= calculateRetryDelay j DEFAULT_RETRY_CONFIG (1 # 2))%Q /\
  (calculateRetryDelay j DEFAULT_RETRY_CONFIG (1 # 2) <= 15000 # 1)%Q.
Proof.
  intros Hij Hj.
  assert (i = 1 \/ i = 2 \/ i = 3 \/ i = 4 \/ i = 5)%Z as Hi by lia.
  assert (j = 1 \/ j = 2 \/ j = 3 \/ j = 4 \/ j = 5)%Z as Hj' by lia.
  destruct Hi as [->|[->|[->|[->| ->]]]];
    destruct Hj' as [->|[->|[->|[->| ->]]]];
    try lia; split; vm_compute; discriminate.
Qed.

(** C7. For every attempt [n >= 1] and every draw [r] of [Math.random()]
    in [0, 1), the delay computed by [calculateRetryDelay] and by
    [calculateDelay] is [min(maxDelay, baseDelay * factor^(n-1) * jitter)]
    with the jitter within [1 - 0.4/2, 1 + 0.4/2] (the code's fixed jitter
    ratio is 0.4), so it never exceeds [maxDelay]; and with the jitter at
    one, [baseDelay = 1000], [factor = 2], [maxDelay = 15000], the delays
    of attempts 1 to 5 are 1000, 2000, 4000, 8000, 15000: non-decreasing
    and capped at 15000. *)
Theorem retry_delay_formula {W : Type} (n : Z) (r : Q)
    (config : RetryConfig) (options : Retry.RetryOptions W) :
  (1 <= n)%Z -> (0 <= r)%Q -> (r < 1)%Q ->
  ((1 - (4 # 10) / 2 <= jitter r)%Q /\ (jitter r <= 1 + (4 # 10) / 2)%Q) /\
  (calculateRetryDelay n config r
   == Qmin (maxDelay config)
           (baseDelay config * factor config ^ (n - 1) * jitter r))%Q /\
  (calculateRetryDelay n config r <= maxDelay config)%Q /\
  (Retry.calculateDelay n options r
   == Qmin (Retry.maxDelay options)
           (Retry.minDelay options * Retry.factor options ^ (n - 1) * jitter r))%Q /\
  (Retry.calculateDelay n options r <= Retry.maxDelay options)%Q /\
  map (fun k => Qred (calculateRetryDelay k DEFAULT_RETRY_CONFIG (1 # 2)))
      [1; 2; 3; 4; 5]%Z
    = [1000 # 1; 2000 # 1; 4000 # 1; 8000 # 1; 15000 # 1]%Q /\
  (forall i j : Z, (1 <= i <= j)%Z -> (j <= 5)%Z ->
     (calculateRetryDelay i DEFAULT_RETRY_CONFIG (1 # 2)
      <= calculateRetryDelay j DEFAULT_RETRY_CONFIG (1 # 2))%Q /\
     (calculateRetryDelay j DEFAULT_RETRY_CONFIG (1 # 2) <= 15000 # 1)%Q).
Proof.
  intros Hn H0 H1.
  split; [apply jitter_range; assumption|].
  split; [unfold calculateRetryDelay; apply Q.min_comm|].
  split; [unfold calculateRetryDelay; apply Q.le_min_r|].
  split; [unfold Retry.calculateDelay, jitter; apply Q.min_comm|].
  split; [unfold Retry.calculateDelay; apply Q.le_min_r|].
  split; [vm_compute; reflexivity|].
  apply default_delays_monotone.
Qed.

Lemma retry_delay_formula_witness :
  (calculateRetryDelay 3 DEFAULT_RETRY_CONFIG (1 # 4) <= 15000 # 1)%Q /\
  (Retry.calculateDelay 3 (@Retry.DEFAULT_RETRY_OPTIONS nat) (1 # 4) <= 30000 # 1)%Q.
Proof.
  destruct (@retry_delay_formula nat 3 (1 # 4) DEFAULT_RETRY_CONFIG
              Retry.DEFAULT_RETRY_OPTIONS) as (_ & _ & Hcap & _ & Hcap' & _).
  - lia.
  - discriminate.
  - reflexivity.
  - split; [exact Hcap|exact Hcap'].
Defined.

End DelayFacts.

(** ** Retry classification *)
Module ClassificationFacts.

(** The name or the lower-cased message carries one of the transient
    markers of src/info/error-handler.ts. *)
Definition info_transient (e : JsError) : Prop :=
  (exists type, In type InfoErrorHandler.RETRYABLE_ERROR_TYPES /\
                includes (name e) type = true) \/
  (exists msg, In msg InfoErrorHandler.retryableMessages /\
               includes (toLowerCase (message e)) msg = true).

(** The lower-cased name or message carries one of the transient markers
    of src/download/error-handler.ts. *)
Definition download_transient (e : JsError) : Prop :=
  includes (toLowerCase (name e)) "network" = true \/
  exists msg, In msg ["network"; "connection"; "timeout"; "timed out";
                      "429"; "503"; "504"] /\
              includes (toLowerCase (message e)) msg = true.

(** The lower-cased message carries one of the permanent markers of
    src/download/error-handler.ts. *)
Definition download_permanent (e : JsError) : Prop :=
  exists msg, In msg ["404"; "403"; "401"; "400"; "not found"; "forbidden";
                      "unauthorized"; "bad request"; "permission denied"] /\
              includes (toLowerCase (message e)) msg = true.

Lemma info_transient_test (e : JsError) :
  info_transient e <->
  existsb (fun type => includes (name e) type) InfoErrorHandler.RETRYABLE_ERROR_TYPES
  || existsb (fun msg => includes (toLowerCase (message e)) msg)
       InfoErrorHandler.retryableMessages = true.
Proof.
  unfold info_transient. rewrite orb_true_iff, !existsb_exists. reflexivity.
Qed.

Lemma download_transient_test (e : JsError) :
  download_transient e <->
  includes (toLowerCase (name e)) "network"
  || existsb (fun msg => includes (toLowerCase (message e)) msg)
       ["network"; "connection"; "timeout"; "timed out"; "429"; "503"; "504"] = true.
Proof.
  unfold download_transient. rewrite orb_true_iff, existsb_exists. reflexivity.
Qed.

Lemma download_permanent_test (e : JsError) :
  download_permanent e <->
  existsb (fun msg => includes (toLowerCase (message e)) msg)
    ["404"; "403"; "401"; "400"; "not found"; "forbidden";
     "unauthorized"; "bad request"; "permission denied"] = true.
Proof.
  unfold download_permanent. rewrite existsb_exists. reflexivity.
Qed.

Lemma info_isRetryableError_table (e : JsError) :
  InfoErrorHandler.isRetryableError e =
  (existsb (fun type => includes (name e) type) InfoErrorHandler.RETRYABLE_ERROR_TYPES
   || existsb (fun msg => includes (toLowerCase (message e)) msg)
        InfoErrorHandler.retryableMessages)
  || match statusCode e with
     | Some sc => (sc >=? 500)%Z || (sc =? 429)%Z || (sc =? 408)%Z
     | None => false
     end.
Proof.
  unfold InfoErrorHandler.isRetryableError.
  destruct (existsb _ InfoErrorHandler.RETRYABLE_ERROR_TYPES); [reflexivity|].
  destruct (existsb _ InfoErrorHandler.retryableMessages); reflexivity.
Qed.

Lemma download_isRetryableError_table (e : JsError) :
  DownloadErrorHandler.isRetryableError e =
  (includes (toLowerCase (name e)) "network"
   || existsb (fun msg => includes (toLowerCase (message e)) msg)
        ["network"; "connection"; "timeout"; "timed out"; "429"; "503"; "504"])
  || negb (existsb (fun msg => includes (toLowerCase (message e)) msg)
             ["404"; "403"; "401"; "400"; "not found"; "forbidden";
              "unauthorized"; "bad request"; "permission denied"]).
Proof.
  unfold DownloadErrorHandler.isRetryableError. cbn [existsb].
  rewrite !orb_false_r.
  repeat match goal with
         | |- context [includes ?a ?b] =>
           let x := fresh "b" in generalize (includes a b); intros x
         end.
  repeat match goal with b : bool |- _ => destruct b end; reflexivity.
Qed.

(** C6, as the code has it.  In src/info/error-handler.ts, transient
    names and messages and the statuses 5xx, 429 and 408 are retryable,
    any other status is not (unless the name or message is transient),
    and an error that carries nothing is NOT retryable.  In
    src/download/error-handler.ts, transient markers (network,
    connection, timeout, 429, 503, 504) are retryable, otherwise the
    markers 404, 403, 401, 400 and their phrases are not, and anything
    else is retryable.  The default [shouldRetry] of src/utils/retry.ts
    retries every error. *)
Theorem retry_classification (e : JsError) :
  (info_transient e -> InfoErrorHandler.isRetryableError e = true) /\
  (forall sc, statusCode e = Some sc ->
     (500 <= sc \/ sc = 429 \/ sc = 408)%Z ->
     InfoErrorHandler.isRetryableError e = true) /\
  (forall sc, statusCode e = Some sc -> ~ info_transient e ->
     (sc < 500)%Z -> sc <> 429%Z -> sc <> 408%Z ->
     InfoErrorHandler.isRetryableError e = false) /\
  (statusCode e = None -> ~ info_transient e ->
     InfoErrorHandler.isRetryableError e = false) /\
  (download_transient e -> DownloadErrorHandler.isRetryableError e = true) /\
  (~ download_transient e -> download_permanent e ->
     DownloadErrorHandler.isRetryableError e = false) /\
  (~ download_permanent e -> DownloadErrorHandler.isRetryableError e = true) /\
  Retry.shouldRetry (@Retry.DEFAULT_RETRY_OPTIONS unit) e = true.
Proof.
  rewrite info_isRetryableError_table, download_isRetryableError_table.
  repeat split.
  - intros Ht. apply info_transient_test in Ht. rewrite Ht. reflexivity.
  - intros sc -> Hsc. apply orb_true_iff. right.
    destruct Hsc as [H|[->| ->]]; [|reflexivity|reflexivity].
    apply orb_true_iff. left. apply orb_true_iff. left. apply Z.geb_le. lia.
  - intros sc -> Hnt Hlt H429 H408. rewrite info_transient_test in Hnt.
    apply not_true_is_false in Hnt. rewrite Hnt.
    simpl. rewrite !orb_false_iff. repeat split.
    + rewrite Z.geb_leb. apply Z.leb_gt. exact Hlt.
    + apply Z.eqb_neq. exact H429.
    + apply Z.eqb_neq. exact H408.
  - intros -> Hnt. rewrite info_transient_test in Hnt.
    apply not_true_is_false in Hnt. rewrite Hnt. reflexivity.
  - intros Ht. apply download_transient_test in Ht. rewrite Ht. reflexivity.
  - intros Hnt Hp. rewrite download_transient_test in Hnt.
    apply download_permanent_test in Hp.
    apply not_true_is_false in Hnt. rewrite Hnt, Hp. reflexivity.
  - intros Hnp. rewrite download_permanent_test in Hnp.
    apply not_true_is_false in Hnp. rewrite Hnp.
    apply orb_true_r.
Qed.

Lemma retry_classification_witness :
  InfoErrorHandler.isRetryableError
    (mkJsError "Error" "HTTP 403 (Forbidden)" (Some 403%Z) None None) = false /\
  InfoErrorHandler.isRetryableError
    (mkJsError "Error" "HTTP 503" (Some 503%Z) None None) = true /\
  DownloadErrorHandler.isRetryableError (newError "HTTP 404 Not Found") = false /\
  DownloadErrorHandler.isRetryableError (newError "socket closed") = true.
Proof.
  split; [|split; [|split]].
  - destruct (retry_classification
                (mkJsError "Error" "HTTP 403 (Forbidden)" (Some 403%Z) None None))
      as (_ & _ & H & _).
    apply (H 403%Z); [reflexivity| |lia|lia|lia].
    rewrite info_transient_test. vm_compute. discriminate.
  - destruct (retry_classification (mkJsError "Error" "HTTP 503" (Some 503%Z) None None))
      as (_ & H & _).
    apply (H 503%Z); [reflexivity|lia].
  - destruct (retry_classification (newError "HTTP 404 Not Found"))
      as (_ & _ & _ & _ & _ & H & _).
    apply H.
    + rewrite download_transient_test. vm_compute. discriminate.
    + rewrite download_permanent_test. vm_compute. reflexivity.
  - destruct (retry_classification (newError "socket closed"))
      as (_ & _ & _ & _ & _ & _ & H & _).
    apply H. rewrite download_permanent_test. vm_compute. discriminate.
Defined.

(** The claim's last clause fails on src/info/error-handler.ts: an error
    with no transient name, no transient message and no status code is
    classified as not retryable; and its middle clause fails on the
    default [shouldRetry], which retries a 404. *)
Lemma retry_classification_counterexample :
  InfoErrorHandler.isRetryableError (newError "unexpected response shape") = false /\
  Retry.shouldRetry (@Retry.DEFAULT_RETRY_OPTIONS unit)
    (mkJsError "Error" "HTTP 404 (Not Found)" (Some 404%Z) None None) = true.
Proof. split; vm_compute; reflexivity. Qed.

End ClassificationFacts.

(** ** Link resolution *)
Module LinkFacts.
Import Regex LinkPatterns ResolveLinks.

Fixpoint all_chars (p : ascii -> bool) (s : string) : bool :=
  match s with
  | EmptyString => true
  | String c s' => p c && all_chars p s'
  end.

Lemma substring_full (s : string) : substring 0 (String.length s) s = s.
Proof. induction s as [|c s IH]; simpl; [reflexivity|]. rewrite IH. reflexivity. Qed.

Lemma star_all {A : Type} (p : ascii -> bool) (s : string)
    (k : string -> option A) (res : A) :
  all_chars p s = true -> k "" = Some res -> star p s k = Some res.
Proof.
  intros Hall Hk. induction s as [|c s IH]; simpl in *; [exact Hk|].
  apply andb_true_iff in Hall as [Hc Hs]. rewrite Hc, (IH Hs). reflexivity.
Qed.

(** On a non-empty run of class characters that reaches the end of the
    input, a greedy [+] takes the whole run. *)
Lemma plus_takes_all (p : ascii -> bool) (s : string) :
  s <> "" -> all_chars p s = true ->
  match s with
  | "" => None
  | String c s' =>
    if p c
    then star p s'
           (fun s'' => Some (Some (substring 0 (String.length s - String.length s'') s)))
    else None
  end = Some (Some s).
Proof.
  intros Hne Hall. destruct s as [|c s']; [congruence|].
  simpl in Hall. apply andb_true_iff in Hall as [Hc Hs]. rewrite Hc.
  apply star_all; [exact Hs|].
  change (String.length "") with 0%nat. rewrite Nat.sub_0_r, substring_full.
  reflexivity.
Qed.

Lemma search_here (r : re) (s : string) (cap : Captures) :
  match_here r s = Some cap -> search r s = Some cap.
Proof. intros Hm. destruct s; simpl; rewrite Hm; reflexivity. Qed.

Definition standard_pattern : LinkPattern :=
  mkLinkPattern "standard"
    (seqs (scheme_www ++ [Lit "douyin.com/video/"; Group (Plus digit)])) false.

Lemma standard_matches_canonical (videoId : string) :
  videoId <> "" -> all_chars digit videoId = true ->
  search (pattern standard_pattern) (createStandardUrl videoId) = Some (Some videoId).
Proof.
  intros Hne Hall. apply search_here.
  unfold match_here, createStandardUrl, standard_pattern, scheme_www.
  cbn -[star substring String.length digit].
  rewrite (plus_takes_all digit videoId Hne Hall). reflexivity.
Qed.

Lemma getLinkType_canonical (videoId : string) :
  videoId <> "" -> all_chars digit videoId = true ->
  getLinkType (createStandardUrl videoId) = Some standard_pattern.
Proof.
  intros Hne Hall. unfold getLinkType, DOUYIN_LINK_PATTERNS.
  cbn [find]. fold standard_pattern. unfold test.
  change (LinkPatterns.pattern
            (mkLinkPattern "standard"
               (seqs (scheme_www ++ [Lit "douyin.com/video/"; Group (Plus digit)]))
               false)) with (pattern standard_pattern).
  rewrite (standard_matches_canonical videoId Hne Hall). reflexivity.
Qed.

Lemma extractVideoId_canonical `{Platform} (videoId : string) :
  videoId <> "" -> all_chars digit videoId = true ->
  extractVideoId (createStandardUrl videoId) = Some videoId.
Proof.
  intros Hne Hall. unfold extractVideoId, DOUYIN_LINK_PATTERNS.
  cbn [first_group1]. unfold group1.
  change (LinkPatterns.pattern
            (mkLinkPattern "standard"
               (seqs (scheme_www ++ [Lit "douyin.com/video/"; Group (Plus digit)]))
               false)) with (pattern standard_pattern).
  rewrite (standard_matches_canonical videoId Hne Hall).
  destruct (String.eqb videoId "") eqn:Heq; [|reflexivity].
  apply String.eqb_eq in Heq. contradiction.
Qed.

(** C4. Every canonical video URL [https://www.douyin.com/video/{id}]
    (a non-empty run of digits for [id]) is a fixed point of
    normalization: [resolveLink] returns a result, makes no request, and
    the result's [standardUrl] is the input. *)
Theorem resolveLink_canonical_fixed_point {W : Type}
    `{RT : Runtime W} `{NW : Network W} `{PF : Platform}
    (videoId : string) (options : ParseOptions) (w : W) :
  videoId <> "" -> all_chars digit videoId = true ->
  exists r,
    resolveLink (createStandardUrl videoId) options w = (Some r, w) /\
    standardUrl r = createStandardUrl videoId /\
    id r = videoId /\
    originalUrl r = createStandardUrl videoId /\
    type r = video.
Proof.
  intros Hne Hall. unfold resolveLink.
  rewrite (getLinkType_canonical videoId Hne Hall).
  cbn [needsRedirect standard_pattern].
  rewrite (extractVideoId_canonical videoId Hne Hall).
  eexists. split; [reflexivity|].
  cbn [standardUrl id originalUrl type].
  rewrite (getLinkType_canonical videoId Hne Hall).
  repeat split; reflexivity.
Qed.

Lemma resolveLink_canonical_fixed_point_witness :
  exists r,
    @resolveLink Scenario.NetWorld _ (Scenario.scripted_network []) _
      "https://www.douyin.com/video/7123456789"
      (mkParseOptions None None) (Scenario.mkNetWorld 0 0)
    = (Some r, Scenario.mkNetWorld 0 0) /\
    standardUrl r = "https://www.douyin.com/video/7123456789".
Proof.
  destruct (@resolveLink_canonical_fixed_point Scenario.NetWorld _
              (Scenario.scripted_network []) _
              "7123456789" (mkParseOptions None None) (Scenario.mkNetWorld 0 0))
    as (r & Hr & Hs & _).
  - discriminate.
  - reflexivity.
  - exists r. split; [exact Hr|exact Hs].
Defined.

(** What does hold of every result of [resolveLink]: it keeps the input
    as [originalUrl]; for an input that needs no redirect, [standardUrl]
    is [createStandardUrl id] with [id] extracted from the input; for an
    input that needs a redirect, [standardUrl] is whatever
    [resolveShortUrl] returned, and [id] is what [extractVideoId] finds in
    that [standardUrl]. *)
Lemma resolveLink_result_shape {W : Type}
    `{RT : Runtime W} `{NW : Network W} `{PF : Platform}
    (url : string) (options : ParseOptions) (w w' : W) (r : ParseResult) :
  resolveLink url options w = (Some r, w') ->
  originalUrl r = url /\
  exists linkType,
    getLinkType url = Some linkType /\
    (needsRedirect linkType = false ->
       extractVideoId url = Some (id r) /\
       standardUrl r = createStandardUrl (id r)) /\
    (needsRedirect linkType = true ->
       resolveShortUrl url options w = (Some (standardUrl r), w') /\
       extractVideoId (standardUrl r) = Some (id r)).
Proof.
  unfold resolveLink. intros Hr.
  destruct (getLinkType url) as [linkType|] eqn:Hlt; [|discriminate].
  destruct (needsRedirect linkType) eqn:Hnr.
  - destruct (resolveShortUrl url options w) as [[su|] w1] eqn:Hsu; [|discriminate].
    destruct (extractVideoId su) as [videoId|] eqn:Hid; [|discriminate].
    inversion Hr; subst; clear Hr. split; [reflexivity|].
    exists linkType. split; [reflexivity|]. split; [intros Hf; congruence|].
    intros _. split; simpl; congruence.
  - destruct (extractVideoId url) as [videoId|] eqn:Hid; [|discriminate].
    inversion Hr; subst; clear Hr. split; [reflexivity|].
    exists linkType. split; [reflexivity|]. split; [|intros Hf; congruence].
    intros _. split; simpl; congruence.
Qed.

(** C3 at the failing input.  The short link redirects to a share page
    whose query carries [video_id=7123456789_hd].  [resolveShortUrl]
    takes the whole parameter as the id and returns its standard URL;
    [resolveLink] then reads the id back with the digits-only pattern: the
    result has the id [7123456789] and a [standardUrl] that is not
    [createStandardUrl] of that id. *)
Theorem resolveLink_redirect_id_mismatch :
  exists r w',
    @resolveLink Scenario.NetWorld _
      (Scenario.scripted_network
         [Ok "https://www.iesdouyin.com/share/video/x/?region=CN&video_id=7123456789_hd"]) _
      "https://v.douyin.com/abc123/" (mkParseOptions None None)
      (Scenario.mkNetWorld 0 0) = (Some r, w') /\
    id r = "7123456789" /\
    standardUrl r = "https://www.douyin.com/video/7123456789_hd" /\
    standardUrl r <> createStandardUrl (id r).
Proof.
  eexists _, _. split; [vm_compute; reflexivity|].
  split; [reflexivity|]. split; [reflexivity|]. discriminate.
Qed.

(** The branch of [resolveShortUrl] for iesdouyin share pages returns the
    raw URL of a second request: when that request ends on the video page
    with a tracking parameter, the parameter stays in [standardUrl]. *)
Lemma resolveLink_raw_redirect_example :
  exists r w',
    @resolveLink Scenario.NetWorld _
      (Scenario.scripted_network Scenario.share_then_video) _
      "https://v.douyin.com/abc123/" (mkParseOptions None None)
      (Scenario.mkNetWorld 0 0) = (Some r, w') /\
    id r = "7123456789" /\
    standardUrl r = "https://www.douyin.com/video/7123456789?previous_page=app_code_link" /\
    standardUrl r <> createStandardUrl (id r).
Proof.
  eexists _, _. split; [vm_compute; reflexivity|].
  split; [reflexivity|]. split; [reflexivity|]. discriminate.
Qed.

End LinkFacts.

(** ** The retry loops, unfolded *)
Module LoopFacts.

Lemma fetchWithRetry_loop_unfold {W T : Type} `{RT : Runtime W}
    (fetcher : Async W T) (retryConfig : InfoErrorHandler.RetryConfig)
    (attempt : Z) (lastError : option JsError) (w : W) :
  InfoErrorHandler.fetchWithRetry_loop fetcher retryConfig attempt lastError w =
  if (attempt <=? InfoErrorHandler.maxRetries retryConfig)%Z then
    match InfoErrorHandler.fetchWithRetry_pass fetcher retryConfig attempt w with
    | (InfoErrorHandler.PassReturn v, w') => (Ok v, w')
    | (InfoErrorHandler.PassThrow e, w') => (Throw e, w')
    | (InfoErrorHandler.PassAgain attempt' e, w') =>
      InfoErrorHandler.fetchWithRetry_loop fetcher retryConfig attempt' (Some e) w'
    end
  else (Throw (default (newError "重試失敗") lastError), w).
Proof.
  funelim (InfoErrorHandler.fetchWithRetry_loop fetcher retryConfig attempt lastError w);
    repeat match goal with
           | H : (_ <=? _)%Z = _ |- _ => rewrite H
           | H : InfoErrorHandler.fetchWithRetry_pass _ _ _ _ = _ |- _ => rewrite H
           end; reflexivity.
Qed.

Lemma withRetry_loop_unfold {W R : Type} `{RT : Runtime W}
    (fn : Async W R) (o : Retry.RetryOptions W)
    (attempt : Z) (lastError : JsError) (w : W) :
  Retry.withRetry_loop fn o attempt lastError w =
  match Retry.withRetry_iteration fn o attempt lastError w with
  | (Retry.IterReturn r, w') => (Ok r, w')
  | (Retry.IterThrow e, w') => (Throw e, w')
  | (Retry.IterAgain attempt' e, w') => Retry.withRetry_loop fn o attempt' e w'
  end.
Proof.
  funelim (Retry.withRetry_loop fn o attempt lastError w);
    repeat match goal with
           | H : Retry.withRetry_iteration _ _ _ _ _ = _ |- _ => rewrite H
           end; reflexivity.
Qed.

End LoopFacts.

(** ** Paginated fetch of a user's videos *)
Module UserFacts.
Import InfoErrorHandler User LoopFacts.

Section Fetch.
Context {W : Type} `{RT : Runtime W} `{API : JsonApi W} `{PF : Platform}.

Lemma fetchWithRetry_returns {T : Type} (fetcher : Async W T) (w w1 : W) (v : T) :
  fetcher w = (Ok v, w1) -> fetchWithRetry fetcher w = (Ok v, w1).
Proof.
  intros Hf. unfold fetchWithRetry. rewrite fetchWithRetry_loop_unfold.
  unfold fetchWithRetry_pass. rewrite Hf. reflexivity.
Qed.

Lemma fetchWithRetry_gives_up {T : Type} (fetcher : Async W T) (w w1 : W) (e : JsError) :
  fetcher w = (Throw e, w1) -> isRetryableError e = false ->
  fetchWithRetry (T := T) fetcher w = (Throw e, w1).
Proof.
  intros Hf Hr. unfold fetchWithRetry. rewrite fetchWithRetry_loop_unfold.
  unfold fetchWithRetry_pass. rewrite Hf, Hr. reflexivity.
Qed.

(** The page request of this pass. *)
Definition page_request (apiUrl secUserId cookie : string) (cursor : Z) : Async W ApiResponse :=
  douyinApiGet apiUrl (page_params secUserId cursor) (page_headers apiUrl secUserId cookie).

Definition loop_open (limit : Z) (results : list UserVideoItem) : Prop :=
  limit = 0%Z \/ (Z.of_nat (length results) < limit)%Z.

Lemma loop_open_test (limit : Z) (results : list UserVideoItem) :
  loop_open limit results ->
  ((limit =? 0)%Z || (Z.of_nat (length results) <? limit)%Z = true) /\
  ((limit >? 0)%Z && (Z.of_nat (length results) >=? limit)%Z = false).
Proof.
  intros [->|Hlt]; [split; reflexivity|]. split.
  - apply orb_true_iff. right. apply Z.ltb_lt. exact Hlt.
  - apply andb_false_iff. right. rewrite Z.geb_leb. apply Z.leb_gt. exact Hlt.
Qed.

Lemma loop_throws_what_page_throws (passes : nat) (apiUrl secUserId cookie : string)
    (limit : Z) (options : UserVideosOptions W) (results : list UserVideoItem)
    (cursor : Z) (te : option Z) (w w1 : W) (e : JsError) :
  loop_open limit results ->
  page_fetcher apiUrl secUserId cursor cookie w = (Throw e, w1) ->
  isRetryableError e = false ->
  fetchUserVideos_loop (S passes) apiUrl secUserId cookie limit options
    results cursor true te w = Settled (Throw e) w1.
Proof.
  intros Hopen Hf Hr. apply loop_open_test in Hopen as [Hin Hout].
  cbn [fetchUserVideos_loop]. rewrite Hin. cbn [andb].
  unfold fetchUserVideoPage. rewrite (fetchWithRetry_gives_up _ _ _ _ Hf Hr).
  reflexivity.
Qed.

Lemma includes_403_in_status_message (msg : string) :
  includes ("獲取用戶影片失敗，狀態碼: " ++ string_of_Z 403 ++ ", 信息: " ++ msg) "403" = true.
Proof.
  apply JsFacts.includes_spec.
  exists "獲取用戶影片失敗，狀態碼: ", (", 信息: " ++ msg)%string. reflexivity.
Qed.

(** [if (options.onProgress) options.onProgress(results.length, totalEstimated)] *)
Definition report (options : UserVideosOptions W) (n : nat) (totalEstimated : option Z)
    : Async W unit :=
  fun w =>
  match onProgress options with
  | Some cb => cb n totalEstimated w
  | None => (Ok tt, w)
  end.

(** A pass whose fetcher gives the empty last page [{videos: [],
    nextCursor: 0, hasMore: false}] reports the unchanged count and ends
    the loop with what was accumulated. *)
Lemma loop_ends_on_empty_last_page (passes : nat) (apiUrl secUserId cookie : string)
    (limit : Z) (options : UserVideosOptions W) (results : list UserVideoItem)
    (cursor : Z) (te : option Z) (w w1 : W) :
  loop_open limit results ->
  page_fetcher apiUrl secUserId cursor cookie w = (Ok (mkPage [] 0 false None), w1) ->
  fetchUserVideos_loop (S passes) apiUrl secUserId cookie limit options
    results cursor true te w
  = match report options (length results) te w1 with
    | (Ok _, w2) => Settled (Ok results) w2
    | (Throw error, w2) => Settled (Throw error) w2
    end.
Proof.
  intros Hopen Hf. apply loop_open_test in Hopen as [Hin Hout].
  cbn [fetchUserVideos_loop]. rewrite Hin. cbn [andb].
  unfold fetchUserVideoPage. rewrite (fetchWithRetry_returns _ _ _ _ Hf).
  cbn [videos page_total nextCursor hasMore]. rewrite app_nil_r. unfold report.
  destruct (match onProgress options with
            | Some cb => cb (length results) te w1
            | None => (Ok tt, w1)
            end) as [[u|error] w2]; [|reflexivity].
  rewrite Hout. reflexivity.
Qed.

(** The page ends the fetch: [onProgress], if there is one, is told the
    unchanged count, and the fetch returns what was accumulated, unless
    the callback throws. *)
Definition ends_fetch (options : UserVideosOptions W) (results : list UserVideoItem)
    (te : option Z) (w1 : W) (run : Run (list UserVideoItem) W) : Prop :=
  (forall w2, report options (length results) te w1 = (Ok tt, w2) ->
     run = Settled (Ok results) w2) /\
  (forall error w2, report options (length results) te w1 = (Throw error, w2) ->
     run = Settled (Throw error) w2).

Lemma empty_last_page_ends_fetch (passes : nat) (apiUrl secUserId cookie : string)
    (limit : Z) (options : UserVideosOptions W) (results : list UserVideoItem)
    (cursor : Z) (te : option Z) (w w1 : W) :
  loop_open limit results ->
  page_fetcher apiUrl secUserId cursor cookie w = (Ok (mkPage [] 0 false None), w1) ->
  ends_fetch options results te w1
    (fetchUserVideos_loop (S passes) apiUrl secUserId cookie limit options
       results cursor true te w).
Proof.
  intros Hopen Hf.
  rewrite (loop_ends_on_empty_last_page passes _ _ _ _ _ _ _ _ _ _ Hopen Hf).
  split.
  - intros w2 ->. reflexivity.
  - intros error w2 ->. reflexivity.
Qed.

(** The error that the fetcher throws for a body with a [status_code]
    that is not zero. *)
Definition status_error (c : Z) (resp : ApiResponse) : JsError :=
  newError ("獲取用戶影片失敗，狀態碼: " ++ string_of_Z c ++ ", 信息: " ++
            default "未知錯誤" (truthy (status_msg resp))).

(** C5, as the code has it.  Within a pass of the loop, whatever
    [onProgress] is: a request that fails with a 403 (in
    [error.response.status] or in the message), or a body that has an
    [aweme_list] array and whose [status_code] is 403, ends the fetch
    with everything accumulated so far, once [onProgress] (if given) has
    been told the unchanged count and has returned; if that callback
    throws, the fetch throws.  A body without an [aweme_list] array makes
    the fetch throw, whatever its [status_code], 403 included; and so
    does any other failure that is not retryable: a failed request, or a
    body with another [status_code] that is not zero. *)
Theorem fetch_page_failure_handling (passes : nat) (apiUrl secUserId cookie : string)
    (limit : Z) (options : UserVideosOptions W) (results : list UserVideoItem)
    (cursor : Z) (te : option Z) (w w1 : W) :
  loop_open limit results ->
  (forall e,
     page_request apiUrl secUserId cookie cursor w = (Throw e, w1) ->
     (exists resp, response e = Some resp /\ status resp = Some 403%Z)
     \/ includes (message e) "403" = true ->
     ends_fetch options results te w1
       (fetchUserVideos_loop (S passes) apiUrl secUserId cookie limit options
          results cursor true te w)) /\
  (forall resp l,
     page_request apiUrl secUserId cookie cursor w = (Ok resp, w1) ->
     aweme_list resp = Some l -> status_code resp = Some 403%Z ->
     ends_fetch options results te w1
       (fetchUserVideos_loop (S passes) apiUrl secUserId cookie limit options
          results cursor true te w)) /\
  (forall resp,
     page_request apiUrl secUserId cookie cursor w = (Ok resp, w1) ->
     aweme_list resp = None ->
     fetchUserVideos_loop (S passes) apiUrl secUserId cookie limit options
       results cursor true te w
     = Settled (Throw (newError "獲取用戶影片列表失敗，響應數據格式異常")) w1) /\
  (forall e,
     page_request apiUrl secUserId cookie cursor w = (Throw e, w1) ->
     (forall resp, response e = Some resp -> status resp <> Some 403%Z) ->
     includes (message e) "403" = false ->
     isRetryableError e = false ->
     fetchUserVideos_loop (S passes) apiUrl secUserId cookie limit options
       results cursor true te w = Settled (Throw e) w1) /\
  (forall resp l c,
     page_request apiUrl secUserId cookie cursor w = (Ok resp, w1) ->
     aweme_list resp = Some l -> status_code resp = Some c -> c <> 0%Z ->
     includes (message (status_error c resp)) "403" = false ->
     isRetryableError (status_error c resp) = false ->
     fetchUserVideos_loop (S passes) apiUrl secUserId cookie limit options
       results cursor true te w = Settled (Throw (status_error c resp)) w1).
Proof.
  intros Hopen. unfold page_request.
  split; [|split; [|split; [|split]]].
  - intros e Hreq H403. apply empty_last_page_ends_fetch; [exact Hopen|].
    unfold page_fetcher. rewrite Hreq. unfold page_catch.
    destruct H403 as [(resp & -> & ->)| ->]; [reflexivity|].
    rewrite orb_true_r. reflexivity.
  - intros resp l Hreq Hl Hsc.
    apply empty_last_page_ends_fetch; [exact Hopen|].
    unfold page_fetcher. rewrite Hreq, Hl, Hsc. cbn [negb Z.eqb Pos.eqb].
    unfold page_catch. cbn [response message newError].
    rewrite includes_403_in_status_message. reflexivity.
  - intros resp Hreq Hl.
    apply loop_throws_what_page_throws; [exact Hopen| |vm_compute; reflexivity].
    unfold page_fetcher. rewrite Hreq, Hl. reflexivity.
  - intros e Hreq Hstatus Hmsg Hr.
    apply loop_throws_what_page_throws; [exact Hopen| |exact Hr].
    unfold page_fetcher. rewrite Hreq. unfold page_catch. rewrite Hmsg.
    destruct (response e) as [resp|] eqn:Hresp; [|reflexivity].
    specialize (Hstatus resp eq_refl).
    destruct (status resp) as [c|]; [|reflexivity].
    destruct (c =? 403)%Z eqn:Hc; [|reflexivity].
    apply Z.eqb_eq in Hc. subst. congruence.
  - intros resp l c Hreq Hl Hsc Hc Hmsg Hr.
    apply loop_throws_what_page_throws; [exact Hopen| |exact Hr].
    unfold page_fetcher. rewrite Hreq, Hl, Hsc.
    apply Z.eqb_neq in Hc. rewrite Hc. cbn [negb].
    unfold page_catch. fold (status_error c resp). rewrite Hmsg.
    reflexivity.
Qed.

End Fetch.

(** After a first page of two items the second request gets HTTP 403:
    the two items are returned, after the callback has been told that
    there are still two (it waits as long as the count it is told). *)
Lemma fetch_page_failure_handling_witness :
  @fetchUserVideos_loop Scenario.NetWorld _ Scenario.good_then_forbidden _
    5 USER_POST_API "MS4wLjABAAAA" "sessionid=abc" 0
    Scenario.noting_options
    (map to_video [Scenario.sample_item "7000000001"; Scenario.sample_item "7000000002"])
    1700000000000 true (Some 40%Z) (Scenario.mkNetWorld 1 1)
  = Settled
      (Ok (map to_video [Scenario.sample_item "7000000001";
                         Scenario.sample_item "7000000002"]))
      (Scenario.mkNetWorld 2 3).
Proof.
  pose proof (@fetch_page_failure_handling Scenario.NetWorld _
                Scenario.good_then_forbidden _
                4 USER_POST_API "MS4wLjABAAAA" "sessionid=abc" 0
                Scenario.noting_options
                (map to_video [Scenario.sample_item "7000000001";
                               Scenario.sample_item "7000000002"])
                1700000000000 (Some 40%Z)
                (Scenario.mkNetWorld 1 1) (Scenario.mkNetWorld 2 1)) as Hthm.
  destruct Hthm as (H403 & _); [left; reflexivity|].
  eapply H403; [vm_compute; reflexivity| |vm_compute; reflexivity].
  right. vm_compute. reflexivity.
Defined.

(** The claim fails for a malformed page: after a first page of two
    items, a second body without an [aweme_list] makes [fetchUserVideos]
    throw; the two items are not returned. *)
Lemma fetch_malformed_page_counterexample :
  @fetchUserVideos Scenario.NetWorld _ Scenario.good_then_malformed _
    10 Scenario.profile_url "sessionid=abc" 0 (mkUserVideosOptions None)
    (Scenario.mkNetWorld 0 0)
  = Settled (Throw (newError "獲取用戶影片列表失敗，響應數據格式異常"))
      (Scenario.mkNetWorld 2 1).
Proof. vm_compute. reflexivity. Qed.

(** The same upstream with HTTP 403 in place of the malformed body
    returns the two items. *)
Lemma fetch_forbidden_page_example :
  @fetchUserVideos Scenario.NetWorld _ Scenario.good_then_forbidden _
    10 Scenario.profile_url "sessionid=abc" 0 (mkUserVideosOptions None)
    (Scenario.mkNetWorld 0 0)
  = Settled
      (Ok (map to_video [Scenario.sample_item "7000000001";
                         Scenario.sample_item "7000000002"]))
      (Scenario.mkNetWorld 2 1).
Proof. vm_compute. reflexivity. Qed.

(** A body that carries [status_code] 403 and no [aweme_list] is a
    malformed page: the fetch throws, and the two items are lost. *)
Lemma fetch_forbidden_body_without_list_example :
  @fetchUserVideos Scenario.NetWorld _ Scenario.good_then_forbidden_body _
    10 Scenario.profile_url "sessionid=abc" 0 (mkUserVideosOptions None)
    (Scenario.mkNetWorld 0 0)
  = Settled (Throw (newError "獲取用戶影片列表失敗，響應數據格式異常"))
      (Scenario.mkNetWorld 2 1).
Proof. vm_compute. reflexivity. Qed.

Lemma stuck_loop_runs_on (passes : nat) (results : list UserVideoItem)
    (te : option Z) (w : Scenario.NetWorld) :
  @fetchUserVideos_loop Scenario.NetWorld _ Scenario.stuck_api _
    passes USER_POST_API "MS4wLjABAAAA" "sessionid=abc" 0
    (mkUserVideosOptions None) results 0 true te w
  = Running (Scenario.mkNetWorld (Scenario.requests w + passes)
               (Scenario.waited w + passes)).
Proof.
  revert results te w. induction passes as [|passes IH]; intros results te w.
  - cbn. destruct w as [r d]. cbn. rewrite !Nat.add_0_r. reflexivity.
  - cbn [fetchUserVideos_loop]. cbn [andb Z.eqb orb].
    unfold fetchUserVideoPage.
    rewrite (fetchWithRetry_returns _ w
               (Scenario.mkNetWorld (S (Scenario.requests w)) (Scenario.waited w))
               (mkPage (map to_video [Scenario.sample_item "7123456789"]) 0 true None))
      by reflexivity.
    cbn [onProgress page_total nextCursor hasMore videos
         Z.gtb Z.compare andb negb].
    rewrite IH. cbn. f_equal. f_equal; lia.
Qed.

(** C2 at the failing input.  Against an upstream that always reports
    more data and always hands back the cursor it was given, with no item
    limit, [fetchUserVideos] has not returned after any number of passes,
    and it has made one request per pass: 101 requests after 101 passes,
    and so on without bound. *)
Theorem fetchUserVideos_stale_cursor_runs_on (passes : nat) :
  @fetchUserVideos Scenario.NetWorld _ Scenario.stuck_api _
    passes Scenario.profile_url "sessionid=abc" 0 (mkUserVideosOptions None)
    (Scenario.mkNetWorld 0 0)
  = Running (Scenario.mkNetWorld passes passes).
Proof.
  unfold fetchUserVideos.
  change (String.eqb "sessionid=abc" "" || trims_to_empty "sessionid=abc") with false.
  change (extractSecUserId Scenario.profile_url) with (Some "MS4wLjABAAAA").
  change (includes Scenario.profile_url "/user"
          && includes Scenario.profile_url "showTab=like") with false.
  cbv iota. rewrite stuck_loop_runs_on. reflexivity.
Qed.

End UserFacts.

(** ** Downloads *)
Module DownloadFacts.
Import VideoDownloader DownloadErrorHandler LoopFacts.

Section Download.
Context {W : Type} `{RT : Runtime W} `{FS : FileSystem W}.

(** The one law of the disk that the cleanup relies on. *)
Definition unlink_removes : Prop :=
  forall (p : string) (w w' : W), unlink p w = (Ok tt, w') -> pathExists p w' = false.

Lemma remove_partial_spec (finalPath : string) (w1 : W) :
  unlink_removes ->
  pathExists finalPath (remove_partial finalPath w1) = false \/
  exists unlinkError,
    unlink finalPath w1 = (Throw unlinkError, remove_partial finalPath w1).
Proof.
  intros Hlaw. unfold remove_partial.
  destruct (pathExists finalPath w1) eqn:Hex; [|left; exact Hex].
  destruct (unlink finalPath w1) as [[[]|ue] w'] eqn:Hun.
  - left. eapply Hlaw. exact Hun.
  - right. exists ue. reflexivity.
Qed.



Lemma downloadVideo_chain (videoInfo : VideoInfo) (destPath : string)
    (options : VideoDownloadOptions W) (nextUrl : string)
    (remainingUrls : list string) (w w1 : W) (error : JsError) (finalPath : string) :
  downloadVideo_try videoInfo destPath options w = (Throw error, finalPath, w1) ->
  downloadVideo videoInfo destPath options (nextUrl :: remainingUrls) w
  = downloadVideo (with_url videoInfo nextUrl) destPath options remainingUrls
      (remove_partial finalPath w1).
Proof. intros Htry. cbn [downloadVideo]. rewrite Htry. reflexivity. Qed.


(** The [try] block, once the path is settled and nothing is reused. *)
Lemma downloadVideo_try_downloads (videoInfo : VideoInfo) (destPath : string)
    (options : VideoDownloadOptions W) (w w1 : W) (finalPath : string) :
  String.eqb (videoPlayUrl videoInfo) "" = false ->
  determine_finalPath videoInfo destPath (default true (useSubfolders options))
    (default "{date}-{title}" (filenameTemplate options)) w = finalPath ->
  ensureDirectoryExists (path_dirname finalPath) w = (Ok tt, w1) ->
  default true (checkExisting options) && pathExists finalPath w1
    && negb (default false (overwrite options)) = false ->
  downloadVideo_try videoInfo destPath options w =
  match Retry.withRetry
          (download_attempt (videoPlayUrl videoInfo) finalPath
             (("Referer", "https://www.douyin.com/video/" ++ vi_id videoInfo)%string
              :: headers options)
             (default 60000%Z (timeout options)) options)
          (download_retry_options (default 3%Z (retries options))) w1 with
  | (Ok _, w2) => (Ok finalPath, finalPath, w2)
  | (Throw error, w2) => (Throw error, finalPath, w2)
  end.
Proof.
  intros Hurl Hpath Hdir Hreuse. unfold downloadVideo_try.
  rewrite Hurl, Hpath, Hdir, Hreuse. reflexivity.
Qed.

Lemma withRetry_first_success {R : Type} (fn : Async W R) (o : Retry.RetryOptions W)
    (w w1 : W) (r : R) :
  (0 <= Retry.retries o)%Z -> fn w = (Ok r, w1) ->
  Retry.withRetry fn o w = (Ok r, w1).
Proof.
  intros Hn Hfn. unfold Retry.withRetry. rewrite withRetry_loop_unfold.
  unfold Retry.withRetry_iteration.
  apply Z.leb_le in Hn. rewrite Hn, Hfn. reflexivity.
Qed.

End Download.

(** *** The calls of downloadFile along the fallback chain *)
Section Noted.
Import Counting.
Context {W R : Type} `{RT : Runtime W}.
Variable label : string.
Variable fn : Async W R.
Variable fn' : Async (W * list string) R.
Variable o : Retry.RetryOptions W.
Variable o' : Retry.RetryOptions (W * list string).

Hypothesis fn'_notes : forall w l, fn' (w, l) = note label fn (w, l).
Hypothesis o'_retries : Retry.retries o' = Retry.retries o.
Hypothesis o'_minDelay : Retry.minDelay o' = Retry.minDelay o.
Hypothesis o'_maxDelay : Retry.maxDelay o' = Retry.maxDelay o.
Hypothesis o'_factor : Retry.factor o' = Retry.factor o.
Hypothesis o'_shouldRetry : forall e, Retry.shouldRetry o' e = Retry.shouldRetry o e.
Hypothesis o'_onRetry :
  forall e a w l, Retry.onRetry o' e a (w, l) = (Retry.onRetry o e a w, l).

(** Every call of [fn] fails, with an error that is retried. *)
Definition fails_always : Prop :=
  forall w, exists e w', fn w = (Throw e, w') /\ Retry.shouldRetry o e = true.

(** The retry loop on the world with the log does what it does without,
    and notes each call it makes: at most as many as its budget allows,
    all of them when every call fails with an error that is retried,
    and one when the first call returns. *)
Lemma withRetry_loop_noted (m : nat) :
  forall (a : Z) (le : JsError) (w : W) (l : list string),
  Z.to_nat (Retry.retries o + 1 - a) = m ->
  exists k : nat,
    Retry.withRetry_loop fn' o' a le (w, l)
    = (fst (Retry.withRetry_loop fn o a le w),
       (snd (Retry.withRetry_loop fn o a le w), l ++ replicate k label)) /\
    (k <= m)%nat /\
    (fails_always -> (a <= Retry.retries o)%Z ->
     k = m /\ exists e, fst (Retry.withRetry_loop fn o a le w) = Throw e) /\
    (forall r w1, (a <= Retry.retries o)%Z -> fn w = (Ok r, w1) ->
     k = 1%nat /\ Retry.withRetry_loop fn o a le w = (Ok r, w1)).
Proof using Type*.
  induction m as [m IH] using lt_wf_ind. intros a le w l Hm.
  rewrite (withRetry_loop_unfold fn'), (withRetry_loop_unfold fn).
  unfold Retry.withRetry_iteration. rewrite o'_retries, fn'_notes.
  destruct (a <=? Retry.retries o)%Z eqn:Hle.
  - apply Z.leb_le in Hle. unfold note. cbn [fst snd].
    destruct (fn w) as [[v|e] w1] eqn:Hfn.
    + exists 1%nat. cbn [fst snd]. split; [reflexivity|]. split; [lia|]. split.
      * intros Hall _. destruct (Hall w) as (e & w' & Hw & _). congruence.
      * intros r w2 _ Heq. inversion Heq; subst. auto.
    + rewrite o'_shouldRetry.
      destruct (Retry.shouldRetry o e) eqn:Hsr; cbn [negb].
      * destruct (a + 1 >? Retry.retries o)%Z eqn:Hgt.
        -- exists 1%nat. cbn [fst snd]. split; [reflexivity|]. split; [lia|]. split.
           ++ intros _ _. apply Z.gtb_lt in Hgt. split; [lia|]. exists e. reflexivity.
           ++ intros r w2 _ Heq. discriminate Heq.
        -- rewrite Z.gtb_ltb in Hgt. apply Z.ltb_ge in Hgt.
           rewrite o'_onRetry. cbn [math_random delay aside_runtime fst snd].
           destruct (math_random (Retry.onRetry o e (a + 1)%Z w1)) as [rq w3].
           cbn [fst snd].
           assert (Retry.calculateDelay (a + 1) o' rq = Retry.calculateDelay (a + 1) o rq)
             as -> by (unfold Retry.calculateDelay;
                       rewrite o'_minDelay, o'_maxDelay, o'_factor; reflexivity).
           destruct (IH (Z.to_nat (Retry.retries o + 1 - (a + 1))) ltac:(lia)
                       (a + 1)%Z e (delay (Retry.calculateDelay (a + 1) o rq) w3)
                       (l ++ [label]) eq_refl)
             as (k & Hk & Hle' & Hall & _).
           exists (S k). split; [rewrite Hk, <- app_assoc; reflexivity|].
           split; [lia|]. split.
           ++ intros Hfail _. destruct (Hall Hfail ltac:(lia)) as [-> He].
              split; [lia|exact He].
           ++ intros r w2 _ Heq. discriminate Heq.
      * exists 1%nat. cbn [fst snd]. split; [reflexivity|]. split; [lia|]. split.
        -- intros Hall _. destruct (Hall w) as (e' & w' & Hw & He').
           rewrite Hfn in Hw. inversion Hw; subst. congruence.
        -- intros r w2 _ Heq. discriminate Heq.
  - apply Z.leb_gt in Hle. exists 0%nat. cbn [fst snd replicate].
    rewrite app_nil_r. split; [reflexivity|]. split; [lia|].
    split; [intros _ Hle'; lia|intros r w1 Hle'; lia].
Qed.

End Noted.

Section Fallback.
Import Counting DownloadLog.
Context {W : Type} `{RT : Runtime W} `{FS : FileSystem W}.
Variable options : VideoDownloadOptions W.

(** The calls of [downloadFile] that one url may take. *)
Definition budget : nat := Z.to_nat (default 3%Z (retries options) + 1).

Definition request_headers (videoInfo : VideoInfo) : list (string * string) :=
  ("Referer", "https://www.douyin.com/video/" ++ vi_id videoInfo)%string :: headers options.

(** The [try] block finds the file at [finalPath] and returns it. *)
Definition reuses (finalPath : string) (w1 : W) : bool :=
  default true (checkExisting options) && pathExists finalPath w1
  && negb (default false (overwrite options)).

(** From [w], the [try] block settles on [finalPath], makes sure of its
    directory, and is then at [w1]. *)
Definition settles_path (videoInfo : VideoInfo) (destPath : string) (w : W)
    (finalPath : string) (w1 : W) : Prop :=
  String.eqb (videoPlayUrl videoInfo) "" = false /\
  determine_finalPath videoInfo destPath (default true (useSubfolders options))
    (default "{date}-{title}" (filenameTemplate options)) w = finalPath /\
  ensureDirectoryExists (path_dirname finalPath) w = (Ok tt, w1).

(** The call of [downloadFile] that [downloadVideo] makes for the url
    of [videoInfo]. *)
Definition download_call (videoInfo : VideoInfo) (finalPath : string) : Async W string :=
  downloadFile (videoPlayUrl videoInfo) finalPath (request_headers videoInfo)
    (default 60000%Z (timeout options)) (file_progress options).

(** Every such call fails, with an error that [withRetry] retries. *)
Definition always_fails (videoInfo : VideoInfo) (finalPath : string) : Prop :=
  forall w0, exists e w0',
    download_call videoInfo finalPath w0 = (Throw e, w0') /\
    Retry.shouldRetry (download_retry_options (W := W) (default 3%Z (retries options))) e
    = true.

Abbreviation try_logged :=
  (fun videoInfo destPath =>
     @downloadVideo_try (W * list string) aside_runtime (logged_fs options)
       videoInfo destPath (logged_options options)).

Abbreviation downloadVideo_logged :=
  (fun videoInfo destPath =>
     @downloadVideo (W * list string) aside_runtime (logged_fs options)
       videoInfo destPath (logged_options options)).

Lemma remove_partial_logged (finalPath : string) (w : W) (l : list string) :
  @remove_partial (W * list string) (logged_fs options) finalPath (w, l)
  = (remove_partial finalPath w, l).
Proof.
  unfold remove_partial. cbn [pathExists unlink logged_fs fst snd].
  destruct (pathExists finalPath w); [|reflexivity].
  unfold untick. cbn [fst snd]. destruct (unlink finalPath w) as [[u|e] w']; reflexivity.
Qed.

(** The [try] block on the world with the log: it does what it does
    without, and notes the url once for each call of [downloadFile]. *)
Lemma downloadVideo_try_logged (videoInfo : VideoInfo) (destPath : string)
    (w : W) (l : list string) :
  exists k : nat,
    try_logged videoInfo destPath (w, l)
    = (fst (fst (downloadVideo_try videoInfo destPath options w)),
       snd (fst (downloadVideo_try videoInfo destPath options w)),
       (snd (downloadVideo_try videoInfo destPath options w),
        l ++ replicate k (videoPlayUrl videoInfo))) /\
    (k <= budget)%nat /\
    (forall finalPath w1,
       settles_path videoInfo destPath w finalPath w1 ->
       (reuses finalPath w1 = true ->
        k = 0%nat /\
        downloadVideo_try videoInfo destPath options w = (Ok finalPath, finalPath, w1)) /\
       (reuses finalPath w1 = false ->
        (0 <= default 3%Z (retries options))%Z ->
        (always_fails videoInfo finalPath ->
         k = budget /\
         exists error w2,
           downloadVideo_try videoInfo destPath options w = (Throw error, finalPath, w2)) /\
        (forall p w2,
           download_call videoInfo finalPath w1 = (Ok p, w2) ->
           k = 1%nat /\
           downloadVideo_try videoInfo destPath options w = (Ok finalPath, finalPath, w2)))).
Proof.
  unfold downloadVideo_try, settles_path, reuses.
  cbn [retries timeout checkExisting overwrite useSubfolders filenameTemplate headers
       logged_options].
  destruct (String.eqb (videoPlayUrl videoInfo) "").
  { exists 0%nat. cbn [replicate fst snd]. rewrite app_nil_r.
    split; [reflexivity|]. split; [lia|].
    intros finalPath w1 (Hurl & _). discriminate Hurl. }
  change (@determine_finalPath (W * list string) (logged_fs options) videoInfo destPath
            (default true (useSubfolders options))
            (default "{date}-{title}" (filenameTemplate options)) (w, l))
    with (determine_finalPath videoInfo destPath
            (default true (useSubfolders options))
            (default "{date}-{title}" (filenameTemplate options)) w).
  set (fp := determine_finalPath videoInfo destPath _ _ w).
  cbn [ensureDirectoryExists logged_fs path_dirname pathExists].
  unfold untick at 1. cbn [fst snd].
  destruct (ensureDirectoryExists (path_dirname fp) w) as [[u|e] w1'] eqn:Hens.
  2:{ exists 0%nat. cbn [replicate fst snd]. rewrite app_nil_r.
      split; [reflexivity|]. split; [lia|].
      intros finalPath w1 (_ & Hfp & Hdir). fold fp in Hfp. subst finalPath.
      rewrite Hens in Hdir. discriminate Hdir. }
  cbn [fst snd].
  destruct (default true (checkExisting options) && pathExists fp w1'
            && negb (default false (overwrite options))) eqn:Hreuse.
  { exists 0%nat. cbn [replicate fst snd]. rewrite app_nil_r.
    split; [reflexivity|]. split; [lia|].
    intros finalPath w1 (_ & Hfp & Hdir). fold fp in Hfp. subst finalPath.
    rewrite Hens in Hdir. inversion Hdir; subst w1'.
    split; [intros _; auto|]. intros Hno. congruence. }
  set (hdrs := ("Referer", _) :: headers options).
  set (fn := download_attempt (videoPlayUrl videoInfo) fp hdrs
               (default 60000%Z (timeout options)) options).
  set (o := download_retry_options (W := W) (default 3%Z (retries options))).
  unfold Retry.withRetry.
  destruct (withRetry_loop_noted (videoPlayUrl videoInfo) fn
              (@download_attempt (W * list string) (logged_fs options)
                 (videoPlayUrl videoInfo) fp hdrs (default 60000%Z (timeout options))
                 (logged_options options))
              o (download_retry_options (default 3%Z (retries options))))
    with (m := budget) (a := 0%Z) (le := newError "Unknown error during retry")
         (w := w1') (l := l)
    as (k & Hk & Hle & Hall & Hfirst);
    try reflexivity.
  { intros w0 l0. unfold fn, note, download_attempt.
    cbn [downloadFile logged_fs fst snd]. unfold note. cbn [fst snd].
    destruct (downloadFile _ _ _ _ _ w0) as [[p|e] w']; reflexivity. }
  { unfold budget, o. cbn [Retry.retries download_retry_options]. f_equal. lia. }
  exists k. rewrite Hk.
  destruct (Retry.withRetry_loop fn o 0 (newError "Unknown error during retry") w1')
    as [[b|e] w2] eqn:Hrun; cbn [fst snd].
  - split; [reflexivity|]. split; [exact Hle|].
    intros finalPath w1 (_ & Hfp & Hdir). fold fp in Hfp. subst finalPath.
    rewrite Hens in Hdir. inversion Hdir; subst w1'.
    split; [intros Hyes; congruence|]. intros _ Hn. split.
    + intros Hfail. destruct Hall as [_ [e He]]; [|exact Hn|discriminate He].
      intros w0. destruct (Hfail w0) as (e & w0' & Hcall & Hsr).
      exists e, w0'. unfold fn, download_attempt. unfold download_call in Hcall.
      fold hdrs in Hcall. unfold request_headers in Hcall. fold hdrs in Hcall.
      rewrite Hcall. auto.
    + intros p w3 Hcall.
      destruct (Hfirst true w3) as [-> Heq]; [exact Hn| |].
      * unfold fn, download_attempt. unfold download_call, request_headers in Hcall.
        fold hdrs in Hcall. rewrite Hcall. reflexivity.
      * inversion Heq; subst. auto.
  - split; [reflexivity|]. split; [exact Hle|].
    intros finalPath w1 (_ & Hfp & Hdir). fold fp in Hfp. subst finalPath.
    rewrite Hens in Hdir. inversion Hdir; subst w1'.
    split; [intros Hyes; congruence|]. intros _ Hn. split.
    + intros Hfail. destruct Hall as [-> _]; [|exact Hn|].
      * intros w0. destruct (Hfail w0) as (e0 & w0' & Hcall & Hsr).
        exists e0, w0'. unfold fn, download_attempt.
        unfold download_call, request_headers in Hcall. fold hdrs in Hcall.
        rewrite Hcall. auto.
      * split; [reflexivity|]. exists e, w2. reflexivity.
    + intros p w3 Hcall.
      destruct (Hfirst true w3) as [_ Heq]; [exact Hn| |discriminate Heq].
      unfold fn, download_attempt. unfold download_call, request_headers in Hcall.
      fold hdrs in Hcall. rewrite Hcall. reflexivity.
Qed.

(** C9, as the code has it.  When the [try] block fails on the current
    url and a fallback is listed, [downloadVideo] tries to delete the
    partial file (a failure to delete is ignored) and calls itself with
    the next url in place of [videoPlayUrl], the rest of the list, and
    the SAME options: the fallback gets the full budget of
    [retries + 1] calls of [downloadFile] again.  With a primary url
    whose downloads always fail with an error that is retried, the
    primary's budget is used up exactly once, [retries + 1] calls of
    [downloadFile]; after that, if the fallback's first download
    succeeds, [downloadVideo] succeeds with one more call, for the
    fallback; but if the recursive call finds a file at its path (the
    partial file could not be deleted) and is to reuse existing files, it
    returns that path without a single call for the fallback.  [log]
    lists the urls of the calls made before. *)
Theorem downloadVideo_fallback_chain (videoInfo : VideoInfo) (destPath nextUrl : string)
    (remainingUrls : list string) (w : W) (log : list string)
    (finalPath : string) (w1 : W) :
  (0 <= default 3%Z (retries options))%Z ->
  settles_path videoInfo destPath w finalPath w1 ->
  reuses finalPath w1 = false ->
  always_fails videoInfo finalPath ->
  exists (error : JsError) (w2 : W),
    let log1 := log ++ replicate budget (videoPlayUrl videoInfo) in
    let w3 := remove_partial finalPath w2 in
    let fallback := with_url videoInfo nextUrl in
    downloadVideo_try videoInfo destPath options w = (Throw error, finalPath, w2) /\
    try_logged videoInfo destPath (w, log) = (Throw error, finalPath, (w2, log1)) /\
    (unlink_removes ->
     pathExists finalPath w3 = false \/
     exists unlinkError, unlink finalPath w2 = (Throw unlinkError, w3)) /\
    downloadVideo videoInfo destPath options (nextUrl :: remainingUrls) w
    = downloadVideo fallback destPath options remainingUrls w3 /\
    downloadVideo_logged videoInfo destPath (nextUrl :: remainingUrls) (w, log)
    = downloadVideo_logged fallback destPath remainingUrls (w3, log1) /\
    (exists k : nat,
       try_logged fallback destPath (w3, log1)
       = (fst (fst (downloadVideo_try fallback destPath options w3)),
          snd (fst (downloadVideo_try fallback destPath options w3)),
          (snd (downloadVideo_try fallback destPath options w3),
           log1 ++ replicate k nextUrl)) /\
       (k <= budget)%nat) /\
    (forall finalPath' w4 p w5,
       settles_path fallback destPath w3 finalPath' w4 ->
       reuses finalPath' w4 = false ->
       download_call fallback finalPath' w4 = (Ok p, w5) ->
       downloadVideo videoInfo destPath options (nextUrl :: remainingUrls) w
       = (Ok finalPath', w5) /\
       downloadVideo_logged videoInfo destPath (nextUrl :: remainingUrls) (w, log)
       = (Ok finalPath', (w5, log1 ++ [nextUrl]))) /\
    (forall finalPath' w4,
       settles_path fallback destPath w3 finalPath' w4 ->
       reuses finalPath' w4 = true ->
       downloadVideo videoInfo destPath options (nextUrl :: remainingUrls) w
       = (Ok finalPath', w4) /\
       downloadVideo_logged videoInfo destPath (nextUrl :: remainingUrls) (w, log)
       = (Ok finalPath', (w4, log1))).
Proof.
  intros Hn Hpath Hnew Hfail.
  destruct (downloadVideo_try_logged videoInfo destPath w log) as (k & Hk & _ & Hcases).
  destruct (Hcases finalPath w1 Hpath) as [_ Hdown].
  destruct (Hdown Hnew Hn) as [Hall _].
  destruct (Hall Hfail) as (-> & error & w2 & Htry).
  rewrite Htry in Hk. cbn [fst snd] in Hk.
  exists error, w2. cbn zeta.
  set (log1 := log ++ replicate budget (videoPlayUrl videoInfo)) in *.
  set (w3 := remove_partial finalPath w2).
  set (fallback := with_url videoInfo nextUrl).
  assert (downloadVideo videoInfo destPath options (nextUrl :: remainingUrls) w
          = downloadVideo fallback destPath options remainingUrls w3) as Hchain.
  { cbn [downloadVideo]. rewrite Htry. reflexivity. }
  assert (downloadVideo_logged videoInfo destPath (nextUrl :: remainingUrls) (w, log)
          = downloadVideo_logged fallback destPath remainingUrls (w3, log1)) as Hchain'.
  { cbn [downloadVideo]. rewrite Hk, remove_partial_logged. reflexivity. }
  destruct (downloadVideo_try_logged fallback destPath w3 log1)
    as (k' & Hk' & Hle' & Hcases').
  change (videoPlayUrl fallback) with nextUrl in Hk'.
  split; [exact Htry|]. split; [exact Hk|].
  split; [intros Hlaw; apply remove_partial_spec; exact Hlaw|].
  split; [exact Hchain|]. split; [exact Hchain'|].
  split; [exists k'; split; [exact Hk'|exact Hle']|].
  split.
  - intros finalPath' w4 p w5 Hpath' Hnew' Hcall.
    destruct (Hcases' finalPath' w4 Hpath') as [_ Hdown'].
    destruct (Hdown' Hnew' Hn) as [_ Hfirst].
    destruct (Hfirst p w5 Hcall) as [-> Htry'].
    rewrite Hchain, Hchain'. rewrite Htry' in Hk'. cbn [fst snd] in Hk'.
    destruct remainingUrls; cbn [downloadVideo]; rewrite Htry', Hk'; auto.
  - intros finalPath' w4 Hpath' Hold.
    destruct (Hcases' finalPath' w4 Hpath') as [Hfound _].
    destruct (Hfound Hold) as [-> Htry'].
    rewrite Hchain, Hchain'. rewrite Htry' in Hk'. cbn [fst snd replicate] in Hk'.
    rewrite app_nil_r in Hk'.
    destruct remainingUrls; cbn [downloadVideo]; rewrite Htry', Hk'; auto.
Qed.

End Fallback.

(** *** On the scenario disk *)
Import Scenario.



(** A file that cannot be unlinked stays, and the error thrown is still
    the download's. *)
Lemma downloadVideo_locked_file_example :
  exists w',
    @downloadVideo DiskWorld _ (disk serves_nothing) sample_video "out/v.mp4"
      default_download_options [] (mkDiskWorld ∅ {["out"]} {["out/v.mp4"]} [] 0)
    = (Throw (newDownloadError
                "下載影片時發生錯誤: 下載檔案失敗: HTTP 錯誤 503 (Service Unavailable)"
                "7123456789" "DOWNLOAD_FAILED" false), w') /\
    @pathExists DiskWorld (disk serves_nothing) "out/v.mp4" w' = true.
Proof. eexists. split; vm_compute; reflexivity. Qed.

Lemma downloadVideo_fallback_chain_witness :
  exists w5,
    @downloadVideo DiskWorld _ (disk serves_fallback) sample_video "out/v.mp4"
      default_download_options [fallback_url] empty_disk = (Ok "out/v.mp4", w5) /\
    @downloadVideo (DiskWorld * list string) Counting.aside_runtime
      (@DownloadLog.logged_fs DiskWorld (disk serves_fallback) default_download_options)
      sample_video "out/v.mp4" (DownloadLog.logged_options default_download_options)
      [fallback_url] (empty_disk, [])
    = (Ok "out/v.mp4",
       (w5, [primary_url; primary_url; primary_url; primary_url; fallback_url])).
Proof.
  destruct (@downloadVideo_fallback_chain DiskWorld _ (disk serves_fallback)
              default_download_options sample_video "out/v.mp4" fallback_url []
              empty_disk [] "out/v.mp4"
              (mkDiskWorld ∅ ({["out"]} ∪ {["out"]}) ∅ [] 0))
    as (error & w2 & Htry & _ & _ & _ & _ & _ & Hfirst & _).
  - simpl. lia.
  - split; [reflexivity|]. split; reflexivity.
  - reflexivity.
  - intros w0. eexists _, _. split; reflexivity.
  - vm_compute in Htry. inversion Htry; subst error w2. clear Htry.
    eexists. eapply Hfirst.
    + split; [reflexivity|]. split; reflexivity.
    + reflexivity.
    + reflexivity.
Defined.

(** The partial file that cannot be deleted stands in for the download:
    with [out/v.mp4] locked, the recursive call finds it and returns its
    path; after the four calls for the primary url there is none for the
    fallback. *)
Lemma downloadVideo_fallback_skipped_example :
  exists w',
    @downloadVideo DiskWorld _ (disk serves_fallback) sample_video "out/v.mp4"
      default_download_options [fallback_url]
      (mkDiskWorld ∅ {["out"]} {["out/v.mp4"]} [] 0) = (Ok "out/v.mp4", w') /\
    fetched w' = [primary_url; primary_url; primary_url; primary_url] /\
    @pathExists DiskWorld (disk serves_fallback) "out/v.mp4" w' = true.
Proof. eexists. split; [vm_compute; reflexivity|]. split; vm_compute; reflexivity. Qed.

(** The claim's clause that the fallback gets no new retry budget fails:
    here the fallback url fails twice and is served at its third request;
    the download succeeds, after four requests for the primary and three
    for the fallback. *)
Lemma downloadVideo_fallback_budget_counterexample :
  exists w',
    @downloadVideo DiskWorld _ (disk serves_fallback_third_time) sample_video "out/v.mp4"
      default_download_options [fallback_url] empty_disk = (Ok "out/v.mp4", w') /\
    fetched w' = [primary_url; primary_url; primary_url; primary_url;
                  fallback_url; fallback_url; fallback_url] /\
    count_url fallback_url (fetched w') = 3%nat.
Proof. eexists. split; [vm_compute; reflexivity|]. split; vm_compute; reflexivity. Qed.

End DownloadFacts.

(** ** How often the retry loops call what they are given *)
Module BudgetFacts.
Import Counting LoopFacts.

Section WithRetry.
Context {W R : Type} `{RT : Runtime W}.
Variable fn : Async W R.
Variable o : Retry.RetryOptions W.

Lemma withRetry_loop_counted (n : nat) :
  forall (a : Z) (le : JsError) (w : W) (c : nat) (r : Outcome R) (w' : W),
  Z.to_nat (Retry.retries o + 1 - a) = n ->
  Retry.withRetry_loop fn o a le w = (r, w') ->
  exists k : nat,
    Retry.withRetry_loop (tick fn) (lift_options (C := nat) o) a le (w, c)
    = (r, (w', c + k)%nat) /\
    (k <= n)%nat /\
    ((a <= Retry.retries o)%Z -> (1 <= k)%nat) /\
    (forall e, r = Throw e -> k = n \/ Retry.shouldRetry o e = false).
Proof.
  induction n as [n IH] using lt_wf_ind.
  intros a le w c r w' Hn Hrun.
  rewrite withRetry_loop_unfold in Hrun. rewrite withRetry_loop_unfold.
  unfold Retry.withRetry_iteration in *.
  cbn [Retry.retries Retry.shouldRetry Retry.onRetry lift_options] in *.
  destruct (a <=? Retry.retries o)%Z eqn:Hle.
  - apply Z.leb_le in Hle. unfold tick at 1. cbn [fst snd].
    destruct (fn w) as [[v|e] w1].
    + inversion Hrun; subst. exists 1%nat.
      replace (c + 1)%nat with (S c) by lia.
      split; [reflexivity|]. split; [lia|]. split; [lia|]. intros e He. discriminate.
    + destruct (negb (Retry.shouldRetry o e)) eqn:Hsr.
      * inversion Hrun; subst. exists 1%nat.
        replace (c + 1)%nat with (S c) by lia.
        split; [reflexivity|]. split; [lia|]. split; [lia|].
        intros e0 He0. inversion He0; subst. right.
        apply negb_true_iff in Hsr. exact Hsr.
      * destruct (a + 1 >? Retry.retries o)%Z eqn:Hgt.
        -- inversion Hrun; subst. exists 1%nat.
           replace (c + 1)%nat with (S c) by lia.
           split; [reflexivity|]. split; [lia|]. split; [lia|].
           intros e0 _. left. apply Z.gtb_lt in Hgt. lia.
        -- rewrite Z.gtb_ltb in Hgt. apply Z.ltb_ge in Hgt.
           cbn [math_random delay aside_runtime fst snd].
           destruct (math_random (Retry.onRetry o e (a + 1)%Z w1)) as [rq w3].
           cbn [Retry.calculateDelay] in *.
           destruct (IH (Z.to_nat (Retry.retries o + 1 - (a + 1))) ltac:(lia)
                       (a + 1)%Z e _ (S c) r w' eq_refl Hrun)
             as (k & Hk & Hle' & Hpos & Hthrow).
           exists (S k). replace (c + S k)%nat with (S c + k)%nat by lia.
           split; [exact Hk|]. split; [lia|]. split; [lia|].
           intros e0 He0. destruct (Hthrow e0 He0) as [->|Hs]; [left; lia|right; exact Hs].
  - inversion Hrun; subst. exists 0%nat. rewrite Nat.add_0_r.
    split; [reflexivity|]. apply Z.leb_gt in Hle.
    split; [lia|]. split; [lia|]. intros e _. left. lia.
Qed.

(** X1. [withRetry] calls [fn] at most [retries + 1] times, and at least
    once when [retries >= 0]; when it throws, either the budget of
    [retries + 1] calls is used up or [shouldRetry] rejected the error;
    with a negative [retries] it never calls [fn] and throws the error
    [Unknown error during retry]. *)
Theorem withRetry_call_budget (w : W) :
  exists k : nat,
    Retry.withRetry (tick fn) (lift_options o) (w, 0%nat)
    = (fst (Retry.withRetry fn o w), (snd (Retry.withRetry fn o w), k)) /\
    (k <= Z.to_nat (Retry.retries o + 1))%nat /\
    ((0 <= Retry.retries o)%Z -> (1 <= k)%nat) /\
    (forall e, fst (Retry.withRetry fn o w) = Throw e ->
       k = Z.to_nat (Retry.retries o + 1) \/ Retry.shouldRetry o e = false) /\
    ((Retry.retries o < 0)%Z ->
       k = 0%nat /\
       Retry.withRetry fn o w = (Throw (newError "Unknown error during retry"), w)).
Proof.
  unfold Retry.withRetry.
  destruct (Retry.withRetry_loop fn o 0 (newError "Unknown error during retry") w)
    as [r w'] eqn:Hrun.
  destruct (withRetry_loop_counted _ 0%Z _ w 0%nat r w' eq_refl Hrun)
    as (k & Hk & Hle & Hpos & Hthrow).
  exists k. cbn [fst snd]. split; [exact Hk|].
  replace (Retry.retries o + 1 - 0)%Z with (Retry.retries o + 1)%Z in * by lia.
  split; [exact Hle|]. split; [exact Hpos|]. split; [exact Hthrow|].
  intros Hneg. split; [lia|].
  rewrite withRetry_loop_unfold in Hrun. unfold Retry.withRetry_iteration in Hrun.
  assert ((0 <=? Retry.retries o)%Z = false) as Hf by (apply Z.leb_gt; lia).
  rewrite Hf in Hrun. symmetry. exact Hrun.
Qed.

End WithRetry.

Section FetchWithRetry.
Context {W T : Type} `{RT : Runtime W}.
Variable fetcher : Async W T.
Variable cfg : InfoErrorHandler.RetryConfig.

Lemma fetchWithRetry_loop_counted (n : nat) :
  forall (a : Z) (le : option JsError) (w : W) (c : nat) (r : Outcome T) (w' : W),
  Z.to_nat (InfoErrorHandler.maxRetries cfg + 1 - a) = n ->
  InfoErrorHandler.fetchWithRetry_loop fetcher cfg a le w = (r, w') ->
  exists k : nat,
    InfoErrorHandler.fetchWithRetry_loop (tick fetcher) cfg a le (w, c)
    = (r, (w', c + k)%nat) /\
    (k <= n)%nat /\
    ((a <= InfoErrorHandler.maxRetries cfg)%Z -> (1 <= k)%nat) /\
    (forall e, r = Throw e -> k = n \/ InfoErrorHandler.isRetryableError e = false).
Proof.
  induction n as [n IH] using lt_wf_ind.
  intros a le w c r w' Hn Hrun.
  rewrite fetchWithRetry_loop_unfold in Hrun. rewrite fetchWithRetry_loop_unfold.
  destruct (a <=? InfoErrorHandler.maxRetries cfg)%Z eqn:Hle.
  - apply Z.leb_le in Hle.
    unfold InfoErrorHandler.fetchWithRetry_pass in *. unfold tick at 1. cbn [fst snd].
    destruct (fetcher w) as [[v|e] w1].
    + inversion Hrun; subst. exists 1%nat.
      replace (c + 1)%nat with (S c) by lia.
      split; [reflexivity|]. split; [lia|]. split; [lia|]. intros e He. discriminate.
    + destruct (a + 1 >? InfoErrorHandler.maxRetries cfg)%Z eqn:Hgt; cbn [orb] in *.
      * inversion Hrun; subst. exists 1%nat.
        replace (c + 1)%nat with (S c) by lia.
        split; [reflexivity|]. split; [lia|]. split; [lia|].
        intros e0 _. left. apply Z.gtb_lt in Hgt. lia.
      * rewrite Z.gtb_ltb in Hgt. apply Z.ltb_ge in Hgt.
        destruct (negb (InfoErrorHandler.isRetryableError e)) eqn:Hsr.
        -- inversion Hrun; subst. exists 1%nat.
           replace (c + 1)%nat with (S c) by lia.
           split; [reflexivity|]. split; [lia|]. split; [lia|].
           intros e0 He0. inversion He0; subst. right.
           apply negb_true_iff in Hsr. exact Hsr.
        -- cbn [math_random delay aside_runtime fst snd].
           destruct (math_random w1) as [rq w2].
           destruct (IH (Z.to_nat (InfoErrorHandler.maxRetries cfg + 1 - (a + 1))) ltac:(lia)
                       (a + 1)%Z (Some e) _ (S c) r w' eq_refl Hrun)
             as (k & Hk & Hle' & Hpos & Hthrow).
           exists (S k). replace (c + S k)%nat with (S c + k)%nat by lia.
           split; [exact Hk|]. split; [lia|]. split; [lia|].
           intros e0 He0. destruct (Hthrow e0 He0) as [->|Hs]; [left; lia|right; exact Hs].
  - inversion Hrun; subst. exists 0%nat. rewrite Nat.add_0_r.
    split; [reflexivity|]. apply Z.leb_gt in Hle.
    split; [lia|]. split; [lia|]. intros e _. left. lia.
Qed.

End FetchWithRetry.

(** X2. [fetchWithRetry] with the default configuration calls the fetcher
    at least once and at most four times; when it throws, the fetcher was
    called four times or the error thrown is one [isRetryableError]
    rejects. *)
Theorem fetchWithRetry_call_budget {W T : Type} `{RT : Runtime W}
    (fetcher : Async W T) (w : W) :
  exists k : nat,
    InfoErrorHandler.fetchWithRetry (tick fetcher) (w, 0%nat)
    = (fst (InfoErrorHandler.fetchWithRetry fetcher w),
       (snd (InfoErrorHandler.fetchWithRetry fetcher w), k)) /\
    (1 <= k <= 4)%nat /\
    (forall e, fst (InfoErrorHandler.fetchWithRetry fetcher w) = Throw e ->
       k = 4%nat \/ InfoErrorHandler.isRetryableError e = false).
Proof.
  unfold InfoErrorHandler.fetchWithRetry.
  destruct (InfoErrorHandler.fetchWithRetry_loop fetcher
              InfoErrorHandler.DEFAULT_RETRY_CONFIG 0 None w) as [r w'] eqn:Hrun.
  destruct (fetchWithRetry_loop_counted fetcher _ _ 0%Z None w 0%nat r w' eq_refl Hrun)
    as (k & Hk & Hle & Hpos & Hthrow).
  exists k. cbn [fst snd]. split; [exact Hk|].
  cbn in Hle, Hpos, Hthrow.
  split; [split; [apply Hpos; lia|exact Hle]|].
  intros e He. destruct (Hthrow e He) as [->|Hs]; [left; reflexivity|right; exact Hs].
Qed.

Section DownloadWithRetry.
Import DownloadRetry.
Context {W T : Type} `{RT : Runtime W}.
Variable downloadFn : option (Z -> Async W unit) -> Async W T.
Variable o : DownloadRetry.RetryOptions W.

Lemma downloadWithRetry_loop_unfold {W' T' : Type} `{Runtime W'}
    (fn : option (Z -> Async W' unit) -> Async W' T')
    (options : DownloadRetry.RetryOptions W') (attempt : Z)
    (lastError : option JsError) (w : W') :
  downloadWithRetry_loop fn options attempt lastError w =
  if (attempt <=? DownloadRetry.retries options)%Z then
    match downloadWithRetry_pass fn options attempt w with
    | (DownloadRetry.PassReturn v, w') => (Ok v, w')
    | (DownloadRetry.PassThrow e, w') => (Throw e, w')
    | (DownloadRetry.PassAgain attempt' e, w') =>
      downloadWithRetry_loop fn options attempt' (Some e) w'
    end
  else (Throw (default thrown_undefined lastError), w).
Proof.
  funelim (downloadWithRetry_loop fn options attempt lastError w);
    repeat match goal with
           | H : (_ <=? _)%Z = _ |- _ => rewrite H
           | H : downloadWithRetry_pass _ _ _ _ = _ |- _ => rewrite H
           end; reflexivity.
Qed.

Lemma downloadWithRetry_loop_counted (n : nat) :
  forall (a : Z) (le : option JsError) (w : W) (c : nat) (r : Outcome T) (w' : W),
  Z.to_nat (DownloadRetry.retries o + 1 - a) = n ->
  downloadWithRetry_loop downloadFn o a le w = (r, w') ->
  exists k : nat,
    downloadWithRetry_loop (counted_downloadFn downloadFn o) (counted_options o) a le (w, c)
    = (r, (w', c + k)%nat) /\
    (k <= n)%nat /\
    ((a <= DownloadRetry.retries o)%Z -> (1 <= k)%nat) /\
    (forall e, r = Throw e ->
       (a <= DownloadRetry.retries o)%Z -> k = n \/ retryable_error e = false).
Proof.
  induction n as [n IH] using lt_wf_ind.
  intros a le w c r w' Hn Hrun.
  rewrite downloadWithRetry_loop_unfold in Hrun. rewrite downloadWithRetry_loop_unfold.
  cbn [DownloadRetry.retries counted_options].
  destruct (a <=? DownloadRetry.retries o)%Z eqn:Hle.
  - apply Z.leb_le in Hle.
    unfold downloadWithRetry_pass in *. unfold counted_downloadFn at 1. unfold tick at 1.
    cbn [fst snd DownloadRetry.retries DownloadRetry.onRetry counted_options].
    destruct (downloadFn (DownloadRetry.onProgress o) w) as [[v|e] w1].
    + inversion Hrun; subst. exists 1%nat.
      replace (c + 1)%nat with (S c) by lia.
      split; [reflexivity|]. split; [lia|]. split; [lia|]. intros e He. discriminate.
    + destruct (a + 1 >? DownloadRetry.retries o)%Z eqn:Hgt; cbn [orb] in *.
      * inversion Hrun; subst. exists 1%nat.
        replace (c + 1)%nat with (S c) by lia.
        split; [reflexivity|]. split; [lia|]. split; [lia|].
        intros e0 _ _. left. apply Z.gtb_lt in Hgt. lia.
      * rewrite Z.gtb_ltb in Hgt. apply Z.ltb_ge in Hgt.
        destruct (negb (retryable_error e)) eqn:Hsr.
        -- inversion Hrun; subst. exists 1%nat.
           replace (c + 1)%nat with (S c) by lia.
           split; [reflexivity|]. split; [lia|]. split; [lia|].
           intros e0 He0 _. inversion He0; subst. right.
           apply negb_true_iff in Hsr. exact Hsr.
        -- set (w2 := match DownloadRetry.onRetry o with
                       | Some cb => cb e (a + 1)%Z w1 | None => w1 end) in *.
           assert (match option_map
                           (fun cb e a (wc : W * nat) => (cb e a (fst wc), snd wc))
                           (DownloadRetry.onRetry o) with
                   | Some cb => cb e (a + 1)%Z (w1, S c)
                   | None => (w1, S c)
                   end = (w2, S c)) as ->.
           { unfold w2. destruct (DownloadRetry.onRetry o); reflexivity. }
           cbn [math_random delay aside_runtime fst snd].
           destruct (math_random w2) as [rq w3].
           assert (forall r0, calculateDelay (a + 1) (counted_options o) r0
                              = calculateDelay (a + 1) o r0) as Hcd by reflexivity.
           rewrite Hcd.
           destruct (IH (Z.to_nat (DownloadRetry.retries o + 1 - (a + 1))) ltac:(lia)
                       (a + 1)%Z (Some e) _ (S c) r w' eq_refl Hrun)
             as (k & Hk & Hle' & Hpos & Hthrow).
           exists (S k). replace (c + S k)%nat with (S c + k)%nat by lia.
           split; [exact Hk|]. split; [lia|]. split; [lia|].
           intros e0 He0 _. destruct (Hthrow e0 He0 ltac:(lia)) as [->|Hs];
             [left; lia|right; exact Hs].
  - inversion Hrun; subst. exists 0%nat. rewrite Nat.add_0_r.
    split; [reflexivity|]. apply Z.leb_gt in Hle.
    split; [lia|]. split; [lia|]. intros e _ Hc. lia.
Qed.

(** X3. [downloadWithRetry] calls [downloadFn] at most [retries + 1]
    times and, with [retries >= 0], at least once; when it then throws,
    the budget is used up or the error is not retryable, where a
    [DownloadError] is judged by its own [retryable] flag and any other
    error by [isRetryableError]; with a negative [retries] it throws
    without calling [downloadFn]. *)
Theorem downloadWithRetry_call_budget (url : string) (w : W) :
  exists k : nat,
    downloadWithRetry (counted_downloadFn downloadFn o) url (counted_options o) (w, 0%nat)
    = (fst (downloadWithRetry downloadFn url o w),
       (snd (downloadWithRetry downloadFn url o w), k)) /\
    (k <= Z.to_nat (DownloadRetry.retries o + 1))%nat /\
    ((0 <= DownloadRetry.retries o)%Z ->
       (1 <= k)%nat /\
       forall e, fst (downloadWithRetry downloadFn url o w) = Throw e ->
         k = Z.to_nat (DownloadRetry.retries o + 1) \/
         match download e with
         | Some info => retryable info = false
         | None => DownloadErrorHandler.isRetryableError e = false
         end) /\
    ((DownloadRetry.retries o < 0)%Z ->
       k = 0%nat /\ exists e, downloadWithRetry downloadFn url o w = (Throw e, w)).
Proof.
  unfold downloadWithRetry.
  destruct (downloadWithRetry_loop downloadFn o 0 None w) as [r w'] eqn:Hrun.
  destruct (downloadWithRetry_loop_counted _ 0%Z None w 0%nat r w' eq_refl Hrun)
    as (k & Hk & Hle & Hpos & Hthrow).
  exists k. cbn [fst snd]. split; [exact Hk|].
  replace (DownloadRetry.retries o + 1 - 0)%Z with (DownloadRetry.retries o + 1)%Z in * by lia.
  split; [exact Hle|]. split.
  - intros H0. split; [exact (Hpos H0)|]. intros e He.
    destruct (Hthrow e He H0) as [Hn|Hs]; [left; exact Hn|right].
    unfold retryable_error in Hs. destruct (download e); exact Hs.
  - intros Hneg. split; [lia|].
    rewrite downloadWithRetry_loop_unfold in Hrun.
    assert ((0 <=? DownloadRetry.retries o)%Z = false) as Hf by (apply Z.leb_gt; lia).
    rewrite Hf in Hrun. inversion Hrun; subst. eexists. reflexivity.
Qed.

End DownloadWithRetry.

Section EnhancedFetch.
Import UtilsFetch.
Context {W : Type} `{RT : Runtime W} `{RF : RawFetch W}.
Variable url : string.
Variable o : FetchOptions.

Lemma enhancedFetch_loop_unfold {W' : Type} `{Runtime W'} `{RawFetch W'}
    (u : string) (options : FetchOptions) (attempt : Z) (w : W') :
  enhancedFetch_loop u options attempt w =
  if (attempt <=? UtilsFetch.retries options)%Z then
    match enhancedFetch_pass u options attempt w with
    | (UtilsFetch.PassReturn response, w') => (Ok response, w')
    | (UtilsFetch.PassThrow e, w') => (Throw e, w')
    | (UtilsFetch.PassAgain attempt', w') => enhancedFetch_loop u options attempt' w'
    end
  else (Throw (newError "請求失敗，達到最大重試次數"), w).
Proof.
  funelim (enhancedFetch_loop u options attempt w);
    repeat match goal with
           | H : (_ <=? _)%Z = _ |- _ => rewrite H
           | H : enhancedFetch_pass _ _ _ _ = _ |- _ => rewrite H
           end; reflexivity.
Qed.

(** What the last request of a failed run answered. *)
Definition last_request_failed (e : JsError) (w' : W) : Prop :=
  exists w0 : W,
    fetch url (headers o) w0 = (Throw e, w') \/
    exists response, fetch url (headers o) w0 = (Ok response, w') /\
                     ok response = false /\ e = httpError url response.

Lemma enhancedFetch_loop_counted (n : nat) :
  forall (a : Z) (w : W) (c : nat) (r : Outcome Response) (w' : W),
  Z.to_nat (UtilsFetch.retries o + 1 - a) = n ->
  enhancedFetch_loop url o a w = (r, w') ->
  exists k : nat,
    @enhancedFetch_loop (W * nat) aside_runtime counted_fetch url o a (w, c)
    = (r, (w', c + k)%nat) /\
    (k <= n)%nat /\
    (forall response, r = Ok response -> ok response = true /\ (1 <= k)%nat) /\
    (forall e, r = Throw e ->
       k = n /\ ((a <= UtilsFetch.retries o)%Z -> last_request_failed e w')).
Proof.
  induction n as [n IH] using lt_wf_ind.
  intros a w c r w' Hn Hrun.
  rewrite enhancedFetch_loop_unfold in Hrun. rewrite enhancedFetch_loop_unfold.
  destruct (a <=? UtilsFetch.retries o)%Z eqn:Hle.
  - apply Z.leb_le in Hle.
    unfold enhancedFetch_pass in *.
    cbn [fetch counted_fetch]. unfold tick at 1. cbn [fst snd].
    destruct (fetch url (headers o) w) as [[response|e] w1] eqn:Hf.
    + destruct (ok response) eqn:Hok; cbn [negb] in *.
      * inversion Hrun; subst. exists 1%nat.
        replace (c + 1)%nat with (S c) by lia.
        split; [reflexivity|]. split; [lia|]. split.
        -- intros r0 Hr0. inversion Hr0; subst. split; [exact Hok|lia].
        -- intros e He. discriminate.
      * destruct (a + 1 >? UtilsFetch.retries o)%Z eqn:Hgt.
        -- inversion Hrun; subst. exists 1%nat.
           replace (c + 1)%nat with (S c) by lia.
           split; [reflexivity|]. split; [lia|]. split; [intros r0 Hr0; discriminate|].
           intros e He. inversion He; subst. apply Z.gtb_lt in Hgt.
           split; [lia|]. intros _. exists w. right. exists response. auto.
        -- rewrite Z.gtb_ltb in Hgt. apply Z.ltb_ge in Hgt.
           cbn [delay aside_runtime fst snd].
           destruct (IH (Z.to_nat (UtilsFetch.retries o + 1 - (a + 1))) ltac:(lia)
                       (a + 1)%Z _ (S c) r w' eq_refl Hrun)
             as (k & Hk & Hle' & Hok' & Hthrow).
           exists (S k). replace (c + S k)%nat with (S c + k)%nat by lia.
           split; [exact Hk|]. split; [lia|]. split.
           ++ intros r0 Hr0. destruct (Hok' r0 Hr0). split; [assumption|lia].
           ++ intros e He. destruct (Hthrow e He) as [-> Hl].
              split; [lia|]. intros _. apply Hl. lia.
    + destruct (a + 1 >? UtilsFetch.retries o)%Z eqn:Hgt.
      * inversion Hrun; subst. exists 1%nat.
        replace (c + 1)%nat with (S c) by lia.
        split; [reflexivity|]. split; [lia|]. split; [intros r0 Hr0; discriminate|].
        intros e0 He0. inversion He0; subst. apply Z.gtb_lt in Hgt.
        split; [lia|]. intros _. exists w. left. exact Hf.
      * rewrite Z.gtb_ltb in Hgt. apply Z.ltb_ge in Hgt.
        cbn [delay aside_runtime fst snd].
        destruct (IH (Z.to_nat (UtilsFetch.retries o + 1 - (a + 1))) ltac:(lia)
                    (a + 1)%Z _ (S c) r w' eq_refl Hrun)
          as (k & Hk & Hle' & Hok' & Hthrow).
        exists (S k). replace (c + S k)%nat with (S c + k)%nat by lia.
        split; [exact Hk|]. split; [lia|]. split.
        -- intros r0 Hr0. destruct (Hok' r0 Hr0). split; [assumption|lia].
        -- intros e0 He0. destruct (Hthrow e0 He0) as [-> Hl].
           split; [lia|]. intros _. apply Hl. lia.
  - inversion Hrun; subst. exists 0%nat. rewrite Nat.add_0_r.
    split; [reflexivity|]. apply Z.leb_gt in Hle.
    split; [lia|]. split; [intros r0 Hr0; discriminate|].
    intros e _. split; [lia|]. intros Hc. lia.
Qed.

(** X4. [enhancedFetch] sends at most [retries + 1] requests. A response
    it returns is always an ok one. It throws only after [retries + 1]
    requests, failed requests and responses that are not ok counting
    alike; what it throws is then what the last request threw, or the
    HTTP error built from the last response, which carries the status as
    [statusCode]. *)
Theorem enhancedFetch_call_budget (w : W) :
  exists k : nat,
    @enhancedFetch (W * nat) aside_runtime counted_fetch url o (w, 0%nat)
    = (fst (enhancedFetch url o w), (snd (enhancedFetch url o w), k)) /\
    (k <= Z.to_nat (UtilsFetch.retries o + 1))%nat /\
    (forall response, fst (enhancedFetch url o w) = Ok response ->
       ok response = true /\ (1 <= k)%nat) /\
    (forall e, fst (enhancedFetch url o w) = Throw e ->
       k = Z.to_nat (UtilsFetch.retries o + 1) /\
       ((0 <= UtilsFetch.retries o)%Z ->
          exists w0 : W,
            fetch url (headers o) w0 = (Throw e, snd (enhancedFetch url o w)) \/
            exists response,
              fetch url (headers o) w0 = (Ok response, snd (enhancedFetch url o w)) /\
              ok response = false /\ e = httpError url response /\
              statusCode e = Some (r_status response))).
Proof.
  unfold enhancedFetch.
  destruct (enhancedFetch_loop url o 0 w) as [r w'] eqn:Hrun.
  destruct (enhancedFetch_loop_counted _ 0%Z w 0%nat r w' eq_refl Hrun)
    as (k & Hk & Hle & Hok & Hthrow).
  exists k. cbn [fst snd]. split; [exact Hk|].
  replace (UtilsFetch.retries o + 1 - 0)%Z with (UtilsFetch.retries o + 1)%Z in * by lia.
  split; [exact Hle|]. split; [exact Hok|].
  intros e He. destruct (Hthrow e He) as [Hn Hl]. split; [exact Hn|].
  intros H0. destruct (Hl H0) as [w0 [Hf|(response & Hf & Hnok & ->)]].
  - exists w0. left. exact Hf.
  - exists w0. right. exists response. repeat split; assumption.
Qed.

Lemma two_power_succ (a : Z) :
  (0 <= a)%Z -> (Qpower (2 # 1) (a + 1) == (2 # 1) * Qpower (2 # 1) a)%Q.
Proof.
  intros Ha. rewrite Qpower_plus by discriminate.
  change (Qpower (2 # 1) 1) with (2 # 1)%Q. ring.
Qed.

Lemma enhancedFetch_loop_clocked (n : nat) :
  forall (a : Z) (w : W) (t0 : Q) (e : JsError) (w' : W),
  (0 <= a <= UtilsFetch.retries o)%Z ->
  Z.to_nat (UtilsFetch.retries o + 1 - a) = n ->
  enhancedFetch_loop url o a w = (Throw e, w') ->
  exists t : Q,
    @enhancedFetch_loop (W * Q) clocked_runtime clocked_fetch url o a (w, t0)
    = (Throw e, (w', t)) /\
    (t == t0 + retryDelay o
               * (Qpower (2 # 1) (UtilsFetch.retries o) - Qpower (2 # 1) a))%Q.
Proof.
  induction n as [n IH] using lt_wf_ind.
  intros a w t0 e w' Ha Hn Hrun.
  rewrite enhancedFetch_loop_unfold in Hrun. rewrite enhancedFetch_loop_unfold.
  assert ((a <=? UtilsFetch.retries o)%Z = true) as Hle by (apply Z.leb_le; lia).
  rewrite Hle in *. unfold enhancedFetch_pass in *.
  cbn [fetch clocked_fetch]. unfold untick at 1. cbn [fst snd].
  destruct (fetch url (headers o) w) as [[response|e0] w1].
  - destruct (negb (ok response)); [|discriminate].
    destruct (a + 1 >? UtilsFetch.retries o)%Z eqn:Hgt.
    + inversion Hrun; subst. exists t0. split; [reflexivity|].
      apply Z.gtb_lt in Hgt. replace a with (UtilsFetch.retries o) by lia. ring.
    + rewrite Z.gtb_ltb in Hgt. apply Z.ltb_ge in Hgt.
      cbn [delay clocked_runtime fst snd].
      destruct (IH (Z.to_nat (UtilsFetch.retries o + 1 - (a + 1))) ltac:(lia)
                  (a + 1)%Z _ (t0 + retryDelay o * Qpower (2 # 1) (a + 1 - 1))%Q e w'
                  ltac:(lia) eq_refl Hrun) as (t & Hk & Ht).
      exists t. split; [exact Hk|]. rewrite Ht.
      replace (a + 1 - 1)%Z with a by lia. rewrite (two_power_succ a) by lia. ring.
  - destruct (a + 1 >? UtilsFetch.retries o)%Z eqn:Hgt.
    + inversion Hrun; subst. exists t0. split; [reflexivity|].
      apply Z.gtb_lt in Hgt. replace a with (UtilsFetch.retries o) by lia. ring.
    + rewrite Z.gtb_ltb in Hgt. apply Z.ltb_ge in Hgt.
      cbn [delay clocked_runtime fst snd].
      destruct (IH (Z.to_nat (UtilsFetch.retries o + 1 - (a + 1))) ltac:(lia)
                  (a + 1)%Z _ (t0 + retryDelay o * Qpower (2 # 1) (a + 1 - 1))%Q e w'
                  ltac:(lia) eq_refl Hrun) as (t & Hk & Ht).
      exists t. split; [exact Hk|]. rewrite Ht.
      replace (a + 1 - 1)%Z with a by lia. rewrite (two_power_succ a) by lia. ring.
Qed.

(** X5. The waits of [enhancedFetch] double from [retryDelay] on, so
    a request that fails for good has waited
    [retryDelay * (2 ^ retries - 1)] milliseconds between its attempts:
    seven seconds with the defaults. *)
Theorem enhancedFetch_total_backoff (w w' : W) (e : JsError) :
  (0 <= UtilsFetch.retries o)%Z ->
  enhancedFetch url o w = (Throw e, w') ->
  exists t : Q,
    @enhancedFetch (W * Q) clocked_runtime clocked_fetch url o (w, 0%Q)
    = (Throw e, (w', t)) /\
    (t == retryDelay o * (Qpower (2 # 1) (UtilsFetch.retries o) - 1))%Q.
Proof.
  intros Hr Hrun. unfold enhancedFetch in *.
  destruct (enhancedFetch_loop_clocked _ 0%Z w 0%Q e w' ltac:(lia) eq_refl Hrun)
    as (t & Hk & Ht).
  exists t. split; [exact Hk|]. rewrite Ht. change (Qpower (2 # 1) 0) with 1%Q. ring.
Qed.

End EnhancedFetch.

Lemma withRetry_call_budget_witness :
  exists k : nat,
    Retry.withRetry (tick Trials.third_time_lucky)
      (lift_options Retry.DEFAULT_RETRY_OPTIONS) (0%nat, 0%nat)
    = (Ok "done", (2%nat, k)) /\ (k <= 4)%nat.
Proof.
  destruct (withRetry_call_budget Trials.third_time_lucky Retry.DEFAULT_RETRY_OPTIONS 0%nat)
    as (k & Hk & Hle & _).
  exists k. split; [exact Hk|exact Hle].
Defined.

Lemma fetchWithRetry_call_budget_witness :
  exists k : nat,
    InfoErrorHandler.fetchWithRetry (tick Trials.third_time_lucky) (0%nat, 0%nat)
    = (Ok "done", (2%nat, k)) /\ (1 <= k <= 4)%nat.
Proof.
  destruct (fetchWithRetry_call_budget Trials.third_time_lucky 0%nat)
    as (k & Hk & Hle & _).
  exists k. split; [exact Hk|exact Hle].
Defined.

Lemma downloadWithRetry_call_budget_witness :
  exists k : nat,
    DownloadRetry.downloadWithRetry
      (DownloadRetry.counted_downloadFn Trials.refused_download Trials.three_retries)
      "https://v.example/1" (DownloadRetry.counted_options Trials.three_retries)
      (0%nat, 0%nat)
    = (Throw (newDownloadError "network error" "https://v.example/1" "GONE" false),
       (0%nat, k)) /\
    (1 <= k)%nat /\ k <> 4%nat.
Proof.
  destruct (downloadWithRetry_call_budget Trials.refused_download Trials.three_retries
              "https://v.example/1" 0%nat) as (k & Hk & Hle & Hpos & _).
  exists k. split; [exact Hk|].
  destruct (Hpos ltac:(simpl; lia)) as [H1 _]. split; [exact H1|].
  intros ->. vm_compute in Hk. discriminate Hk.
Defined.

Lemma enhancedFetch_call_budget_witness :
  exists (k : nat) (e : JsError),
    @UtilsFetch.enhancedFetch (nat * nat) aside_runtime
      (@UtilsFetch.counted_fetch nat Trials.unavailable)
      "https://v.example/1" Trials.two_retries (0%nat, 0%nat)
    = (Throw e, (2%nat, k)) /\ k = 3%nat.
Proof.
  destruct (@enhancedFetch_call_budget nat _ Trials.unavailable
              "https://v.example/1" Trials.two_retries 0%nat)
    as (k & Hk & _ & _ & Hthrow).
  exists k. eexists. split; [exact Hk|].
  exact (proj1 (Hthrow _ eq_refl)).
Defined.

Lemma enhancedFetch_total_backoff_witness :
  exists (t : Q) (e : JsError),
    @UtilsFetch.enhancedFetch (nat * Q) UtilsFetch.clocked_runtime
      (@UtilsFetch.clocked_fetch nat Trials.unavailable)
      "https://v.example/1" Trials.two_retries (0%nat, 0%Q)
    = (Throw e, (2%nat, t)) /\ (t == 3000 # 1)%Q.
Proof.
  destruct (@enhancedFetch_total_backoff nat _ Trials.unavailable
              "https://v.example/1" Trials.two_retries 0%nat 2%nat
              (UtilsFetch.httpError "https://v.example/1"
                 (UtilsFetch.mkResponse false 503 "Service Unavailable"
                    "https://v.example/1" (Ok "busy"))))
    as (t & Hk & Ht).
  - simpl. lia.
  - vm_compute. reflexivity.
  - exists t. eexists. split; [exact Hk|]. rewrite Ht. reflexivity.
Defined.

End BudgetFacts.

(** ** The item limit of the paginated fetch *)
Module PaginationFacts.
Import User.

Section Limit.
Context {W : Type} `{RT : Runtime W} `{API : JsonApi W} `{PF : Platform}.

Lemma fetchUserVideos_loop_limit (passes : nat) (apiUrl secUserId cookie : string)
    (limit : Z) (options : UserVideosOptions W) :
  (0 < limit)%Z ->
  forall (results : list UserVideoItem) (cursor : Z) (hasMore : bool)
         (totalEstimated : option Z) (w w' : W) (out : list UserVideoItem),
  (Z.of_nat (length results) < limit)%Z ->
  fetchUserVideos_loop passes apiUrl secUserId cookie limit options
    results cursor hasMore totalEstimated w = Settled (Ok out) w' ->
  (Z.of_nat (length out) <= limit)%Z.
Proof.
  intros Hpos. induction passes as [|passes IH];
    intros results cursor hasMore te w w' out Hlen Hrun; cbn [fetchUserVideos_loop] in Hrun.
  - destruct (hasMore && _); [discriminate|]. inversion Hrun; subst. lia.
  - destruct (hasMore && _); [|inversion Hrun; subst; lia].
    destruct (fetchUserVideoPage apiUrl secUserId cursor cookie w) as [[page|e] w1];
      [|discriminate].
    destruct (match onProgress options with
              | Some cb => _
              | None => _
              end) as [[u|e] w2]; [|discriminate].
    destruct ((limit >? 0)%Z && _) eqn:Hcut.
    + inversion Hrun; subst. rewrite length_take. lia.
    + apply andb_false_iff in Hcut as [Hcut|Hcut];
        [rewrite Z.gtb_ltb in Hcut; apply Z.ltb_ge in Hcut; lia|].
      rewrite Z.geb_leb in Hcut. apply Z.leb_gt in Hcut.
      destruct (negb (User.hasMore page)).
      * inversion Hrun; subst. lia.
      * eapply IH; [|exact Hrun]. exact Hcut.
Qed.

(** X6. What [fetchUserVideos] returns under a positive [limit] has at
    most [limit] items, however many items the pages carry.  Under a
    negative [limit], with a cookie that is not blank and a URL that has
    a user id, it returns the empty list at once: the world is left as
    it was, so no request is made. *)
Theorem fetchUserVideos_respects_limit (passes : nat) (userUrl cookie : string)
    (limit : Z) (options : UserVideosOptions W) (w : W) :
  ((0 < limit)%Z ->
   forall (out : list UserVideoItem) (w' : W),
   fetchUserVideos passes userUrl cookie limit options w = Settled (Ok out) w' ->
   (Z.of_nat (length out) <= limit)%Z) /\
  ((limit < 0)%Z ->
   String.eqb cookie "" || trims_to_empty cookie = false ->
   forall secUserId, extractSecUserId userUrl = Some secUserId ->
   fetchUserVideos passes userUrl cookie limit options w = Settled (Ok []) w).
Proof.
  unfold fetchUserVideos. split.
  - intros Hpos out w' Hrun.
    destruct (String.eqb cookie "" || trims_to_empty cookie); [discriminate|].
    destruct (extractSecUserId userUrl) as [secUserId|]; [|discriminate].
    destruct (fetchUserVideos_loop passes _ secUserId cookie limit options [] 0 true None w)
      as [w0|[res|e] w0] eqn:Hloop; try discriminate.
    inversion Hrun; subst.
    eapply fetchUserVideos_loop_limit; [exact Hpos| |exact Hloop]. simpl. lia.
  - intros Hneg -> secUserId ->.
    assert ((limit =? 0)%Z || (Z.of_nat (length (@nil UserVideoItem)) <? limit)%Z = false)
      as Hc.
    { apply orb_false_iff. split; [apply Z.eqb_neq; lia|apply Z.ltb_ge; simpl; lia]. }
    destruct passes; cbn [fetchUserVideos_loop]; rewrite Hc; reflexivity.
Qed.

End Limit.

Lemma fetchUserVideos_respects_limit_witness :
  (exists out w',
     @fetchUserVideos Scenario.NetWorld _ Scenario.stuck_api _
       3 Scenario.profile_url "sessionid=abc" 2 (mkUserVideosOptions None)
       (Scenario.mkNetWorld 0 0) = Settled (Ok out) w' /\
     (Z.of_nat (length out) <= 2)%Z) /\
  @fetchUserVideos Scenario.NetWorld _ Scenario.stuck_api _
    3 Scenario.profile_url "sessionid=abc" (-1) (mkUserVideosOptions None)
    (Scenario.mkNetWorld 0 0) = Settled (Ok []) (Scenario.mkNetWorld 0 0).
Proof.
  split.
  - eexists _, _. split; [vm_compute; reflexivity|].
    refine (proj1 (@fetchUserVideos_respects_limit Scenario.NetWorld _ Scenario.stuck_api _
                     3 Scenario.profile_url "sessionid=abc" 2 (mkUserVideosOptions None)
                     (Scenario.mkNetWorld 0 0)) _ _ _ _).
    + lia.
    + vm_compute. reflexivity.
  - refine (proj2 (@fetchUserVideos_respects_limit Scenario.NetWorld _ Scenario.stuck_api _
                     3 Scenario.profile_url "sessionid=abc" (-1) (mkUserVideosOptions None)
                     (Scenario.mkNetWorld 0 0)) _ _ "MS4wLjABAAAA" _).
    + lia.
    + reflexivity.
    + vm_compute. reflexivity.
Defined.

End PaginationFacts.

(** ** The sequential batch of src/info/batch-processor.ts *)
Module BatchProcessorFacts.
Import Counting BatchProcessor.

Section Sequential.
Context {W V : Type} `{RT : Runtime W}.
Variable fetchVideoDetail : string -> Async W (option V).
Variable options : FetchVideoOptions W.

(** [onProgress], where given, returns. *)
Definition progress_returns : Prop :=
  forall cb, onProgress options = Some cb ->
    forall (i t : nat) (w0 : W), exists w1, cb i t w0 = (Ok tt, w1).

Lemma processBatch_loop_returns (total : nat) (videoUrls : list string) :
  progress_returns ->
  forall (index : nat) (results : list (option V)) (w : W),
  exists out w',
    processBatch_loop fetchVideoDetail options total videoUrls index results w
    = (Ok out, w') /\
    length out = (length results + length videoUrls)%nat.
Proof.
  intros Hcb. induction videoUrls as [|url rest IH]; intros index results w;
    cbn [processBatch_loop].
  - eexists _, _. split; [reflexivity|]. simpl. lia.
  - destruct (Retry.withRetry (fetchVideoDetail url) (Retry.default_with_retries 2) w)
      as [[result|error] w1].
    + destruct (onProgress options) as [cb|] eqn:Hop.
      * destruct (Hcb cb Hop (index + 1)%nat total w1) as [w2 ->].
        destruct (IH (S index) (results ++ [result]) w2) as (out & w' & -> & Hlen).
        eexists _, _. split; [reflexivity|]. rewrite Hlen, length_app. simpl. lia.
      * destruct (IH (S index) (results ++ [result]) w1) as (out & w' & -> & Hlen).
        eexists _, _. split; [reflexivity|]. rewrite Hlen, length_app. simpl. lia.
    + destruct (onProgress options) as [cb|] eqn:Hop.
      * destruct (Hcb cb Hop (index + 1)%nat total w1) as [w2 ->].
        destruct (IH (S index) (results ++ [None]) w2) as (out & w' & -> & Hlen).
        eexists _, _. split; [reflexivity|]. rewrite Hlen, length_app. simpl. lia.
      * destruct (IH (S index) (results ++ [None]) w1) as (out & w' & -> & Hlen).
        eexists _, _. split; [reflexivity|]. rewrite Hlen, length_app. simpl. lia.
Qed.

Lemma omap_length_le {A B : Type} (f : A -> option B) (l : list A) :
  (length (omap f l) <= length l)%nat.
Proof.
  induction l as [|a l IH]; [reflexivity|]. cbn [omap list_omap].
  destruct (f a); simpl; lia.
Qed.

(** X7. The sequential [processBatch] does not reject, whatever
    [fetchVideoDetail] does, as long as [onProgress] returns: a URL whose
    fetch throws, also after the retries, only leaves no entry; so it
    returns at most one video for each URL. *)
Theorem processBatch_never_rejects (videoUrls : list string) (w : W) :
  progress_returns ->
  exists out w',
    processBatch fetchVideoDetail videoUrls options w = (Ok out, w') /\
    (length out <= length videoUrls)%nat.
Proof.
  intros Hcb. unfold processBatch. destruct videoUrls as [|url rest].
  - eexists _, _. split; [reflexivity|]. simpl. lia.
  - destruct (processBatch_loop_returns (length (url :: rest)) (url :: rest) Hcb 0 [] w)
      as (out & w' & -> & Hlen).
    eexists _, _. split; [reflexivity|].
    etransitivity; [apply omap_length_le|]. rewrite Hlen. simpl. lia.
Qed.

(** The options of the run that logs its fetches. *)
Definition logged_options : FetchVideoOptions (W * list string) :=
  mkFetchVideoOptions
    (match onProgress options with
     | Some cb => Some (fun i t => untick (cb i t))
     | None => None
     end).

(** [fetchVideoDetail] settles with a value, as the one of the sources
    does, which catches what goes wrong and returns [null]. *)
Definition never_throws : Prop :=
  forall (url : string) (w0 : W), exists v w1, fetchVideoDetail url w0 = (Ok v, w1).

Lemma processBatch_loop_logged (total : nat) (videoUrls : list string) :
  never_throws -> progress_returns ->
  forall (index : nat) (results : list (option V)) (w : W) (log : list string),
  exists out w',
    processBatch_loop fetchVideoDetail options total videoUrls index results w
    = (Ok out, w') /\
    processBatch_loop (fun url => note url (fetchVideoDetail url)) logged_options total
      videoUrls index results (w, log)
    = (Ok out, (w', log ++ videoUrls)).
Proof.
  intros Hnt Hcb. induction videoUrls as [|url rest IH]; intros index results w log;
    cbn [processBatch_loop].
  - eexists _, _. rewrite app_nil_r. split; reflexivity.
  - destruct (Hnt url w) as (v & w1 & Hf).
    assert (forall W', (0 <= Retry.retries (@Retry.default_with_retries W' 2))%Z) as Hr
      by (intros W'; simpl; lia).
    rewrite (DownloadFacts.withRetry_first_success _ _ w w1 v (Hr W) Hf).
    assert (note url (fetchVideoDetail url) (w, log) = (Ok v, (w1, log ++ [url]))) as Hn
      by (unfold note; cbn [fst snd]; rewrite Hf; reflexivity).
    rewrite (DownloadFacts.withRetry_first_success _ _ _ _ v (Hr _) Hn).
    unfold logged_options at 1. cbn [onProgress].
    destruct (onProgress options) as [cb|] eqn:Hop.
    + destruct (Hcb cb Hop (index + 1)%nat total w1) as [w2 Hw2].
      rewrite Hw2. unfold untick at 1. cbn [fst snd]. rewrite Hw2.
      destruct (IH (S index) (results ++ [v]) w2 (log ++ [url]))
        as (out & w' & -> & ->).
      eexists _, _. rewrite <- app_assoc. split; reflexivity.
    + destruct (IH (S index) (results ++ [v]) w1 (log ++ [url]))
        as (out & w' & -> & ->).
      eexists _, _. rewrite <- app_assoc. split; reflexivity.
Qed.

(** X8. With a [fetchVideoDetail] that never throws, the retry wrapper
    of [processBatch] never retries: the run fetches every URL exactly
    once, in the order given. *)
Theorem processBatch_fetches_each_once (videoUrls : list string) (w : W) :
  never_throws -> progress_returns ->
  exists out w',
    processBatch fetchVideoDetail videoUrls options w = (Ok out, w') /\
    processBatch (fun url => note url (fetchVideoDetail url)) videoUrls logged_options
      (w, []) = (Ok out, (w', videoUrls)).
Proof.
  intros Hnt Hcb. unfold processBatch. destruct videoUrls as [|url rest].
  - eexists _, _. split; reflexivity.
  - destruct (processBatch_loop_logged (length (url :: rest)) (url :: rest) Hnt Hcb
                0 [] w []) as (out & w' & -> & ->).
    eexists _, _. split; reflexivity.
Qed.

End Sequential.

Lemma processBatch_never_rejects_witness :
  exists out w',
    processBatch Trials.detail_or_null ["a"; "gone"; "b"] (mkFetchVideoOptions None) 0%nat
    = (Ok out, w') /\
    (length out <= 3)%nat.
Proof.
  apply (processBatch_never_rejects Trials.detail_or_null (mkFetchVideoOptions None)
           ["a"; "gone"; "b"] 0%nat).
  intros cb Hcb. discriminate Hcb.
Defined.

Lemma processBatch_fetches_each_once_witness :
  exists out w',
    processBatch Trials.detail_or_null ["a"; "gone"; "b"] (mkFetchVideoOptions None) 0%nat
    = (Ok out, w') /\
    processBatch (fun url => note url (Trials.detail_or_null url)) ["a"; "gone"; "b"]
      (logged_options (mkFetchVideoOptions None)) (0%nat, [])
    = (Ok out, (w', ["a"; "gone"; "b"])).
Proof.
  apply (processBatch_fetches_each_once Trials.detail_or_null (mkFetchVideoOptions None)
           ["a"; "gone"; "b"] 0%nat).
  - intros url w0. unfold Trials.detail_or_null.
    destruct (String.eqb url "gone"); eexists _, _; reflexivity.
  - intros cb Hcb. discriminate Hcb.
Defined.

End BatchProcessorFacts.

(** ** Batch parsing of links *)
Module ParseBatchFacts.
Import Retry ResolveLinks ParseBatch RetryFacts.

Section Pool.
Context {T R W : Type} `{RT : Runtime W}.
Variable fn : T -> nat -> Async W R.
Variable options : ProcessBatchOptions T R W.

Hypothesis worker_returns : forall x i w, exists r w', fn x i w = (Ok r, w').
Hypothesis retries_not_negative : (0 <= Retry.retries (retry options))%Z.
Hypothesis progress_cb_returns :
  forall cb, Retry.onProgress options = Some cb ->
    forall c t errs w0, exists w1, cb c t errs w0 = (Ok tt, w1).

(** No handler has failed, and none is in a retry. *)
Definition clean (s : PoolState T R W) : Prop :=
  allErrors s = [] /\ Forall (fun t => t_attempt t = 0%Z) (active s).

Lemma refill_fresh (c : nat) (q : list (T * nat)) :
  forall (a : list (Task T)) q' a',
  Forall (fun t => t_attempt t = 0%Z) a ->
  refill c q a = (q', a') ->
  Forall (fun t => t_attempt t = 0%Z) a'.
Proof.
  induction q as [|x q IH]; intros a q' a' Ha Hr; simpl in Hr.
  - inversion Hr; subst. exact Ha.
  - destruct (length a <? c)%nat.
    + eapply IH; [|exact Hr]. apply Forall_app. split; [exact Ha|].
      constructor; [reflexivity|constructor].
    + inversion Hr; subst. exact Ha.
Qed.

Lemma pool_step_clean (total choice : nat) (s s' : PoolState T R W) :
  clean s -> pool_step fn options total choice s = Some s' -> clean s'.
Proof using Type*.
  unfold clean, pool_step. intros [Herr Hact] Hs.
  destruct (refill _ (queue s) (active s)) as [q a] eqn:Hr.
  apply refill_fresh in Hr; [|exact Hact].
  destruct (a !! (choice mod length a)%nat) as [t|] eqn:Hk; [|discriminate].
  pose proof (Forall_lookup_1 _ _ _ _ Hr Hk) as Ht. cbn beta in Ht.
  unfold withRetry_iteration in Hs. rewrite Ht in Hs.
  pose proof retries_not_negative as Hret. apply Z.leb_le in Hret. rewrite Hret in Hs.
  destruct (worker_returns (t_item t) (t_index t) (world s)) as (r & w' & Hfn).
  rewrite Hfn in Hs.
  destruct (Retry.onProgress options) as [cb|] eqn:Hop.
  - destruct (progress_cb_returns cb eq_refl (S (completed s)) total (allErrors s) w')
      as [w1 Hcb].
    rewrite Hcb in Hs. inversion Hs; subst; simpl.
    split; [exact Herr|]. apply Forall_delete. exact Hr.
  - inversion Hs; subst; simpl.
    split; [exact Herr|]. apply Forall_delete. exact Hr.
Qed.

Lemma processBatch_no_errors (items : list T) (sched : nat -> nat) (w : W) :
  (1 <= Retry.concurrency options)%Z ->
  exists out w',
    processBatch items fn options sched w = (Ok out, w') /\
    out_errors out = [] /\ length (out_results out) = length items.
Proof using Type*.
  intros Hc.
  destruct (RetryFacts.processBatch_accounts fn options items sched w Hc)
    as (out & w' & Hrun & Hlen).
  exists out, w'. split; [exact Hrun|].
  assert (out_errors out = []) as Herr.
  { unfold processBatch in Hrun.
    destruct (Retry.concurrency options <? 1)%Z eqn:Hlt; [discriminate|].
    inversion Hrun; subst; clear Hrun. cbn [out_errors].
    match goal with |- context [pool_run _ _ ?t ?sc ?st ?s0] =>
      destruct (RetryFacts.pool_run_rest fn options t clean sc st s0) as [[He _] _] end.
    - intros c s1 s2. apply pool_step_clean.
    - split; [reflexivity|constructor].
    - rewrite He. reflexivity. }
  split; [exact Herr|]. rewrite Herr in Hlen. simpl in Hlen. lia.
Qed.

End Pool.

Section Once.
Context {T R W : Type} `{RT : Runtime W}.
Variable fn : T -> nat -> Async W R.
Variable options : ProcessBatchOptions T R W.

Hypothesis worker_returns : forall x i w, exists r w', fn x i w = (Ok r, w').
Hypothesis retries_not_negative : (0 <= Retry.retries (retry options))%Z.
Hypothesis progress_cb_returns :
  forall cb, Retry.onProgress options = Some cb ->
    forall c t errs w0, exists w1, cb c t errs w0 = (Ok tt, w1).

Lemma outcomes_of_entry (P : nat * Outcome R -> Prop) (i : nat) (o : Outcome R)
    (l : list (nat * Outcome R)) :
  Forall P l -> o ∈ outcomes_of i l -> P (i, o).
Proof.
  intros Hall Hin. unfold outcomes_of in Hin.
  apply list_elem_of_fmap in Hin as ([j o'] & -> & Hin).
  apply list_elem_of_filter in Hin as [Hj Hin]. cbn in Hj. subst j.
  eapply Forall_forall in Hall; [exact Hall|exact Hin].
Qed.

(** A worker that always returns is called exactly once on each item,
    and the results are the values of those calls. *)
Lemma processBatch_calls_once (items : list T) (sched : nat -> nat) (w : W) :
  (1 <= Retry.concurrency options)%Z ->
  exists out w' log,
    processBatch items fn options sched w = (Ok out, w') /\
    @processBatch T R (W * list (nat * Outcome R)) Counting.aside_runtime
      items (logged fn) (logged_options options) sched (w, []) = (Ok out, (w', log)) /\
    out_errors out = [] /\
    (forall i x, items !! i = Some x ->
       exists w0, outcomes_of i log = [fst (fn x i w0)]) /\
    out_results out
      ≡ₚ omap (fun i => result_of (outcomes_of i log)) (seq 0 (length items)).
Proof using Type*.
  intros Hc.
  destruct (processBatch_log fn options items retries_not_negative progress_cb_returns
              sched w Hc)
    as (out & w' & log & Hrun & Hlogged & Hentries & Hdone & Hres & _).
  exists out, w', log. split; [exact Hrun|]. split; [exact Hlogged|].
  split.
  { destruct (processBatch_no_errors fn options worker_returns retries_not_negative
                progress_cb_returns items sched w Hc) as (out' & w'' & Hrun' & Herr & _).
    rewrite Hrun in Hrun'. inversion Hrun'; subst. exact Herr. }
  split; [|exact Hres].
  intros i x Hx.
  destruct (Hdone i (lookup_lt_Some _ _ _ Hx)) as (pre & final & Heq & Hpre & _ & _).
  assert (forall o, o ∈ outcomes_of i log ->
            exists w0, fst (fn x i w0) = o) as Hcalls.
  { intros o Ho.
    destruct (outcomes_of_entry (entry_ok fn items) i o log Hentries Ho)
      as (x' & w0 & Hx' & Hfn).
    cbn [fst snd] in *. rewrite Hx in Hx'. inversion Hx'; subst x'. exists w0. exact Hfn. }
  rewrite Heq in Hcalls. destruct pre as [|o pre].
  - destruct (Hcalls final) as [w0 Hw0]; [apply list_elem_of_here|].
    exists w0. rewrite Heq, Hw0. reflexivity.
  - exfalso. apply Forall_cons in Hpre as [(e & -> & _) _].
    destruct (Hcalls (Throw e)) as [w0 Hw0]; [apply list_elem_of_here|].
    destruct (worker_returns x i w0) as (r & w1 & Hfn). rewrite Hfn in Hw0.
    discriminate Hw0.
Qed.

End Once.

Section Parse.
Context {W : Type} `{RT : Runtime W} `{NW : Network W} `{PF : Platform}.

Lemma omap_id_length {A : Type} (l : list (option A)) :
  (length (omap (fun r => r) l) <= length l)%nat.
Proof.
  induction l as [|a l IH]; [reflexivity|]. cbn [omap list_omap].
  destruct a; simpl; lia.
Qed.

(** X9. With a concurrency of at least one, [parseBatchWithStats]
    returns, whatever the links and the network do: [total] is the
    number of URLs, [success] the number of results, and [failed], their
    difference, is never negative.  When moreover [retries] is not
    negative and [onProgress] returns, [resolveLink] is called exactly
    once on each URL, with the user agent and the retries of the options,
    and the results are, in some order, the values of those calls that
    are not [null]: so [failed] counts the links for which [resolveLink]
    returned [null].  [log] lists the calls of the
    worker handed to [processBatch], by the index of the URL. *)
Theorem parseBatchWithStats_accounts (urls : list string) (options : ParseOptions W)
    (sched : nat -> nat) (w : W) :
  (1 <= default 3 (concurrency options))%Z ->
  exists res w',
    parseBatchWithStats urls options sched w = (Ok res, w') /\
    total (stats res) = Z.of_nat (length urls) /\
    success (stats res) = Z.of_nat (length (results res)) /\
    (0 <= failed (stats res) <= total (stats res))%Z /\
    ((0 <= default 3 (retries options))%Z ->
     (forall cb, onProgress options = Some cb ->
        forall c t w0, exists w1, cb c t w0 = (Ok tt, w1)) ->
     let resolveOptions :=
       ResolveLinks.mkParseOptions (userAgent options) (Some (default 3%Z (retries options))) in
     exists (out : BatchOutcome (option ParseResult))
            (log : list (nat * Outcome (option ParseResult))),
       @processBatch string (option ParseResult)
         (W * list (nat * Outcome (option ParseResult))) Counting.aside_runtime
         urls (logged (resolve_worker resolveOptions))
         (logged_options
            (batch_options (default 3%Z (concurrency options))
               (default 3%Z (retries options)) (onProgress options)))
         sched (w, [])
       = (Ok out, (w', log)) /\
       results res = omap (fun r => r) (out_results out) /\
       (forall i url, urls !! i = Some url ->
          exists w0,
            outcomes_of i log = [Ok (fst (resolveLink url resolveOptions w0))]) /\
       out_results out
         ≡ₚ omap (fun i => result_of (outcomes_of i log)) (seq 0 (length urls)) /\
       failed (stats res)
       = Z.of_nat (length (filter (fun r => r = None) (out_results out)))).
Proof.
  intros Hc.
  set (fn := resolve_worker
               (ResolveLinks.mkParseOptions (userAgent options)
                  (Some (default 3%Z (retries options))))).
  set (bo := batch_options (default 3%Z (concurrency options))
               (default 3%Z (retries options)) (onProgress options)).
  destruct (RetryFacts.processBatch_accounts fn bo urls sched w Hc)
    as (out & w' & Hrun & Hlen).
  assert (parseBatchWithStats urls options sched w
          = (Ok (mkResultsWithStats (omap (fun r => r) (out_results out))
                   (mkStats (Z.of_nat (length urls))
                      (Z.of_nat (length (omap (fun r => r) (out_results out))))
                      (Z.of_nat (length urls)
                       - Z.of_nat (length (omap (fun r => r) (out_results out)))))),
             w')) as Hparse.
  { unfold parseBatchWithStats, parseBatch. destruct urls as [|url rest].
    - unfold processBatch in Hrun.
      destruct (Retry.concurrency bo <? 1)%Z; [discriminate|].
      rewrite pool_run_unfold in Hrun. cbn in Hrun. inversion Hrun; subst. reflexivity.
    - fold fn bo. rewrite Hrun. reflexivity. }
  rewrite Hparse. eexists _, _. split; [reflexivity|].
  cbn [stats results total success failed].
  split; [reflexivity|]. split; [reflexivity|].
  pose proof (omap_id_length (out_results out)) as Hle.
  split; [lia|].
  intros Hret Hcb. cbn zeta. fold fn bo.
  destruct (processBatch_calls_once fn bo) with (items := urls) (sched := sched) (w := w)
    as (out' & w'' & log & Hrun' & Hlogged & Herr & Hcalls & Hres).
  - intros x i w0. unfold fn, resolve_worker.
    destruct (resolveLink x _ w0) as [r w1]. eexists _, _. reflexivity.
  - exact Hret.
  - unfold bo, batch_options. cbn [Retry.onProgress].
    destruct (onProgress options) as [cb0|] eqn:Hop; [|discriminate].
    intros cb Heq. inversion Heq; subst. intros c t errs w0. apply (Hcb cb0 eq_refl).
  - exact Hc.
  - rewrite Hrun in Hrun'. inversion Hrun'; subst out' w''.
    exists out, log. split; [exact Hlogged|]. split; [reflexivity|].
    split; [|split; [exact Hres|]].
    + intros i url Hurl. destruct (Hcalls i url Hurl) as [w0 Hw0].
      exists w0. rewrite Hw0. unfold fn, resolve_worker.
      destruct (resolveLink url _ w0) as [r w1]. reflexivity.
    + rewrite Herr in Hlen. cbn [length] in Hlen. rewrite Nat.add_0_r in Hlen.
      rewrite <- Hlen. clear. induction (out_results out) as [|r l IH]; [reflexivity|].
      rewrite filter_cons. cbn [omap list_omap length].
      destruct r as [p|]; cbn [length].
      * destruct (decide (Some p = None)) as [Hd|_]; [discriminate Hd|]. lia.
      * destruct (decide (@None ParseResult = None)) as [_|Hd]; [|congruence].
        cbn [length]. lia.
Qed.

End Parse.

Lemma parseBatchWithStats_accounts_witness :
  exists res w',
    @parseBatchWithStats Scenario.NetWorld _ (Scenario.scripted_network []) _
      ["https://www.douyin.com/video/7123456789"; "https://example.com/"]
      (mkParseOptions None None None None) (fun n => n) (Scenario.mkNetWorld 0 0)
    = (Ok res, w') /\
    total (stats res) = 2%Z /\
    (0 <= failed (stats res) <= 2)%Z /\
    exists (out : BatchOutcome (option ParseResult))
           (log : list (nat * Outcome (option ParseResult))),
      results res = omap (fun r => r) (out_results out) /\
      (exists w0,
         outcomes_of 1 log
         = [Ok (fst (@resolveLink Scenario.NetWorld _ (Scenario.scripted_network []) _
                       "https://example.com/"
                       (ResolveLinks.mkParseOptions None (Some 3%Z)) w0))]) /\
      out_results out ≡ₚ omap (fun i => result_of (outcomes_of i log)) [0; 1]%nat.
Proof.
  destruct (@parseBatchWithStats_accounts Scenario.NetWorld _ (Scenario.scripted_network []) _
              ["https://www.douyin.com/video/7123456789"; "https://example.com/"]
              (mkParseOptions None None None None) (fun n => n) (Scenario.mkNetWorld 0 0))
    as (res & w' & Hrun & Htot & _ & Hfail & Hcalls).
  - simpl. lia.
  - exists res, w'. split; [exact Hrun|]. rewrite Htot in Hfail.
    split; [exact Htot|]. split; [exact Hfail|].
    destruct Hcalls as (out & log & _ & Hres & Hlog & Hperm & _);
      [simpl; lia|intros cb Hcb; discriminate Hcb|].
    exists out, log. split; [exact Hres|]. split; [|exact Hperm].
    apply (Hlog 1%nat "https://example.com/"). reflexivity.
Defined.

End ParseBatchFacts.

(** ** The matcher against the language of a pattern *)
Module RegexFacts.
Import Regex GlobalMatch LinkFacts.

Lemma sapp_assoc (a b c : string) : ((a ++ b) ++ c)%string = (a ++ (b ++ c))%string.
Proof. induction a as [|x a IH]; simpl; [reflexivity|]. rewrite IH. reflexivity. Qed.

Lemma sapp_nil_r (a : string) : (a ++ "")%string = a.
Proof. induction a as [|x a IH]; simpl; [reflexivity|]. rewrite IH. reflexivity. Qed.

Lemma sapp_length (a b : string) :
  String.length (a ++ b)%string = (String.length a + String.length b)%nat.
Proof. induction a as [|x a IH]; simpl; [reflexivity|]. rewrite IH. reflexivity. Qed.

Lemma substring_sapp (a b : string) :
  substring 0 (String.length (a ++ b)%string - String.length b) (a ++ b)%string = a.
Proof.
  rewrite sapp_length, Nat.add_sub.
  induction a as [|x a IH]; simpl; [destruct b; reflexivity|]. rewrite IH. reflexivity.
Qed.

Lemma all_chars_app (p : ascii -> bool) (a b : string) :
  all_chars p (a ++ b)%string = all_chars p a && all_chars p b.
Proof.
  induction a as [|x a IH]; simpl; [reflexivity|]. rewrite IH, andb_assoc. reflexivity.
Qed.

(** The texts that a pattern matches from end to end. *)
Fixpoint lang (r : re) (s : string) : Prop :=
  match r with
  | Lit l => s = l
  | Cls p => exists c, s = String c "" /\ p c = true
  | Seq a b => exists s1 s2, s = (s1 ++ s2)%string /\ lang a s1 /\ lang b s2
  | Alt a b => lang a s \/ lang b s
  | Opt a => s = "" \/ lang a s
  | Star p => all_chars p s = true
  | Plus p => s <> "" /\ all_chars p s = true
  | Group a => lang a s
  end.

(** The text contains a match of the pattern. *)
Definition occurs (r : re) (text : string) : Prop :=
  exists pre mid post, text = (pre ++ mid ++ post)%string /\ lang r mid.

Lemma lit_spec (l s s' : string) : lit l s = Some s' <-> s = (l ++ s')%string.
Proof.
  revert s. induction l as [|a l IH]; intros s; simpl.
  - split; [intros H; inversion H; reflexivity|intros ->; reflexivity].
  - destruct s as [|b s]; [split; discriminate|].
    destruct (Ascii.eqb a b) eqn:Hab.
    + apply Ascii.eqb_eq in Hab as ->. rewrite IH. split; [intros ->; reflexivity|].
      intros H; inversion H; reflexivity.
    + split; [discriminate|]. intros H; inversion H; subst.
      rewrite Ascii.eqb_refl in Hab. discriminate.
Qed.

Lemma is_Some_first {A : Type} (x y : option A) :
  is_Some (match x with Some res => Some res | None => y end) <-> is_Some x \/ is_Some y.
Proof.
  destruct x as [a|]; split.
  - intros _. left. eexists; reflexivity.
  - intros _. eexists; reflexivity.
  - intros H. right. exact H.
  - intros [[a Ha]|H]; [discriminate|exact H].
Qed.

Lemma star_sound {A : Type} (p : ascii -> bool) (s : string)
    (k : string -> option A) (res : A) :
  star p s k = Some res ->
  exists mid rest, s = (mid ++ rest)%string /\ all_chars p mid = true /\ k rest = Some res.
Proof.
  induction s as [|c s IH]; simpl; intros H.
  - exists "", "". auto.
  - destruct (p c) eqn:Hc; [|exists "", (String c s); auto].
    destruct (star p s k) as [r|] eqn:Hs.
    + inversion H; subst. destruct (IH eq_refl) as (mid & rest & -> & Hall & Hk).
      exists (String c mid), rest. simpl. rewrite Hc, Hall. auto.
    + exists "", (String c s). auto.
Qed.

Lemma star_keeps {A : Type} (p : ascii -> bool) (s : string) (k : string -> option A) :
  is_Some (k s) -> is_Some (star p s k).
Proof.
  intros Hk. destruct s as [|c s]; simpl; [exact Hk|].
  destruct (p c); [|exact Hk]. apply is_Some_first. right. exact Hk.
Qed.

Lemma star_complete {A : Type} (p : ascii -> bool) (mid rest : string)
    (k : string -> option A) :
  all_chars p mid = true -> is_Some (k rest) -> is_Some (star p (mid ++ rest)%string k).
Proof.
  intros Hall Hk. induction mid as [|c mid IH]; simpl in *.
  - apply star_keeps. exact Hk.
  - apply andb_true_iff in Hall as [Hc Hall]. rewrite Hc.
    apply is_Some_first. left. apply IH. exact Hall.
Qed.

Lemma star_agrees {A B : Type} (p : ascii -> bool) (s : string)
    (k1 : string -> option A) (k2 : string -> option B) :
  (forall s', is_Some (k1 s') <-> is_Some (k2 s')) ->
  (is_Some (star p s k1) <-> is_Some (star p s k2)).
Proof.
  intros Hk. induction s as [|c s IH]; simpl; [apply Hk|].
  destruct (p c); [|apply Hk]. rewrite !is_Some_first, IH, Hk. reflexivity.
Qed.

Lemma m_rest_sound {A : Type} (r : re) :
  forall (s : string) (k : string -> option A) (res : A),
  m_rest r s k = Some res ->
  exists mid rest, s = (mid ++ rest)%string /\ lang r mid /\ k rest = Some res.
Proof.
  induction r as [l|p|a IHa b IHb|a IHa b IHb|a IHa|p|p|a IHa];
    intros s k res H; cbn [m_rest lang] in *.
  - destruct (lit l s) as [s'|] eqn:Hl; [|discriminate].
    apply lit_spec in Hl. exists l, s'. auto.
  - destruct s as [|c s]; [discriminate|]. destruct (p c) eqn:Hc; [|discriminate].
    exists (String c ""), s. split; [reflexivity|]. split; [|exact H].
    exists c. auto.
  - apply IHa in H as (m1 & r1 & -> & Ha & H).
    apply IHb in H as (m2 & r2 & -> & Hb & H).
    exists (m1 ++ m2)%string, r2. rewrite sapp_assoc. split; [reflexivity|].
    split; [|exact H]. exists m1, m2. auto.
  - destruct (m_rest a s k) as [ra|] eqn:Ha.
    + inversion H; subst. apply IHa in Ha as (mid & rest & -> & Hl & Hk).
      exists mid, rest. auto.
    + apply IHb in H as (mid & rest & -> & Hl & Hk). exists mid, rest. auto.
  - destruct (m_rest a s k) as [ra|] eqn:Ha.
    + inversion H; subst. apply IHa in Ha as (mid & rest & -> & Hl & Hk).
      exists mid, rest. auto.
    + exists "", s. auto.
  - apply star_sound in H as (mid & rest & -> & Hall & Hk). exists mid, rest. auto.
  - destruct s as [|c s]; [discriminate|]. destruct (p c) eqn:Hc; [|discriminate].
    apply star_sound in H as (mid & rest & -> & Hall & Hk).
    exists (String c mid), rest. simpl. rewrite Hc, Hall.
    split; [reflexivity|]. split; [split; [discriminate|reflexivity]|exact Hk].
  - apply IHa in H. exact H.
Qed.

Lemma m_rest_complete {A : Type} (r : re) :
  forall (mid rest : string) (k : string -> option A),
  lang r mid -> is_Some (k rest) -> is_Some (m_rest r (mid ++ rest)%string k).
Proof.
  induction r as [l|p|a IHa b IHb|a IHa b IHb|a IHa|p|p|a IHa];
    intros mid rest k Hl Hk; cbn [m_rest lang] in *.
  - subst. assert (lit l (l ++ rest)%string = Some rest) as -> by (apply lit_spec; reflexivity).
    exact Hk.
  - destruct Hl as (c & -> & Hc). simpl. rewrite Hc. exact Hk.
  - destruct Hl as (s1 & s2 & -> & Ha & Hb). rewrite sapp_assoc.
    apply IHa; [exact Ha|]. apply IHb; assumption.
  - apply is_Some_first. destruct Hl as [Ha|Hb]; [left; apply IHa|right; apply IHb];
      assumption.
  - apply is_Some_first. destruct Hl as [->|Ha]; [right; exact Hk|left; apply IHa];
      assumption.
  - apply star_complete; assumption.
  - destruct Hl as [Hne Hall]. destruct mid as [|c mid]; [congruence|].
    simpl in *. apply andb_true_iff in Hall as [Hc Hall]. rewrite Hc.
    apply star_complete; assumption.
  - apply IHa; assumption.
Qed.

Lemma none_agrees {A B : Type} : is_Some (@None A) <-> is_Some (@None B).
Proof. split; intros [x Hx]; discriminate. Qed.

(** The two matchers succeed on the same inputs. *)
Lemma m_agrees {A : Type} (r : re) :
  forall (s : string) (cap : option string)
         (k : string -> option string -> option (option string))
         (k' : string -> option A),
  (forall s' c, is_Some (k s' c) <-> is_Some (k' s')) ->
  (is_Some (m r s cap k) <-> is_Some (m_rest r s k')).
Proof.
  induction r as [l|p|a IHa b IHb|a IHa b IHb|a IHa|p|p|a IHa];
    intros s cap k k' Hk; cbn [m m_rest].
  - destruct (lit l s); [apply Hk|apply none_agrees].
  - destruct s as [|c s]; [apply none_agrees|].
    destruct (p c); [apply Hk|apply none_agrees].
  - apply IHa. intros s' c. apply IHb. exact Hk.
  - rewrite !is_Some_first, (IHa s cap k k' Hk), (IHb s cap k k' Hk). reflexivity.
  - rewrite !is_Some_first, (IHa s cap k k' Hk), Hk. reflexivity.
  - apply star_agrees. intros s'. apply Hk.
  - destruct s as [|c s]; [apply none_agrees|]. destruct (p c); [|apply none_agrees].
    apply star_agrees. intros s'. apply Hk.
  - apply IHa. intros s' c. apply Hk.
Qed.

Lemma match_here_end (r : re) (s : string) :
  is_Some (match_here r s) <-> is_Some (match_end r s).
Proof.
  apply m_agrees. intros s' c. split; intros _; eexists; reflexivity.
Qed.

Lemma match_end_spec (r : re) (s : string) :
  is_Some (match_end r s) <-> exists mid rest, s = (mid ++ rest)%string /\ lang r mid.
Proof.
  split.
  - intros [res H]. apply m_rest_sound in H as (mid & rest & -> & Hl & _).
    exists mid, rest. auto.
  - intros (mid & rest & -> & Hl). apply m_rest_complete; [exact Hl|].
    eexists; reflexivity.
Qed.

Lemma search_spec (r : re) (s : string) : is_Some (search r s) <-> occurs r s.
Proof.
  unfold occurs. induction s as [|c s IH]; cbn [search].
  - rewrite is_Some_first, match_here_end, match_end_spec. split.
    + intros [(mid & rest & Hs & Hl)|[x Hx]]; [|discriminate]. exists "", mid, rest. auto.
    + intros (pre & mid & post & Hs & Hl). left.
      destruct pre; [|discriminate]. exists mid, post. auto.
  - rewrite is_Some_first, match_here_end, match_end_spec, IH. split.
    + intros [(mid & rest & Hs & Hl)|(pre & mid & post & -> & Hl)].
      * exists "", mid, rest. auto.
      * exists (String c pre), mid, post. auto.
    + intros (pre & mid & post & Hs & Hl). destruct pre as [|d pre].
      * left. exists mid, post. auto.
      * right. simpl in Hs. inversion Hs; subst. exists pre, mid, post. auto.
Qed.

Lemma test_spec (r : re) (s : string) : test r s = true <-> occurs r s.
Proof.
  rewrite <- search_spec. unfold test. destruct (search r s) as [cap|].
  - split; [intros _; eexists; reflexivity|reflexivity].
  - split; [discriminate|intros [x Hx]; discriminate].
Qed.

End RegexFacts.

(** ** Extraction of links from a text *)
Module TextLinksFacts.
Import Regex LinkPatterns GlobalMatch LinkFacts RegexFacts.

Lemma match_all_elem (r : re) (s : string) :
  forall (skip : nat) (l : string),
  l ∈ match_all r s skip ->
  exists pre post, s = (pre ++ l ++ post)%string /\ lang r l.
Proof.
  induction s as [|c s IH]; intros skip l Hin.
  - destruct skip; cbn [match_all] in Hin; [|inversion Hin].
    destruct (match_end r "") as [rest|] eqn:He; [|inversion Hin].
    apply list_elem_of_singleton in Hin.
    apply m_rest_sound in He as (mid & rest' & Hs & Hl & Hk). inversion Hk; subst rest'.
    destruct mid; [|discriminate]. destruct rest; [|discriminate].
    simpl in Hin. subst l. exists "", "". auto.
  - destruct skip as [|skip]; cbn [match_all] in Hin.
    + destruct (match_end r (String c s)) as [rest|] eqn:He.
      * apply elem_of_cons in Hin as [->|Hin].
        -- apply m_rest_sound in He as (mid & rest' & Hs & Hl & Hk).
           inversion Hk; subst rest'. rewrite Hs, substring_sapp.
           exists "", rest. auto.
        -- apply IH in Hin as (pre & post & -> & Hl).
           exists (String c pre), post. auto.
      * apply IH in Hin as (pre & post & -> & Hl). exists (String c pre), post. auto.
    + apply IH in Hin as (pre & post & -> & Hl). exists (String c pre), post. auto.
Qed.

Lemma match_all_occurs (r : re) (s : string) : match_all r s 0 <> [] <-> occurs r s.
Proof.
  rewrite <- search_spec. induction s as [|c s IH]; cbn [match_all search].
  - rewrite is_Some_first, match_here_end.
    destruct (match_end r "") as [rest|].
    + split; [intros _; left; eexists; reflexivity|discriminate].
    + split; [congruence|]. intros [[x Hx]|[x Hx]]; discriminate.
  - rewrite is_Some_first, match_here_end.
    destruct (match_end r (String c s)) as [rest|].
    + split; [intros _; left; eexists; reflexivity|discriminate].
    + rewrite IH. split; [intros H; right; exact H|].
      intros [[x Hx]|H]; [discriminate|exact H].
Qed.

Lemma existsb_eqb (x : string) (l : list string) :
  existsb (String.eqb x) l = true <-> x ∈ l.
Proof.
  rewrite existsb_exists, list_elem_of_In. split.
  - intros (y & Hy & Heq). apply String.eqb_eq in Heq as ->. exact Hy.
  - intros Hx. exists x. split; [exact Hx|apply String.eqb_refl].
Qed.

Lemma push_new_elem (results : list string) (x y : string) :
  y ∈ push_new results x <-> y ∈ results \/ y = x.
Proof.
  unfold push_new. destruct (existsb (String.eqb x) results) eqn:He.
  - apply existsb_eqb in He. split; [auto|]. intros [H| ->]; assumption.
  - rewrite elem_of_app, list_elem_of_singleton. reflexivity.
Qed.

Lemma push_new_NoDup (results : list string) (x : string) :
  NoDup results -> NoDup (push_new results x).
Proof.
  intros Hnd. unfold push_new. destruct (existsb (String.eqb x) results) eqn:He;
    [exact Hnd|].
  apply NoDup_app. split; [exact Hnd|]. split; [|apply NoDup_singleton].
  intros y Hy Hyx. apply list_elem_of_singleton in Hyx as ->.
  apply existsb_eqb in Hy. congruence.
Qed.

Lemma fold_push_new (matches : list string) :
  forall results : list string,
  (NoDup results -> NoDup (fold_left push_new matches results)) /\
  (forall y, y ∈ fold_left push_new matches results <-> y ∈ results \/ y ∈ matches).
Proof.
  induction matches as [|x matches IH]; intros results; cbn [fold_left].
  - split; [auto|]. intros y. rewrite elem_of_nil. tauto.
  - destruct (IH (push_new results x)) as [Hnd Hin]. split.
    + intros H. apply Hnd, push_new_NoDup, H.
    + intros y. rewrite Hin, push_new_elem, elem_of_cons. tauto.
Qed.

Lemma fold_patterns (text : string) (patterns : list re) :
  forall results : list string,
  let out := fold_left
               (fun results pattern => fold_left push_new (match_all pattern text 0) results)
               patterns results in
  (NoDup results -> NoDup out) /\
  (forall y, y ∈ out <->
             y ∈ results \/
             exists pattern, pattern ∈ patterns /\ y ∈ match_all pattern text 0).
Proof.
  induction patterns as [|p patterns IH]; intros results; cbn [fold_left].
  - split; [auto|]. intros y. split; [auto|]. intros [H|(q & Hq & _)]; [exact H|].
    inversion Hq.
  - destruct (IH (fold_left push_new (match_all p text 0) results)) as [Hnd Hin].
    destruct (fold_push_new (match_all p text 0) results) as [Hnd1 Hin1].
    split; [intros H; apply Hnd, Hnd1, H|].
    intros y. cbn zeta in Hin. rewrite Hin, Hin1. split.
    + intros [[H|H]|(q & Hq & H)]; [left; exact H|right; exists p|right; exists q].
      * split; [apply list_elem_of_here|exact H].
      * split; [apply list_elem_of_further, Hq|exact H].
    + intros [H|(q & Hq & H)]; [left; left; exact H|].
      apply elem_of_cons in Hq as [->|Hq]; [left; right; exact H|].
      right. exists q. auto.
Qed.

Lemma short_code_plain_short_code (c : ascii) :
  TextLinks.short_code_plain c = true -> short_code c = true.
Proof.
  unfold TextLinks.short_code_plain, short_code. intros H.
  repeat (apply orb_true_iff in H as [H|H]); rewrite H, ?orb_true_r; reflexivity.
Qed.

Lemma all_chars_mono (p q : ascii -> bool) (s : string) :
  (forall c, p c = true -> q c = true) -> all_chars p s = true -> all_chars q s = true.
Proof.
  intros Hpq. induction s as [|c s IH]; simpl; [reflexivity|].
  intros H. apply andb_true_iff in H as [Hc Hs]. rewrite (Hpq c Hc), (IH Hs). reflexivity.
Qed.

(** Every pattern of extractDouyinLinks.ts matches only what a pattern
    of the table of link-patterns.ts matches, and never the empty text. *)
Lemma PATTERNS_in_table (pattern : re) (link : string) :
  pattern ∈ TextLinks.PATTERNS -> lang pattern link ->
  link <> "" /\
  exists linkType, linkType ∈ DOUYIN_LINK_PATTERNS /\ lang (LinkPatterns.pattern linkType) link.
Proof.
  unfold TextLinks.PATTERNS, DOUYIN_LINK_PATTERNS. intros Hp Hl.
  assert (link <> "") as Hne.
  { repeat (apply elem_of_cons in Hp as [->|Hp]); try (inversion Hp; fail);
      cbn [seqs app scheme_www lang] in Hl;
      destruct Hl as (s1 & s2 & -> & -> & _); discriminate. }
  split; [exact Hne|].
  apply elem_of_cons in Hp as [->|Hp];
    [eexists; split; [apply list_elem_of_here|exact Hl]|].
  apply elem_of_cons in Hp as [->|Hp].
  { eexists. split; [apply list_elem_of_further, list_elem_of_here|].
    cbn [LinkPatterns.pattern seqs lang] in *.
    destruct Hl as (s1 & s2 & -> & H1 & s3 & s4 & -> & H3 & s5 & s6 & -> & H5
                    & s7 & s8 & -> & [H7 H7'] & H8).
    exists s1, (s3 ++ s5 ++ s7 ++ s8)%string. split; [reflexivity|]. split; [exact H1|].
    exists s3, (s5 ++ s7 ++ s8)%string. split; [reflexivity|]. split; [exact H3|].
    exists s5, (s7 ++ s8)%string. split; [reflexivity|]. split; [exact H5|].
    exists s7, s8. split; [reflexivity|]. split; [|exact H8].
    split; [exact H7|]. eapply all_chars_mono; [apply short_code_plain_short_code|exact H7']. }
  apply elem_of_cons in Hp as [->|Hp];
    [eexists; split; [do 2 apply list_elem_of_further; apply list_elem_of_here|exact Hl]|].
  apply elem_of_cons in Hp as [->|Hp];
    [eexists; split; [do 3 apply list_elem_of_further; apply list_elem_of_here|exact Hl]|].
  apply elem_of_cons in Hp as [->|Hp];
    [eexists; split; [do 4 apply list_elem_of_further; apply list_elem_of_here|exact Hl]|].
  apply elem_of_cons in Hp as [->|Hp];
    [eexists; split; [do 6 apply list_elem_of_further; apply list_elem_of_here|exact Hl]|].
  inversion Hp.
Qed.

Lemma lang_occurs (r : re) (link : string) : lang r link -> occurs r link.
Proof. intros Hl. exists "", link, "". rewrite sapp_nil_r. auto. Qed.

(** [getLinkType] finds a type exactly for the texts in which a pattern
    of the table occurs. *)
Lemma getLinkType_spec (url : string) :
  is_Some (getLinkType url) <->
  exists linkType, linkType ∈ DOUYIN_LINK_PATTERNS /\ occurs (LinkPatterns.pattern linkType) url.
Proof.
  unfold getLinkType. split.
  - intros [lt Hf]. apply find_some in Hf as [Hin Ht].
    exists lt. split; [apply list_elem_of_In, Hin|apply test_spec, Ht].
  - intros (lt & Hin & Hocc). apply test_spec in Hocc.
    destruct (find _ DOUYIN_LINK_PATTERNS) as [x|] eqn:Hf; [eexists; reflexivity|].
    apply list_elem_of_In in Hin.
    pose proof (find_none _ _ Hf lt Hin) as Hno. cbn beta in Hno. congruence.
Qed.

Lemma extracted_link (text link : string) :
  link ∈ TextLinks.extractDouyinLinks text ->
  includes text link = true /\ link <> "" /\
  exists linkType, getLinkType link = Some linkType.
Proof.
  unfold TextLinks.extractDouyinLinks.
  destruct (String.eqb text ""); [intros H; inversion H|].
  destruct (fold_patterns text TextLinks.PATTERNS []) as [_ Hin].
  intros Hl. apply Hin in Hl as [Hl|(p & Hp & Hl)]; [inversion Hl|].
  apply match_all_elem in Hl as (pre & post & -> & Hlang).
  split; [apply JsFacts.includes_spec; exists pre, post; reflexivity|].
  destruct (PATTERNS_in_table p link Hp Hlang) as [Hne (lt & Hlt & Hlang')].
  split; [exact Hne|].
  assert (is_Some (getLinkType link)) as [x Hx].
  { apply getLinkType_spec. exists lt. split; [exact Hlt|apply lang_occurs, Hlang']. }
  exists x. exact Hx.
Qed.

(** X10. The links that [extractDouyinLinks] of extractDouyinLinks.ts
    returns are distinct, none is empty, each is a piece of the text, and
    each has a link type in the table of link-patterns.ts: [getLinkType],
    and with it [resolveLink], does not turn away a link because the two
    files disagree on what a link is. *)
Theorem extractDouyinLinks_sound (text : string) :
  NoDup (TextLinks.extractDouyinLinks text) /\
  forall link, link ∈ TextLinks.extractDouyinLinks text ->
    includes text link = true /\ link <> "" /\
    exists linkType, getLinkType link = Some linkType.
Proof.
  split; [|intros link; apply extracted_link].
  unfold TextLinks.extractDouyinLinks.
  destruct (String.eqb text ""); [constructor|].
  destruct (fold_patterns text TextLinks.PATTERNS []) as [Hnd _].
  apply Hnd. constructor.
Qed.

Lemma lang_alts (l : list re) (s : string) :
  l <> [] -> (lang (CombinedLinks.alts l) s <-> exists r, r ∈ l /\ lang r s).
Proof.
  induction l as [|r l IH]; [congruence|]. intros _. destruct l as [|r' l].
  - cbn [CombinedLinks.alts]. split.
    + intros H. exists r. split; [apply list_elem_of_here|exact H].
    + intros (q & Hq & H). apply list_elem_of_singleton in Hq as ->. exact H.
  - change (CombinedLinks.alts (r :: r' :: l)) with (Alt r (CombinedLinks.alts (r' :: l))).
    cbn [lang]. rewrite IH by discriminate. split.
    + intros [H|(q & Hq & H)].
      * exists r. split; [apply list_elem_of_here|exact H].
      * exists q. split; [apply list_elem_of_further, Hq|exact H].
    + intros (q & Hq & H). apply elem_of_cons in Hq as [->|Hq]; [left; exact H|].
      right. exists q. auto.
Qed.

Lemma table_nonempty (linkType : LinkPattern) (link : string) :
  linkType ∈ DOUYIN_LINK_PATTERNS -> lang (LinkPatterns.pattern linkType) link -> link <> "".
Proof.
  unfold DOUYIN_LINK_PATTERNS. intros Hp Hl.
  repeat (apply elem_of_cons in Hp as [->|Hp]); try (inversion Hp; fail);
    cbn [LinkPatterns.pattern seqs app scheme_www lang] in Hl;
    destruct Hl as (s1 & s2 & -> & -> & _); discriminate.
Qed.

Lemma occurs_nonempty (r : re) (text : string) :
  (forall link, lang r link -> link <> "") -> occurs r text -> text <> "".
Proof.
  intros Hne (pre & mid & post & -> & Hl). apply Hne in Hl.
  destruct pre; [|discriminate]. destruct mid; [congruence|discriminate].
Qed.

Lemma combined_occurs (text : string) :
  occurs CombinedLinks.createCombinedPattern text <->
  exists linkType,
    linkType ∈ DOUYIN_LINK_PATTERNS /\ occurs (LinkPatterns.pattern linkType) text.
Proof.
  unfold occurs, CombinedLinks.createCombinedPattern. split.
  - intros (pre & mid & post & -> & Hl).
    apply lang_alts in Hl as (r & Hr & Hl); [|discriminate].
    apply list_elem_of_fmap in Hr as (lt & -> & Hlt).
    exists lt. split; [exact Hlt|]. exists pre, mid, post. auto.
  - intros (lt & Hlt & pre & mid & post & -> & Hl).
    exists pre, mid, post. split; [reflexivity|].
    apply lang_alts; [discriminate|]. exists (LinkPatterns.pattern lt).
    split; [|exact Hl]. apply list_elem_of_fmap. exists lt. auto.
Qed.

Lemma fold_push_new_nonempty (matches : list string) :
  matches <> [] -> fold_left push_new matches [] <> [].
Proof.
  destruct matches as [|x matches]; [congruence|]. intros _ Hnil.
  destruct (fold_push_new (x :: matches) []) as [_ Hin].
  assert (x ∈ fold_left push_new (x :: matches) []) as Hx
    by (apply Hin; right; apply list_elem_of_here).
  rewrite Hnil in Hx. inversion Hx.
Qed.

Lemma table_occurs_nonempty (linkType : LinkPattern) (text : string) :
  linkType ∈ DOUYIN_LINK_PATTERNS -> occurs (LinkPatterns.pattern linkType) text ->
  text <> "".
Proof.
  intros Hlt Hocc. eapply occurs_nonempty; [|exact Hocc].
  intros link. apply table_nonempty. exact Hlt.
Qed.

Lemma contains_combined (text : string) :
  CombinedLinks.containsDouyinLink text = true <->
  occurs CombinedLinks.createCombinedPattern text.
Proof.
  unfold CombinedLinks.containsDouyinLink. rewrite <- test_spec.
  destruct (String.eqb text "") eqn:He; [|reflexivity].
  apply String.eqb_eq in He as ->. split; [discriminate|].
  intros Ht. apply test_spec, combined_occurs in Ht as (lt & Hlt & Hocc).
  exfalso. exact (table_occurs_nonempty lt "" Hlt Hocc eq_refl).
Qed.

Lemma contains_iff_type (text : string) :
  CombinedLinks.containsDouyinLink text = true <-> is_Some (getLinkType text).
Proof. rewrite contains_combined, combined_occurs. exact (iff_sym (getLinkType_spec text)). Qed.

(** X11. In extract-links.ts, [containsDouyinLink] says yes exactly
    when [extractDouyinLinks] finds a link, and exactly when
    [getLinkType] gives the text itself a type: the patterns are searched
    for anywhere in their input.  The links extracted are distinct, and
    each is a piece of the text that [getLinkType] recognises. *)
Theorem containsDouyinLink_spec (text : string) :
  (CombinedLinks.containsDouyinLink text = true <->
   CombinedLinks.extractDouyinLinks text <> []) /\
  (CombinedLinks.containsDouyinLink text = true <->
   exists linkType, getLinkType text = Some linkType) /\
  NoDup (CombinedLinks.extractDouyinLinks text) /\
  (forall link, link ∈ CombinedLinks.extractDouyinLinks text ->
     includes text link = true /\ exists linkType, getLinkType link = Some linkType).
Proof.
  split; [|split; [|split]].
  - rewrite contains_combined. unfold CombinedLinks.extractDouyinLinks.
    destruct (String.eqb text "") eqn:He.
    + apply String.eqb_eq in He as ->. split; [|congruence].
      intros Ht. apply combined_occurs in Ht as (lt & Hlt & Hocc).
      exfalso. exact (table_occurs_nonempty lt "" Hlt Hocc eq_refl).
    + rewrite <- match_all_occurs.
      destruct (match_all CombinedLinks.createCombinedPattern text 0) as [|x l] eqn:Hm.
      * tauto.
      * split; [intros _; apply fold_push_new_nonempty; discriminate|discriminate].
  - apply contains_iff_type.
  - unfold CombinedLinks.extractDouyinLinks.
    destruct (String.eqb text ""); [constructor|].
    destruct (match_all CombinedLinks.createCombinedPattern text 0) as [|x l];
      [constructor|].
    apply fold_push_new. constructor.
  - intros link Hl. unfold CombinedLinks.extractDouyinLinks in Hl.
    destruct (String.eqb text ""); [inversion Hl|].
    destruct (match_all CombinedLinks.createCombinedPattern text 0) as [|x l] eqn:Hm;
      [inversion Hl|].
    apply fold_push_new in Hl as [Hl|Hl]; [inversion Hl|].
    rewrite <- Hm in Hl. apply match_all_elem in Hl as (pre & post & -> & Hlang).
    split; [apply JsFacts.includes_spec; exists pre, post; reflexivity|].
    assert (is_Some (getLinkType link)) as [y Hy]; [|exists y; exact Hy].
    apply getLinkType_spec, combined_occurs, lang_occurs, Hlang.
Qed.

(** X12. A text in which extractDouyinLinks.ts finds a link is a text
    in which extract-links.ts finds one; not the other way round: a
    webapp link is known to extract-links.ts alone. *)
Theorem extractors_compared :
  (forall text, TextLinks.containsDouyinLink text = true ->
                CombinedLinks.containsDouyinLink text = true) /\
  CombinedLinks.containsDouyinLink "see https://www.douyin.com/webapp/7123456789" = true /\
  TextLinks.containsDouyinLink "see https://www.douyin.com/webapp/7123456789"
  = false.
Proof.
  split; [|split; vm_compute; reflexivity].
  intros text Hc. unfold TextLinks.containsDouyinLink in Hc.
  apply Nat.ltb_lt in Hc.
  destruct (TextLinks.extractDouyinLinks text) as [|link l] eqn:Hex;
    [simpl in Hc; lia|].
  destruct (extracted_link text link) as (Hinc & _ & lt & Hlt);
    [rewrite Hex; apply list_elem_of_here|].
  apply contains_iff_type, getLinkType_spec.
  assert (is_Some (getLinkType link)) as Hl by (eexists; exact Hlt).
  apply getLinkType_spec in Hl as (lt' & Hin & m1 & m2 & m3 & -> & Hlang).
  exists lt'. split; [exact Hin|].
  apply JsFacts.includes_spec in Hinc as (a & b & ->).
  exists (a ++ m1)%string, m2, (m3 ++ b)%string. split; [|exact Hlang].
  rewrite !sapp_assoc. reflexivity.
Qed.

End TextLinksFacts.

(** ** Links that need no redirect *)
Module DirectLinkFacts.
Import Regex LinkPatterns ResolveLinks LinkFacts RegexFacts.

(** Whatever the matcher returns, its continuation returned. *)
Lemma m_from_k (r : re) :
  forall (s : string) (cap : option string)
         (k : string -> option string -> option (option string)) (res : option string),
  m r s cap k = Some res -> exists s' cap', k s' cap' = Some res.
Proof.
  induction r as [l|p|a IHa b IHb|a IHa b IHb|a IHa|p|p|a IHa];
    intros s cap k res H; cbn [m] in H.
  - destruct (lit l s) as [s'|]; [|discriminate]. eauto.
  - destruct s as [|c s]; [discriminate|]. destruct (p c); [|discriminate]. eauto.
  - apply IHa in H as (s' & cap' & H). apply IHb in H. exact H.
  - destruct (m a s cap k) as [ra|] eqn:Ha.
    + inversion H; subst. apply IHa in Ha. exact Ha.
    + apply IHb in H. exact H.
  - destruct (m a s cap k) as [ra|] eqn:Ha.
    + inversion H; subst. apply IHa in Ha. exact Ha.
    + eauto.
  - apply star_sound in H as (mid & rest & _ & _ & H). eauto.
  - destruct s as [|c s]; [discriminate|]. destruct (p c); [|discriminate].
    apply star_sound in H as (mid & rest & _ & _ & H). eauto.
  - apply IHa in H as (s' & cap' & H). eauto.
Qed.

Lemma seq_from_second (a b : re) (s : string) (cap : option string)
    (k : string -> option string -> option (option string)) (res : option string) :
  m (Seq a b) s cap k = Some res -> exists s' cap', m b s' cap' k = Some res.
Proof. cbn [m]. intros H. apply m_from_k in H. exact H. Qed.

(** A group of one or more class characters at the end of a pattern
    captures a non-empty run of the class. *)
Lemma final_group_capture (p : ascii -> bool) (s : string) (cap res : option string) :
  m (Group (Plus p)) s cap (fun _ cap' => Some cap') = Some res ->
  exists g, res = Some g /\ g <> "" /\ all_chars p g = true.
Proof.
  cbn [m]. destruct s as [|c s]; [discriminate|]. destruct (p c) eqn:Hc; [|discriminate].
  intros H. apply star_sound in H as (mid & rest & -> & Hall & H).
  inversion H; subst; clear H. exists (String c mid).
  split; [|split; [discriminate|simpl; rewrite Hc, Hall; reflexivity]].
  f_equal. exact (substring_sapp (String c mid) rest).
Qed.

Lemma search_from_here (r : re) (s : string) (cap : option string) :
  search r s = Some cap -> exists s0, match_here r s0 = Some cap.
Proof.
  induction s as [|c s IH]; cbn [search].
  - destruct (match_here r "") eqn:Hm; [|discriminate]. intros H; inversion H; subst. eauto.
  - destruct (match_here r (String c s)) eqn:Hm.
    + intros H; inversion H; subst. eauto.
    + exact IH.
Qed.

Lemma standard_capture (url : string) (cap : option string) :
  search (pattern standard_pattern) url = Some cap ->
  exists g, cap = Some g /\ g <> "" /\ all_chars digit g = true.
Proof.
  intros H. apply search_from_here in H as [s0 H].
  unfold match_here, standard_pattern in H.
  cbn [pattern seqs app scheme_www] in H.
  do 5 (apply seq_from_second in H as (? & ? & H)).
  apply final_group_capture in H. exact H.
Qed.

(** The only pattern of the table that needs no redirect is the first. *)
Lemma direct_is_standard (url : string) (linkType : LinkPattern) :
  getLinkType url = Some linkType -> needsRedirect linkType = false ->
  linkType = standard_pattern /\ test (pattern standard_pattern) url = true.
Proof.
  unfold getLinkType. intros Hf Hn. apply find_some in Hf as [Hin Ht].
  unfold DOUYIN_LINK_PATTERNS in Hin. cbn [In] in Hin.
  destruct Hin as [<-|Hin]; [split; [reflexivity|exact Ht]|].
  repeat (destruct Hin as [<-|Hin]; [discriminate Hn|]). destruct Hin.
Qed.

(** X13. A link that needs no redirect is brought to the canonical
    form: [resolveLink] makes no request; the id of its result is a
    non-empty run of digits, [standardUrl] is the standard URL of that id
    and the type is [video]; and resolving [standardUrl] again gives the
    same id and the same [standardUrl]. *)
Theorem resolveLink_direct_is_canonical {W : Type}
    `{RT : Runtime W} `{NW : Network W} `{PF : Platform}
    (url : string) (options : ParseOptions) (w w' : W)
    (linkType : LinkPattern) (r : ParseResult) :
  getLinkType url = Some linkType -> needsRedirect linkType = false ->
  resolveLink url options w = (Some r, w') ->
  w' = w /\
  id r <> "" /\ all_chars digit (id r) = true /\
  standardUrl r = createStandardUrl (id r) /\
  originalUrl r = url /\ type r = video /\
  resolveLink (standardUrl r) options w
  = (Some (mkParseResult (id r) (standardUrl r) (standardUrl r) video), w).
Proof.
  intros Hlt Hn Hr.
  destruct (direct_is_standard url linkType Hlt Hn) as [-> Ht].
  unfold resolveLink in Hr. rewrite Hlt in Hr. cbn [needsRedirect standard_pattern] in Hr.
  assert (exists g, extractVideoId url = Some g /\ g <> "" /\ all_chars digit g = true)
    as (g & Hid & Hne & Hall).
  { unfold extractVideoId, DOUYIN_LINK_PATTERNS. cbn [first_group1]. unfold group1.
    change (LinkPatterns.pattern
              (mkLinkPattern "standard"
                 (seqs (scheme_www ++ [Lit "douyin.com/video/"; Group (Plus digit)]))
                 false)) with (pattern standard_pattern).
    unfold test in Ht.
    destruct (search (pattern standard_pattern) url) as [cap|] eqn:Hs; [|discriminate].
    apply standard_capture in Hs as (g & -> & Hne & Hall).
    exists g. destruct (String.eqb g "") eqn:Heq;
      [apply String.eqb_eq in Heq; contradiction|]. auto. }
  rewrite Hid in Hr. inversion Hr; subst; clear Hr.
  cbn [id standardUrl originalUrl type].
  rewrite (getLinkType_canonical g Hne Hall). cbn [result_type standard_pattern pname].
  split; [reflexivity|]. split; [exact Hne|]. split; [exact Hall|].
  split; [reflexivity|]. split; [reflexivity|]. split; [reflexivity|].
  unfold resolveLink. rewrite (getLinkType_canonical g Hne Hall).
  cbn [needsRedirect standard_pattern]. rewrite (extractVideoId_canonical g Hne Hall).
  rewrite (getLinkType_canonical g Hne Hall). reflexivity.
Qed.

Lemma resolveLink_direct_is_canonical_witness :
  exists r,
    @resolveLink Scenario.NetWorld _ (Scenario.scripted_network []) _
      "watch http://douyin.com/video/7123456789?from=feed"
      (mkParseOptions None None) (Scenario.mkNetWorld 0 0)
    = (Some r, Scenario.mkNetWorld 0 0) /\
    standardUrl r = createStandardUrl (id r) /\ type r = video.
Proof.
  eexists. split; [vm_compute; reflexivity|].
  destruct (@resolveLink_direct_is_canonical Scenario.NetWorld _
              (Scenario.scripted_network []) _
              "watch http://douyin.com/video/7123456789?from=feed"
              (mkParseOptions None None) (Scenario.mkNetWorld 0 0) (Scenario.mkNetWorld 0 0)
              standard_pattern
              (mkParseResult "7123456789" "https://www.douyin.com/video/7123456789"
                 "watch http://douyin.com/video/7123456789?from=feed" video))
    as (_ & _ & _ & Hs & _ & Ht & _).
  - vm_compute. reflexivity.
  - reflexivity.
  - vm_compute. reflexivity.
  - split; [exact Hs|exact Ht].
Defined.

End DirectLinkFacts.

(** ** Safe file names *)
Module FilenameFacts.
Import UtilsFile.

(** White space stands alone, and is the plain space: [inside] as in
    [collapse_whitespace]. *)
Fixpoint spaced (inside : bool) (l : list N) : bool :=
  match l with
  | [] => true
  | c :: l' =>
    if is_whitespace c then negb inside && (c =? space)%N && spaced true l'
    else spaced false l'
  end.

Lemma collapse_spaced (inside : bool) (s : list N) :
  spaced inside (collapse_whitespace inside s) = true.
Proof.
  revert inside. induction s as [|c s IH]; intros inside; [reflexivity|].
  cbn [collapse_whitespace]. destruct (is_whitespace c) eqn:Hc.
  - destruct inside; [apply IH|]. cbn [spaced].
    change (is_whitespace space) with true. cbn. apply IH.
  - cbn [spaced]. rewrite Hc. apply IH.
Qed.

Lemma spaced_weaken (inside : bool) (l : list N) :
  spaced inside l = true -> spaced false l = true.
Proof.
  destruct l as [|c l]; [reflexivity|]. cbn [spaced].
  destruct (is_whitespace c); [|auto]. destruct inside; [discriminate|auto].
Qed.

Lemma spaced_app (inside : bool) (a b : list N) :
  spaced inside (a ++ b) = true -> spaced inside a = true /\ spaced false b = true.
Proof.
  revert inside. induction a as [|c a IH]; intros inside H.
  - split; [reflexivity|]. eapply spaced_weaken. exact H.
  - cbn [app spaced] in *. destruct (is_whitespace c).
    + apply andb_true_iff in H as [H1 H2]. apply IH in H2 as [H2 H3].
      rewrite H1, H2. auto.
    + apply IH in H. exact H.
Qed.

Lemma spaced_elem (inside : bool) (l : list N) (c : N) :
  spaced inside l = true -> c ∈ l -> is_whitespace c = true -> c = space.
Proof.
  revert inside. induction l as [|d l IH]; intros inside H Hin Hc; [inversion Hin|].
  cbn [spaced] in H. apply elem_of_cons in Hin as [->|Hin].
  - rewrite Hc in H. apply andb_true_iff in H as [H _].
    apply andb_true_iff in H as [_ H]. apply N.eqb_eq in H. exact H.
  - destruct (is_whitespace d).
    + apply andb_true_iff in H as [_ H]. eapply IH; eassumption.
    + eapply IH; eassumption.
Qed.

Lemma spaced_no_pair (inside : bool) (l a b : list N) :
  spaced inside l = true -> l <> a ++ [space; space] ++ b.
Proof.
  intros H ->. apply spaced_app in H as [_ H]. cbn in H. discriminate.
Qed.

Lemma trimStart_suffix (s : list N) : exists a, s = a ++ trimStart s.
Proof.
  induction s as [|c s [a IH]]; [exists []; reflexivity|]. cbn [trimStart].
  destruct (is_whitespace c); [|exists []; reflexivity].
  exists (c :: a). simpl. rewrite <- IH. reflexivity.
Qed.

Lemma trimStart_head (s : list N) (c : N) (rest : list N) :
  trimStart s = c :: rest -> is_whitespace c = false.
Proof.
  induction s as [|d s IH]; [discriminate|]. cbn [trimStart].
  destruct (is_whitespace d) eqn:Hd; [exact IH|]. intros H; inversion H; subst. exact Hd.
Qed.

Lemma trim_infix (s : list N) : exists a b, s = a ++ trim s ++ b.
Proof.
  unfold trim. destruct (trimStart_suffix s) as [a Ha].
  destruct (trimStart_suffix (rev (trimStart s))) as [b Hb].
  exists a, (rev b). rewrite <- rev_app_distr, <- Hb, rev_involutive. exact Ha.
Qed.

Lemma trimStart_all (s : list N) :
  forallb is_whitespace s = true -> trimStart s = [].
Proof.
  induction s as [|c s IH]; [reflexivity|]. cbn [forallb trimStart]. intros H.
  apply andb_true_iff in H as [Hc Hs]. rewrite Hc. apply IH, Hs.
Qed.

Lemma trimStart_keeps_last (x : list N) (d : N) :
  is_whitespace d = false -> exists y, trimStart (x ++ [d]) = y ++ [d].
Proof.
  intros Hd. induction x as [|c x IH]; cbn [app trimStart].
  - rewrite Hd. exists []. reflexivity.
  - destruct (is_whitespace c); [exact IH|]. exists (c :: x). reflexivity.
Qed.

Lemma trim_head (s : list N) (c : N) (rest : list N) :
  trim s = c :: rest -> is_whitespace c = false.
Proof.
  unfold trim. intros H.
  destruct (trimStart s) as [|d t] eqn:Ht; [discriminate|].
  pose proof (trimStart_head s d t Ht) as Hd.
  cbn [rev] in H. destruct (trimStart_keeps_last (rev t) d Hd) as [y Hy].
  rewrite Hy, rev_app_distr in H. cbn in H. inversion H; subst. exact Hd.
Qed.

Lemma firstn_prefix {A : Type} (n : nat) (l : list A) : exists b, l = firstn n l ++ b.
Proof. exists (skipn n l). symmetry. apply firstn_skipn. Qed.

Lemma replace_illegal_legal (s : list N) (c : N) :
  c ∈ replace_illegal s -> illegal c = false.
Proof.
  unfold replace_illegal. intros H. apply list_elem_of_fmap in H as (d & -> & _).
  destruct (illegal d) eqn:Hd; [reflexivity|exact Hd].
Qed.

Lemma collapse_elem (inside : bool) (s : list N) (c : N) :
  c ∈ collapse_whitespace inside s -> c = space \/ c ∈ s.
Proof.
  revert inside. induction s as [|d s IH]; intros inside H; [inversion H|].
  cbn [collapse_whitespace] in H. destruct (is_whitespace d).
  - destruct inside.
    + apply IH in H as [H|H]; [left; exact H|right; apply list_elem_of_further, H].
    + apply elem_of_cons in H as [H|H]; [left; exact H|].
      apply IH in H as [H|H]; [left; exact H|right; apply list_elem_of_further, H].
  - apply elem_of_cons in H as [->|H]; [right; apply list_elem_of_here|].
    apply IH in H as [H|H]; [left; exact H|right; apply list_elem_of_further, H].
Qed.

(** What [getSafeFilename] returns for a name that is not empty is a
    piece of the name with its illegal characters replaced and its white
    space collapsed. *)
Lemma getSafeFilename_infix (c : N) (s : list N) :
  exists a b,
    collapse_whitespace false (replace_illegal (c :: s))
    = a ++ getSafeFilename (c :: s) ++ b.
Proof.
  cbn [getSafeFilename].
  set (t := trim (collapse_whitespace false (replace_illegal (c :: s)))).
  destruct (trim_infix (collapse_whitespace false (replace_illegal (c :: s))))
    as (a & b & Hab).
  fold t in Hab. destruct (firstn_prefix 200 t) as [d Hd].
  exists a, (d ++ b). rewrite Hab. f_equal. rewrite app_assoc, <- Hd. reflexivity.
Qed.

(** X14. A name from [getSafeFilename] has at most 200 characters, none
    of them one of the nine illegal ones; its white space is the plain
    space, never two in a row, and never at the front. *)
Theorem getSafeFilename_safe (filename : list N) :
  (length (getSafeFilename filename) <= 200)%nat /\
  (forall c, c ∈ getSafeFilename filename ->
     illegal c = false /\ (is_whitespace c = true -> c = space)) /\
  (forall a b, getSafeFilename filename <> a ++ [space; space] ++ b) /\
  (forall c rest, getSafeFilename filename = c :: rest -> is_whitespace c = false).
Proof.
  destruct filename as [|c0 s].
  - cbn [getSafeFilename]. split; [simpl; lia|]. split; [|split].
    + intros c Hc. unfold untitled in Hc.
      repeat (apply elem_of_cons in Hc as [->|Hc]); try (inversion Hc; fail);
        split; try reflexivity; discriminate.
    + intros a b H.
      assert (spaced false untitled = true) as Hs by reflexivity.
      exact (spaced_no_pair false _ a b Hs H).
    + intros c rest H. inversion H. reflexivity.
  - destruct (getSafeFilename_infix c0 s) as (a & b & Hab).
    pose proof (collapse_spaced false (replace_illegal (c0 :: s))) as Hsp.
    rewrite Hab in Hsp. apply spaced_app in Hsp as [_ Hsp].
    apply spaced_app in Hsp as [Hsp _].
    split; [cbn [getSafeFilename]; rewrite length_firstn; lia|]. split; [|split].
    + intros c Hc. split; [|intros Hw; exact (spaced_elem false _ c Hsp Hc Hw)].
      assert (c ∈ collapse_whitespace false (replace_illegal (c0 :: s))) as Hin.
      { rewrite Hab. apply elem_of_app. right. apply elem_of_app. left. exact Hc. }
      apply collapse_elem in Hin as [->|Hin]; [reflexivity|].
      eapply replace_illegal_legal. exact Hin.
    + intros a' b'. apply (spaced_no_pair false). exact Hsp.
    + intros c rest H. cbn [getSafeFilename] in H.
      destruct (trim (collapse_whitespace false (replace_illegal (c0 :: s))))
        as [|d t] eqn:Ht; [discriminate|].
      cbn in H. inversion H; subst. eapply trim_head. exact Ht.
Qed.

Lemma collapse_blank (inside : bool) (s : list N) :
  forallb is_whitespace s = true ->
  forallb is_whitespace (collapse_whitespace inside s) = true.
Proof.
  revert inside. induction s as [|c s IH]; intros inside H; [reflexivity|].
  cbn [forallb collapse_whitespace] in *. apply andb_true_iff in H as [Hc Hs].
  rewrite Hc. destruct inside; [apply IH, Hs|]. cbn [forallb].
  change (is_whitespace space) with true. apply IH, Hs.
Qed.

Lemma replace_illegal_blank (s : list N) :
  forallb is_whitespace s = true -> replace_illegal s = s.
Proof.
  induction s as [|c s IH]; [reflexivity|]. cbn [forallb]. intros H.
  apply andb_true_iff in H as [Hc Hs]. unfold replace_illegal in *. cbn [map].
  rewrite (IH Hs). destruct (illegal c) eqn:Hi; [|reflexivity].
  exfalso. unfold illegal in Hi. cbn [existsb] in Hi.
  repeat (apply orb_true_iff in Hi as [Hi|Hi];
          [apply N.eqb_eq in Hi; subst; discriminate Hc|]).
  discriminate Hi.
Qed.

(** X15. The default name [untitled] is for the empty name alone: a
    name that is not empty and is all white space becomes the empty
    name. *)
Theorem getSafeFilename_blank (filename : list N) :
  filename <> [] -> forallb is_whitespace filename = true ->
  getSafeFilename filename = [] /\ getSafeFilename [] = untitled.
Proof.
  intros Hne Hall. split; [|reflexivity].
  destruct filename as [|c s]; [congruence|]. cbn [getSafeFilename].
  rewrite (replace_illegal_blank _ Hall).
  unfold trim. rewrite (trimStart_all _ (collapse_blank false _ Hall)). reflexivity.
Qed.

Lemma getSafeFilename_blank_witness :
  getSafeFilename [32; 9; 12288]%N = [] /\ getSafeFilename [] = untitled.
Proof.
  apply (getSafeFilename_blank [32; 9; 12288]%N); [discriminate|reflexivity].
Defined.

End FilenameFacts.

(** ** How many downloads downloadVideo starts *)
Module DownloadCountFacts.
Import VideoDownloader Counting DownloadCount LoopFacts.

(** The retry loop depends on its function and on [onRetry] only through
    what they return. *)
Lemma withRetry_loop_ext {W R : Type} `{RT : Runtime W}
    (fn fn' : Async W R) (o o' : Retry.RetryOptions W) (n : nat) :
  (forall w, fn w = fn' w) ->
  Retry.retries o = Retry.retries o' -> Retry.minDelay o = Retry.minDelay o' ->
  Retry.maxDelay o = Retry.maxDelay o' -> Retry.factor o = Retry.factor o' ->
  (forall e, Retry.shouldRetry o e = Retry.shouldRetry o' e) ->
  (forall e a w, Retry.onRetry o e a w = Retry.onRetry o' e a w) ->
  forall (a : Z) (le : JsError) (w : W),
  Z.to_nat (Retry.retries o + 1 - a) = n ->
  Retry.withRetry_loop fn o a le w = Retry.withRetry_loop fn' o' a le w.
Proof.
  intros Hfn Hr Hmin Hmax Hfac Hsr Hon.
  induction n as [n IH] using lt_wf_ind. intros a le w Hn.
  rewrite (withRetry_loop_unfold fn), (withRetry_loop_unfold fn').
  unfold Retry.withRetry_iteration. rewrite <- Hr, <- Hfn.
  destruct (a <=? Retry.retries o)%Z eqn:Hle; [|reflexivity].
  destruct (fn w) as [[v|e] w1]; [reflexivity|].
  rewrite <- Hsr. destruct (negb (Retry.shouldRetry o e)); [reflexivity|].
  destruct (a + 1 >? Retry.retries o)%Z eqn:Hgt; [reflexivity|].
  rewrite <- Hon. destruct (math_random (Retry.onRetry o e (a + 1)%Z w1)) as [rq w3].
  assert (Retry.calculateDelay (a + 1) o' rq = Retry.calculateDelay (a + 1) o rq) as ->
    by (unfold Retry.calculateDelay; rewrite Hmin, Hmax, Hfac; reflexivity).
  apply Z.leb_le in Hle. rewrite Z.gtb_ltb in Hgt. apply Z.ltb_ge in Hgt.
  eapply (IH (Z.to_nat (Retry.retries o + 1 - (a + 1)))); [lia|reflexivity].
Qed.

Section Count.
Context {W : Type} `{RT : Runtime W} `{FS : FileSystem W}.
Variable options : VideoDownloadOptions W.

(** The attempts that one url may take. *)
Definition budget : nat := Z.to_nat (default 3%Z (retries options) + 1).

Lemma remove_partial_counted (finalPath : string) (w : W) (c : nat) :
  @remove_partial (W * nat) (counted_fs options) finalPath (w, c)
  = (remove_partial finalPath w, c).
Proof.
  unfold remove_partial. cbn [pathExists unlink counted_fs fst snd].
  destruct (pathExists finalPath w); [|reflexivity].
  unfold untick. cbn [fst snd]. destruct (unlink finalPath w) as [[u|e] w']; reflexivity.
Qed.

Lemma downloadVideo_try_counted (videoInfo : VideoInfo) (destPath : string)
    (w : W) (c : nat) :
  exists k : nat,
    @downloadVideo_try (W * nat) aside_runtime (counted_fs options)
      videoInfo destPath (counted_options options) (w, c)
    = (fst (fst (downloadVideo_try videoInfo destPath options w)),
       snd (fst (downloadVideo_try videoInfo destPath options w)),
       (snd (downloadVideo_try videoInfo destPath options w), (c + k)%nat)) /\
    (k <= budget)%nat.
Proof.
  unfold downloadVideo_try.
  cbn [retries timeout checkExisting overwrite useSubfolders filenameTemplate headers
       counted_options].
  destruct (String.eqb (videoPlayUrl videoInfo) "").
  { exists 0%nat. rewrite Nat.add_0_r. split; [reflexivity|lia]. }
  change (@determine_finalPath (W * nat) (counted_fs options) videoInfo destPath
            (default true (useSubfolders options))
            (default "{date}-{title}" (filenameTemplate options)) (w, c))
    with (determine_finalPath videoInfo destPath
            (default true (useSubfolders options))
            (default "{date}-{title}" (filenameTemplate options)) w).
  set (finalPath := determine_finalPath videoInfo destPath _ _ w).
  cbn [ensureDirectoryExists counted_fs path_dirname pathExists].
  unfold untick at 1. cbn [fst snd].
  destruct (ensureDirectoryExists (path_dirname finalPath) w) as [[u|e] w1].
  2:{ exists 0%nat. rewrite Nat.add_0_r. split; [reflexivity|lia]. }
  cbn [fst snd].
  destruct (default true (checkExisting options) && pathExists finalPath w1
            && negb (default false (overwrite options))).
  { exists 0%nat. rewrite Nat.add_0_r. split; [reflexivity|lia]. }
  set (hdrs := ("Referer", _) :: headers options).
  set (fn := download_attempt (videoPlayUrl videoInfo) finalPath hdrs
               (default 60000%Z (timeout options)) options).
  set (o := download_retry_options (W := W) (default 3%Z (retries options))).
  destruct (Retry.withRetry fn o w1) as [r w2] eqn:Hrun.
  unfold Retry.withRetry in *.
  destruct (BudgetFacts.withRetry_loop_counted fn o _ 0%Z _ w1 c r w2 eq_refl Hrun)
    as (k & Hk & Hle & _).
  exists k. split; [|unfold budget; cbn in Hle;
                     replace (default 3%Z (retries options) + 1 - 0)%Z
                       with (default 3%Z (retries options) + 1)%Z in Hle by lia;
                     exact Hle].
  rewrite (withRetry_loop_ext _ (tick fn) _ (lift_options o)
             (Z.to_nat (default 3%Z (retries options) + 1 - 0))); try reflexivity.
  - rewrite Hk. destruct r; reflexivity.
  - intros [w0 c0]. unfold download_attempt, fn, tick, download_attempt.
    cbn [downloadFile counted_fs fst snd]. unfold tick. cbn [fst snd].
    destruct (downloadFile _ _ _ _ _ w0) as [[p|e] w']; reflexivity.
  - intros e a [w0 c0]. reflexivity.
Qed.

(** X16. [downloadVideo] calls [downloadFile] at most [retries + 1]
    times for each url it is given: at most
    [(1 + downloadUrls.length) * (retries + 1)] times in all ([retries]
    is 3 unless the options say otherwise).  [c] is the number of calls
    made before. *)
Theorem downloadVideo_download_budget (downloadUrls : list string) :
  forall (videoInfo : VideoInfo) (destPath : string) (w : W) (c : nat),
  exists k : nat,
    @downloadVideo (W * nat) aside_runtime (counted_fs options)
      videoInfo destPath (counted_options options) downloadUrls (w, c)
    = (fst (downloadVideo videoInfo destPath options downloadUrls w),
       (snd (downloadVideo videoInfo destPath options downloadUrls w), (c + k)%nat)) /\
    (k <= (1 + length downloadUrls) * Z.to_nat (default 3%Z (retries options) + 1))%nat.
Proof.
  fold budget.
  induction downloadUrls as [|nextUrl remainingUrls IH]; intros videoInfo destPath w c;
    cbn [downloadVideo].
  - destruct (downloadVideo_try_counted videoInfo destPath w c) as (k & -> & Hk).
    destruct (downloadVideo_try videoInfo destPath options w) as [[[p|e] fp] w1];
      cbn [fst snd]; exists k; (split; [|simpl; lia]).
    + reflexivity.
    + rewrite remove_partial_counted. reflexivity.
  - destruct (downloadVideo_try_counted videoInfo destPath w c) as (k & -> & Hk).
    destruct (downloadVideo_try videoInfo destPath options w) as [[[p|e] fp] w1];
      cbn [fst snd].
    + exists k. split; [reflexivity|]. simpl. lia.
    + rewrite remove_partial_counted.
      destruct (IH (with_url videoInfo nextUrl) destPath (remove_partial fp w1) (c + k)%nat)
        as (k' & -> & Hk').
      exists (k + k')%nat. rewrite Nat.add_assoc. split; [reflexivity|].
      cbn [length]. lia.
Qed.

End Count.

Lemma downloadVideo_download_budget_witness :
  exists k : nat,
    snd (snd (@downloadVideo (Scenario.DiskWorld * nat) aside_runtime
                (@counted_fs Scenario.DiskWorld (Scenario.disk Scenario.serves_nothing)
                   Scenario.default_download_options)
                Scenario.sample_video "out/v.mp4"
                (counted_options Scenario.default_download_options)
                [Scenario.fallback_url] (Scenario.empty_disk, 0%nat))) = k /\
    (k <= 8)%nat.
Proof.
  destruct (@downloadVideo_download_budget Scenario.DiskWorld _
              (Scenario.disk Scenario.serves_nothing) Scenario.default_download_options
              [Scenario.fallback_url] Scenario.sample_video "out/v.mp4"
              Scenario.empty_disk 0%nat)
    as (k & Hk & Hle).
  exists k. split; [rewrite Hk; reflexivity|exact Hle].
Defined.

End DownloadCountFacts.

(** ** The user id of a profile URL *)
Module UserIdFacts.
Import Regex User LinkFacts RegexFacts.

Lemma search_at (r : re) (s : string) (cap : option string) :
  search r s = Some cap ->
  exists pre s0, s = (pre ++ s0)%string /\ match_here r s0 = Some cap.
Proof.
  induction s as [|c s IH]; cbn [search].
  - destruct (match_here r "") eqn:Hm; [|discriminate].
    intros H; inversion H; subst. exists "", "". auto.
  - destruct (match_here r (String c s)) eqn:Hm.
    + intros H; inversion H; subst. exists "", (String c s). auto.
    + intros H. apply IH in H as (pre & s0 & -> & H). exists (String c pre), s0. auto.
Qed.

(** A greedy repetition in front of a continuation that always accepts
    takes every character of the class that there is. *)
Lemma star_greedy {A : Type} (p : ascii -> bool) (s : string) (k : string -> option A) :
  (forall s', is_Some (k s')) ->
  exists mid rest,
    s = (mid ++ rest)%string /\ all_chars p mid = true /\ star p s k = k rest /\
    (rest = "" \/ exists c t, rest = String c t /\ p c = false).
Proof.
  intros Hk. induction s as [|c s IH]; cbn [star].
  - exists "", "". auto.
  - destruct (p c) eqn:Hc.
    + destruct IH as (mid & rest & -> & Hall & Hs & Hrest).
      exists (String c mid), rest. simpl. rewrite Hc, Hall, Hs.
      destruct (Hk rest) as [x ->]. auto.
    + exists "", (String c s). split; [reflexivity|]. split; [reflexivity|].
      split; [reflexivity|]. right. eauto.
Qed.

(** X17. When the URL carries no [sec_user_id] parameter,
    [extractSecUserId] takes the id from the text: it is what follows the
    first [/user/] that has something after it, up to the next [/] or [?]
    or the end; so it is not empty and holds neither character. *)
Theorem extractSecUserId_from_path `{PF : Platform} (userUrl id : string)
    (secUid : option string) :
  url_searchParams_get userUrl "sec_user_id" = Some secUid -> truthy secUid = None ->
  extractSecUserId userUrl = Some id ->
  exists pre rest,
    userUrl = (pre ++ "/user/" ++ id ++ rest)%string /\
    id <> "" /\ all_chars not_query_or_slash id = true /\
    (rest = "" \/ exists c t, rest = String c t /\ (c = "?"%char \/ c = "/"%char)).
Proof.
  unfold extractSecUserId. intros -> -> H. unfold group1 in H.
  destruct (search _ userUrl) as [[g|]|] eqn:Hs; try discriminate.
  destruct (String.eqb g ""); [discriminate|]. inversion H; subst g; clear H.
  apply search_at in Hs as (pre & s0 & -> & Hm).
  unfold match_here in Hm. cbn [m] in Hm.
  destruct (lit "/user/" s0) as [s1|] eqn:Hl; [|discriminate].
  apply lit_spec in Hl as ->.
  destruct s1 as [|c s1]; [discriminate|].
  destruct (not_query_or_slash c) eqn:Hc; [|discriminate].
  destruct (star_greedy not_query_or_slash s1
              (fun s'' => Some (Some (substring 0
                            (String.length (String c s1) - String.length s'')
                            (String c s1)))))
    as (mid & rest & -> & Hall & Hstar & Hrest); [intros s'; eexists; reflexivity|].
  rewrite Hstar in Hm.
  change (String c (mid ++ rest)%string) with (String c mid ++ rest)%string in Hm.
  rewrite substring_sapp in Hm. inversion Hm; subst id; clear Hm.
  exists pre, rest. split; [reflexivity|]. split; [discriminate|].
  split; [simpl; rewrite Hc, Hall; reflexivity|].
  destruct Hrest as [->|(d & t & -> & Hd)]; [left; reflexivity|].
  right. exists d, t. split; [reflexivity|].
  unfold not_query_or_slash in Hd. apply negb_false_iff, orb_true_iff in Hd as [Hd|Hd];
    apply Ascii.eqb_eq in Hd; auto.
Qed.

Lemma extractSecUserId_from_path_witness :
  exists pre rest,
    "https://www.douyin.com/user/MS4wLjABAAAA?from=share"
    = (pre ++ "/user/" ++ "MS4wLjABAAAA" ++ rest)%string /\
    (rest = "" \/ exists c t, rest = String c t /\ (c = "?"%char \/ c = "/"%char)).
Proof.
  destruct (@extractSecUserId_from_path Scenario.plain_platform
              "https://www.douyin.com/user/MS4wLjABAAAA?from=share" "MS4wLjABAAAA" None)
    as (pre & rest & Hurl & _ & _ & Hrest).
  - vm_compute. reflexivity.
  - reflexivity.
  - vm_compute. reflexivity.
  - exists pre, rest. split; [exact Hurl|exact Hrest].
Defined.

End UserIdFacts.

(** ** The batches of parseDouyinLinks *)
Module ParseDouyinLinksFacts.
Import ResolveLinks User ParseDouyinLinks.

Section Batches.
Context {W : Type} `{BR : BatchRunner W}.

Lemma parseDouyinLinks_loop_settles (links : list string) (concurrency : Z)
    (onProgress : option (nat -> nat -> Async W unit)) (total : nat) :
  (1 <= concurrency)%Z ->
  forall (passes : nat) (i : Z) (processed : nat) (results : list ParseResult) (w : W),
  (0 <= i)%Z -> (Z.of_nat (length links) - i <= Z.of_nat passes)%Z ->
  exists o w',
    parseDouyinLinks_loop passes links concurrency onProgress total i processed results w
    = Settled o w'.
Proof.
  intros Hc. induction passes as [|passes IH]; intros i processed results w Hi Hp;
    cbn [parseDouyinLinks_loop].
  - destruct (i <? Z.of_nat (length links))%Z eqn:Hlt; [apply Z.ltb_lt in Hlt; lia|].
    eexists _, _. reflexivity.
  - destruct (i <? Z.of_nat (length links))%Z eqn:Hlt; [|eexists _, _; reflexivity].
    destruct (promise_all _ _ _ _ w) as [[batchResults|e] w1];
      [|eexists _, _; reflexivity].
    apply IH; lia.
Qed.

Lemma slice_empty {A : Type} (l : list A) (i : Z) : slice l i (i + 0) = [].
Proof.
  unfold slice. rewrite Z.add_0_r, Z.sub_diag. reflexivity.
Qed.

Lemma parseDouyinLinks_loop_stuck (links : list string)
    (onProgress : option (nat -> nat -> Async W unit)) (total : nat) :
  (forall t p w, promise_all onProgress t p [] w = (Ok [], w)) ->
  links <> [] ->
  forall (passes : nat) (processed : nat) (results : list ParseResult) (w : W),
  parseDouyinLinks_loop passes links 0 onProgress total 0 processed results w = Running w.
Proof.
  intros Hempty Hne. assert ((0 <? Z.of_nat (length links))%Z = true) as Hlt.
  { apply Z.ltb_lt. destruct links; [congruence|]. simpl. lia. }
  induction passes as [|passes IH]; intros processed results w;
    cbn [parseDouyinLinks_loop]; rewrite Hlt; [reflexivity|].
  rewrite slice_empty, Hempty. cbn [omap list_omap length].
  rewrite app_nil_r, Nat.add_0_r. apply IH.
Qed.

(** X18. With a concurrency of at least one, [parseDouyinLinks]
    settles: one pass of its loop for each link is enough, whatever the
    batches do. *)
Theorem parseDouyinLinks_settles (text : string) (options : Options W) (w : W) :
  (1 <= default 3 (concurrency options))%Z ->
  exists o w',
    parseDouyinLinks (length (TextLinks.extractDouyinLinks text)) text options w
    = Settled o w'.
Proof.
  intros Hc. unfold parseDouyinLinks.
  destruct (TextLinks.extractDouyinLinks text) as [|link links] eqn:Hex;
    [eexists _, _; reflexivity|].
  apply parseDouyinLinks_loop_settles; [exact Hc|lia|lia].
Qed.

(** X19. With the concurrency 0 the loop of [parseDouyinLinks] does not
    advance: on a text with a link in it, every pass works on the empty
    batch and leaves [i] at 0, so the call is still running after any
    number of passes. *)
Theorem parseDouyinLinks_zero_concurrency_runs_on (passes : nat) (text : string)
    (options : Options W) (w : W) :
  (forall t p w0, promise_all (onProgress options) t p [] w0 = (Ok [], w0)) ->
  concurrency options = Some 0%Z ->
  TextLinks.extractDouyinLinks text <> [] ->
  parseDouyinLinks passes text options w = Running w.
Proof.
  intros Hempty Hc Hne. unfold parseDouyinLinks. rewrite Hc. cbn [default].
  destruct (TextLinks.extractDouyinLinks text) as [|link links] eqn:Hex;
    [congruence|].
  apply parseDouyinLinks_loop_stuck; [exact Hempty|discriminate].
Qed.

End Batches.

Lemma parseDouyinLinks_settles_witness :
  exists o w',
    @parseDouyinLinks nat Trials.null_runner 2
      "https://v.douyin.com/abc123/ https://www.douyin.com/video/7123456789"
      (mkOptions None None) 0%nat
    = Settled o w'.
Proof.
  apply (@parseDouyinLinks_settles nat Trials.null_runner
           "https://v.douyin.com/abc123/ https://www.douyin.com/video/7123456789"
           (mkOptions None None) 0%nat).
  simpl. lia.
Defined.

Lemma parseDouyinLinks_zero_concurrency_runs_on_witness :
  @parseDouyinLinks nat Trials.null_runner 1000
    "https://www.douyin.com/video/7123456789" (mkOptions (Some 0%Z) None) 0%nat
  = Running 0%nat.
Proof.
  apply (@parseDouyinLinks_zero_concurrency_runs_on nat Trials.null_runner 1000
           "https://www.douyin.com/video/7123456789" (mkOptions (Some 0%Z) None) 0%nat).
  - intros t p w0. reflexivity.
  - reflexivity.
  - vm_compute. discriminate.
Defined.

End ParseDouyinLinksFacts.

(** ** How many requests resolveLink makes *)
Module RequestCountFacts.
Import Regex LinkPatterns ResolveLinks Counting RequestCount LoopFacts.

(** The retry loop around a function that costs at most [b] requests a
    call. *)
Section Costs.
Context {W R : Type} `{RT : Runtime W}.
Variable fn : Async W R.
Variable fn' : Async (W * nat) R.
Variable b : nat.
Variable o : Retry.RetryOptions W.
Variable o' : Retry.RetryOptions (W * nat).

Hypothesis fn'_costs :
  forall w c, exists k : nat,
    fn' (w, c) = (fst (fn w), (snd (fn w), (c + k)%nat)) /\ (k <= b)%nat.
Hypothesis o'_retries : Retry.retries o' = Retry.retries o.
Hypothesis o'_minDelay : Retry.minDelay o' = Retry.minDelay o.
Hypothesis o'_maxDelay : Retry.maxDelay o' = Retry.maxDelay o.
Hypothesis o'_factor : Retry.factor o' = Retry.factor o.
Hypothesis o'_shouldRetry : forall e, Retry.shouldRetry o' e = Retry.shouldRetry o e.
Hypothesis o'_onRetry :
  forall e a w c, Retry.onRetry o' e a (w, c) = (Retry.onRetry o e a w, c).

Lemma withRetry_loop_costs (n : nat) :
  forall (a : Z) (le : JsError) (w : W) (c : nat),
  Z.to_nat (Retry.retries o + 1 - a) = n ->
  exists k : nat,
    Retry.withRetry_loop fn' o' a le (w, c)
    = (fst (Retry.withRetry_loop fn o a le w),
       (snd (Retry.withRetry_loop fn o a le w), (c + k)%nat)) /\
    (k <= n * b)%nat.
Proof using Type*.
  induction n as [n IH] using lt_wf_ind. intros a le w c Hn.
  rewrite (withRetry_loop_unfold fn'), (withRetry_loop_unfold fn).
  unfold Retry.withRetry_iteration. rewrite o'_retries.
  destruct (a <=? Retry.retries o)%Z eqn:Hle.
  - apply Z.leb_le in Hle.
    destruct (fn'_costs w c) as (k1 & -> & Hk1).
    assert (k1 <= n * b)%nat as Hk1' by nia.
    destruct (fn w) as [[v|e] w1]; cbn [fst snd].
    + exists k1. split; [reflexivity|exact Hk1'].
    + rewrite o'_shouldRetry.
      destruct (negb (Retry.shouldRetry o e)); cbn [fst snd];
        [exists k1; split; [reflexivity|exact Hk1']|].
      destruct (a + 1 >? Retry.retries o)%Z eqn:Hgt; cbn [fst snd];
        [exists k1; split; [reflexivity|exact Hk1']|].
      rewrite Z.gtb_ltb in Hgt. apply Z.ltb_ge in Hgt.
      rewrite o'_onRetry. cbn [math_random delay aside_runtime fst snd].
      destruct (math_random (Retry.onRetry o e (a + 1)%Z w1)) as [rq w3].
      cbn [fst snd].
      assert (Retry.calculateDelay (a + 1) o' rq = Retry.calculateDelay (a + 1) o rq)
        as -> by (unfold Retry.calculateDelay;
                  rewrite o'_minDelay, o'_maxDelay, o'_factor; reflexivity).
      destruct (IH (Z.to_nat (Retry.retries o + 1 - (a + 1))) ltac:(lia)
                  (a + 1)%Z e (delay (Retry.calculateDelay (a + 1) o rq) w3)
                  (c + k1)%nat eq_refl)
        as (k & Hk & Hle').
      exists (k1 + k)%nat. rewrite Nat.add_assoc. split; [exact Hk|]. nia.
  - exists 0%nat. rewrite Nat.add_0_r. split; [reflexivity|lia].
Qed.

End Costs.

Section Fetches.
Context {W : Type} `{RT : Runtime W} `{RF : UtilsFetch.RawFetch W} `{PF : Platform}.
Variable options : ParseOptions.

(** The network on the world that counts the calls of [fetch]. *)
Definition counting_network : Network (W * nat) :=
  @fetched_network (W * nat) aside_runtime UtilsFetch.counted_fetch.

(** A call of [enhancedFetch] with the default of three retries makes
    at most four requests. *)
Lemma enhancedFetch_url_costs (url : string) (hdrs : list (string * string))
    (w : W) (c : nat) :
  exists k : nat,
    @enhancedFetch_url (W * nat) counting_network url hdrs (w, c)
    = (fst (@enhancedFetch_url W fetched_network url hdrs w),
       (snd (@enhancedFetch_url W fetched_network url hdrs w), (c + k)%nat)) /\
    (k <= 4)%nat.
Proof.
  cbn [enhancedFetch_url counting_network fetched_network]. unfold UtilsFetch.enhancedFetch.
  destruct (UtilsFetch.enhancedFetch_loop url (UtilsFetch.merged_with_headers hdrs) 0 w)
    as [r w'] eqn:Hrun.
  destruct (BudgetFacts.enhancedFetch_loop_counted url (UtilsFetch.merged_with_headers hdrs)
              _ 0%Z w c r w' eq_refl Hrun) as (k & -> & Hle & _).
  exists k. split; [destruct r; reflexivity|]. exact Hle.
Qed.

(** The requests that [resolveShortUrl] may make: four for each attempt
    of its [withRetry], and four more for a share page. *)
Definition fetch_budget : nat :=
  ((Z.to_nat (default 3%Z (opt_retries options) + 1) + 1) * 4)%nat.

Lemma resolveShortUrl_fetches (shortUrl : string) (w : W) (c : nat) :
  exists k : nat,
    @resolveShortUrl (W * nat) aside_runtime counting_network PF shortUrl options (w, c)
    = (fst (@resolveShortUrl W RT fetched_network PF shortUrl options w),
       (snd (@resolveShortUrl W RT fetched_network PF shortUrl options w), (c + k)%nat)) /\
    (k <= fetch_budget)%nat.
Proof.
  unfold resolveShortUrl, fetch_budget.
  set (retries := default 3%Z (opt_retries options)).
  set (fn := @enhancedFetch_url W fetched_network shortUrl (request_headers options)).
  set (fn' := @enhancedFetch_url (W * nat) counting_network shortUrl
                (request_headers options)).
  unfold Retry.withRetry.
  destruct (withRetry_loop_costs fn fn' 4 (Retry.default_with_retries retries)
              (Retry.default_with_retries retries))
    with (n := Z.to_nat (retries + 1)) (a := 0%Z)
         (le := newError "Unknown error during retry") (w := w) (c := c)
    as (k & -> & Hk); try reflexivity.
  { intros w0 c0. apply enhancedFetch_url_costs. }
  { cbn [Retry.retries Retry.default_with_retries]. f_equal. lia. }
  destruct (Retry.withRetry_loop fn (Retry.default_with_retries retries) 0
              (newError "Unknown error during retry") w) as [[finalUrl|e] w1];
    cbn [fst snd].
  - destruct (extractVideoId finalUrl) as [videoId|].
    + exists k. split; [reflexivity|lia].
    + destruct (startsWith finalUrl "https://www.iesdouyin.com/share/video/").
      * fold fn fn'. destruct (enhancedFetch_url_costs shortUrl (request_headers options)
                                 w1 (c + k)%nat) as (k2 & Hk2 & Hle2).
        unfold fn'. rewrite Hk2. fold fn.
        destruct (fn w1) as [[url|e] w2]; cbn [fst snd]; exists (k + k2)%nat;
          rewrite Nat.add_assoc; (split; [reflexivity|lia]).
      * exists k. split; [reflexivity|lia].
  - exists k. split; [reflexivity|lia].
Qed.

(** X20. [resolveLink] makes at most [4 * (retries + 2)] requests
    ([retries] is 3 unless the options say otherwise): its redirect
    lookup calls [enhancedFetch] at most [retries + 1] times, and once
    more for a share page, and each of these calls, made without a
    [retries] option, makes at most four requests.  It makes no request
    for a link without a type, and none for a link whose type needs no
    redirect.  The requests counted are the calls of [fetch]. *)
Theorem resolveLink_request_budget (url : string) (w : W) :
  exists k : nat,
    @resolveLink (W * nat) aside_runtime counting_network PF url options (w, 0%nat)
    = (fst (@resolveLink W RT fetched_network PF url options w),
       (snd (@resolveLink W RT fetched_network PF url options w), k)) /\
    (k <= 4 * (Z.to_nat (default 3%Z (opt_retries options) + 1) + 1))%nat /\
    (getLinkType url = None -> k = 0%nat) /\
    (forall linkType, getLinkType url = Some linkType ->
       needsRedirect linkType = false -> k = 0%nat).
Proof.
  unfold resolveLink. destruct (getLinkType url) as [linkType|].
  - destruct (needsRedirect linkType) eqn:Hn.
    + destruct (resolveShortUrl_fetches url w 0%nat) as (k & -> & Hk).
      unfold fetch_budget in Hk.
      exists k. cbn [Nat.add].
      destruct (@resolveShortUrl W RT fetched_network PF url options w)
        as [[standardUrl|] w1]; cbn [fst snd].
      * destruct (extractVideoId standardUrl);
          (split; [reflexivity|]); (split; [lia|]);
          (split; [discriminate|]); intros lt Hlt; inversion Hlt; subst; congruence.
      * split; [reflexivity|]. split; [lia|]. split; [discriminate|].
        intros lt Hlt; inversion Hlt; subst; congruence.
    + exists 0%nat. destruct (extractVideoId url);
        (split; [reflexivity|]); (split; [lia|]); auto.
  - exists 0%nat. split; [reflexivity|]. split; [lia|]. auto.
Qed.

End Fetches.

(** Against a server that answers every request with 503, a short link
    with one retry costs two calls of [enhancedFetch], of four requests
    each. *)
Lemma resolveLink_request_budget_witness :
  exists k : nat,
    snd (snd (@resolveLink (nat * nat) aside_runtime
                (@counting_network nat _ Trials.unavailable) _
                "https://v.douyin.com/abc123/" (mkParseOptions None (Some 1%Z))
                (0%nat, 0%nat))) = k /\
    (k <= 12)%nat.
Proof.
  destruct (@resolveLink_request_budget nat _ Trials.unavailable _
              (mkParseOptions None (Some 1%Z)) "https://v.douyin.com/abc123/" 0%nat)
    as (k & Hk & Hle & _).
  exists k. split; [rewrite Hk; reflexivity|exact Hle].
Defined.

Lemma resolveLink_unavailable_example :
  snd (snd (@resolveLink (nat * nat) aside_runtime
              (@counting_network nat _ Trials.unavailable) _
              "https://v.douyin.com/abc123/" (mkParseOptions None (Some 1%Z))
              (0%nat, 0%nat))) = 8%nat.
Proof. vm_compute. reflexivity. Qed.

End RequestCountFacts.

(** ** One result for each video *)
Module DownloadManagerFacts.
Import VideoDownloader DownloadManager RetryFacts.

Lemma fmap_omap_seq {A B : Type} (f : B -> A) (g : nat -> option B) (items : list A) :
  (forall i x, items !! i = Some x -> exists r, g i = Some r /\ f r = x) ->
  f <$> omap g (seq 0 (length items)) = items.
Proof.
  induction items as [|x items IH] using rev_ind; intros Hg; [reflexivity|].
  rewrite length_app. cbn [length]. rewrite Nat.add_1_r, seq_S, omap_app, fmap_app.
  cbn [Nat.add omap list_omap].
  destruct (Hg (length items) x) as (r & -> & Hr).
  { rewrite lookup_app_r by lia. rewrite Nat.sub_diag. reflexivity. }
  cbn. rewrite Hr. f_equal. apply IH. intros i y Hy. apply Hg.
  rewrite lookup_app_l; [exact Hy|]. eapply lookup_lt_Some. exact Hy.
Qed.

Section Batch.
Context {W : Type} `{RT : Runtime W} `{FS : FileSystem W} `{PM : ProgressMap W}.

(** The call of [downloadVideo] that the worker makes for the video at
    [index]. *)
Definition worker_download (outputPath : string) (options : BatchDownloadOptions W)
    (total : nat) (videoInfo : VideoInfo) (index : nat) : Async W string :=
  downloadVideo videoInfo outputPath
    (with_onFileProgress (videoOptions options)
       (fun progress w0 =>
          updateOverallProgress options total (progressMap_set index progress w0)))
    [].

(** What the worker returns: always a result for its video; one whose
    [success] is false, with the error, when [downloadVideo] threw; one
    whose [success] is true, with the path, when it returned and the
    progress callback after it returned too. *)
Lemma download_worker_value (outputPath : string) (options : BatchDownloadOptions W)
    (total : nat) (vi : VideoInfo) (index : nat) (w0 : W) :
  exists r w1,
    download_worker outputPath options total vi index w0 = (Ok r, w1) /\
    videoInfo r = vi /\
    (forall e w', worker_download outputPath options total vi index w0 = (Throw e, w') ->
       success r = false /\ filePath r = None /\ error r = Some e) /\
    (success r = true ->
       exists fp w', worker_download outputPath options total vi index w0 = (Ok fp, w') /\
                     filePath r = Some fp /\ error r = None).
Proof.
  unfold download_worker, worker_download.
  destruct (downloadVideo vi outputPath _ [] w0) as [[fp|e] w1].
  - destruct (updateOverallProgress options total _) as [[u|e] w2];
      eexists _, _; (split; [reflexivity|]); cbn [videoInfo success filePath error];
      (split; [reflexivity|]); (split; [intros e' w' Heq; discriminate Heq|]).
    + intros _. exists fp, w1. auto.
    + intros Heq. discriminate Heq.
  - eexists _, _. split; [reflexivity|]. cbn [videoInfo success filePath error].
    split; [reflexivity|]. split.
    + intros e' w' Heq. inversion Heq; subst. auto.
    + intros Heq. discriminate Heq.
Qed.

(** X21. With a concurrency of at least one, [downloadBatch] returns
    and never has more results than videos.  When [onBatchProgress]
    returns, or is not given, the worker is called exactly once on each
    video, and the results are, in some order, the values of those
    calls: the videos of the results are the videos of the list, each as
    often as it is listed, so that no video is dropped; the result of a call in which [downloadVideo] threw is in
    the list too, with [success] false and the error, and a result has
    [success] true only when [downloadVideo] returned, with the path it
    returned.  [log] lists the calls of the worker by the index of the
    video. *)
Theorem downloadBatch_one_result_per_video (videoInfoList : list VideoInfo)
    (outputPath : string) (options : BatchDownloadOptions W) (sched : nat -> nat) (w : W) :
  (1 <= default 3 (concurrency options))%Z ->
  exists results w',
    downloadBatch videoInfoList outputPath options sched w = (Ok results, w') /\
    (length results <= length videoInfoList)%nat /\
    ((forall cb, onBatchProgress options = Some cb ->
        forall c t p w0, exists w1, cb c t p w0 = (Ok tt, w1)) ->
     let total := length videoInfoList in
     exists log : list (nat * Outcome DownloadResult),
       @Retry.processBatch VideoInfo DownloadResult
         (W * list (nat * Outcome DownloadResult)) Counting.aside_runtime
         videoInfoList (logged (download_worker outputPath options total))
         (logged_options (batch_options options)) sched (w, [])
       = (Ok (Retry.mkBatchOutcome results []), (w', log)) /\
       (forall i vi, videoInfoList !! i = Some vi ->
          exists r w0 w1,
            outcomes_of i log = [Ok r] /\
            download_worker outputPath options total vi i w0 = (Ok r, w1) /\
            videoInfo r = vi /\
            (forall e w2,
               worker_download outputPath options total vi i w0 = (Throw e, w2) ->
               success r = false /\ filePath r = None /\ error r = Some e) /\
            (success r = true ->
               exists fp w2,
                 worker_download outputPath options total vi i w0 = (Ok fp, w2) /\
                 filePath r = Some fp /\ error r = None)) /\
       results ≡ₚ omap (fun i => result_of (outcomes_of i log)) (seq 0 total) /\
       videoInfo <$> results ≡ₚ videoInfoList /\
       length results = length videoInfoList).
Proof.
  intros Hc. unfold downloadBatch.
  set (fn := download_worker outputPath options (length videoInfoList)).
  destruct (RetryFacts.processBatch_accounts fn (batch_options options)
              videoInfoList sched w Hc) as (out & w' & Hrun & Hlen).
  rewrite Hrun. exists (Retry.out_results out), w'. split; [reflexivity|].
  split; [lia|]. intros Hcb. cbn zeta. fold fn.
  destruct (ParseBatchFacts.processBatch_calls_once fn (batch_options options))
    with (items := videoInfoList) (sched := sched) (w := w)
    as (out' & w'' & log & Hrun' & Hlogged & Herr & Hcalls & Hres).
  - intros vi index w0.
    destruct (download_worker_value outputPath options (length videoInfoList) vi index w0)
      as (r & w1 & Hw & _). exists r, w1. exact Hw.
  - simpl. lia.
  - intros cb Heq c t errs w0. cbn [Retry.onProgress batch_options] in Heq.
    inversion Heq; subst; clear Heq.
    destruct (onBatchProgress options) as [cb0|] eqn:Hop; [|eexists; reflexivity].
    destruct (Hcb cb0 eq_refl c t (overall w0) w0) as [w1 Hw1]. exists w1.
    destruct (cb0 c t (overall w0) w0) as [[[]|e] w2]; inversion Hw1; reflexivity.
  - exact Hc.
  - rewrite Hrun in Hrun'. inversion Hrun'; subst out' w''.
    assert (forall i vi, videoInfoList !! i = Some vi ->
              exists r w0 w1,
                outcomes_of i log = [Ok r] /\ fn vi i w0 = (Ok r, w1) /\
                videoInfo r = vi /\
                (forall e w2,
                   worker_download outputPath options (length videoInfoList) vi i w0
                   = (Throw e, w2) ->
                   success r = false /\ filePath r = None /\ error r = Some e) /\
                (success r = true ->
                   exists fp w2,
                     worker_download outputPath options (length videoInfoList) vi i w0
                     = (Ok fp, w2) /\
                     filePath r = Some fp /\ error r = None)) as Heach.
    { intros i vi Hvi. destruct (Hcalls i vi Hvi) as [w0 Hw0].
      destruct (download_worker_value outputPath options (length videoInfoList) vi i w0)
        as (r & w1 & Hw & Hvideo & Hfail & Hok).
      exists r, w0, w1. unfold fn in *. rewrite Hw in Hw0.
      split; [exact Hw0|]. split; [exact Hw|]. split; [exact Hvideo|].
      split; [exact Hfail|exact Hok]. }
    assert (videoInfo <$> Retry.out_results out ≡ₚ videoInfoList) as Hperm.
    { rewrite Hres. rewrite fmap_omap_seq; [reflexivity|].
      intros i vi Hvi. destruct (Heach i vi Hvi) as (r & w0 & w1 & Hlog & _ & Hvideo & _).
      exists r. rewrite Hlog. split; [reflexivity|exact Hvideo]. }
    exists log. split.
    { rewrite Hlogged. destruct out as [res errs]. cbn [Retry.out_errors] in Herr.
      subst errs. reflexivity. }
    split; [exact Heach|]. split; [exact Hres|]. split; [exact Hperm|].
    rewrite <- (length_fmap videoInfo). rewrite Hperm. reflexivity.
Qed.

End Batch.

Lemma downloadBatch_one_result_per_video_witness :
  exists results w',
    @downloadBatch (Scenario.DiskWorld * gmap nat Z) Counting.aside_runtime
      (Trials.disk_beside Scenario.serves_nothing) Trials.progress_beside
      [Scenario.sample_video; Scenario.sample_video] "out"
      (mkBatchDownloadOptions None None
         (mkVideoDownloadOptions None None [] None None None None None None))
      (fun n => n) (Scenario.empty_disk, ∅)
    = (Ok results, w') /\
    videoInfo <$> results ≡ₚ [Scenario.sample_video; Scenario.sample_video] /\
    length results = 2%nat.
Proof.
  destruct (@downloadBatch_one_result_per_video (Scenario.DiskWorld * gmap nat Z)
              Counting.aside_runtime (Trials.disk_beside Scenario.serves_nothing)
              Trials.progress_beside
              [Scenario.sample_video; Scenario.sample_video] "out"
              (mkBatchDownloadOptions None None
                 (mkVideoDownloadOptions None None [] None None None None None None))
              (fun n => n) (Scenario.empty_disk, ∅))
    as (results & w' & Hrun & _ & Hcalls).
  - simpl. lia.
  - exists results, w'. split; [exact Hrun|].
    destruct Hcalls as (log & _ & _ & _ & Hperm & Hlen);
      [intros cb Hcb; discriminate Hcb|].
    split; [exact Hperm|exact Hlen].
Defined.

(** On a server that completes no download, both videos are in the
    list, as failures. *)
Lemma downloadBatch_failures_listed_example :
  exists results w',
    @downloadBatch (Scenario.DiskWorld * gmap nat Z) Counting.aside_runtime
      (Trials.disk_beside Scenario.serves_nothing) Trials.progress_beside
      [Scenario.sample_video; Scenario.sample_video] "out"
      (mkBatchDownloadOptions None None
         (mkVideoDownloadOptions None None [] None None None None None None))
      (fun n => n) (Scenario.empty_disk, ∅)
    = (Ok results, w') /\
    success <$> results = [false; false] /\
    videoInfo <$> results = [Scenario.sample_video; Scenario.sample_video].
Proof. eexists _, _. split; [vm_compute; reflexivity|]. split; reflexivity. Qed.

End DownloadManagerFacts.
